(** * Swiss Ephemeris binding generator: a shallow embedding

    The development follows [scripts/generate-bindings.ts],
    [scripts/function-config.ts] and [src/helpers.ts].  JavaScript strings
    are modelled as [string] (sequences of 8-bit code units), JavaScript
    [Map]/[Set] objects keyed by strings as [gmap]/[gset], arrays as lists,
    optional fields as [option], and numbers read from the linear memory
    or returned by a native routine as IEEE-754 binary64 [float]s.
    Loops whose termination is not structural carry a fuel argument and
    return [None] when it runs out; each such function comes with a
    totality lemma. *)

From Stdlib Require Import String Ascii List ZArith NArith Floats Lia.
From Stdlib.Strings Require Import Byte.
From stdpp Require Import gmap gmultiset strings list pretty relations.

#[local] Set Warnings "-clear-no-such-hyp,-register-all,-level-tolerance".

Open Scope string_scope.
Open Scope list_scope.

(** Membership of a literal element in a literal list. *)
Ltac in_list :=
  solve [repeat first [apply list_elem_of_here | apply list_elem_of_further]].

(** ** Option-monad iteration, used for [for ... of] loops whose body may
    fail to return. *)

Fixpoint foldM {A S : Type} (f : S -> A -> option S) (s : S) (l : list A)
  : option S :=
  match l with
  | [] => Some s
  | a :: l' => match f s a with
               | Some s' => foldM f s' l'
               | None => None
               end
  end.

(** ** Data model (generate-bindings.ts, TYPES) *)

Record Constant := mkConstant {
  c_name : string;
  c_value : string;
  c_comment : option string;
  c_dependencies : list string
}.

#[global] Instance Constant_eq_dec : EqDecision Constant.
Proof. solve_decision. Defined.

Definition names (l : list Constant) : list string := map c_name l.

Record FunctionParam := mkParam {
  p_type : string;
  p_name : string;
  p_isPointer : bool
}.

Record FunctionDecl := mkDecl {
  fd_returnType : string;
  fd_name : string;
  fd_params : list FunctionParam
}.

(** ** String operations of the JavaScript runtime used by the generator *)

Module JS.

(** [s.startsWith(p)] *)
Definition startsWith (s p : string) : bool := String.prefix p s.

(** [s.includes(sub)] *)
Fixpoint includes (s sub : string) : bool :=
  String.prefix sub s ||
  match s with
  | EmptyString => false
  | String _ s' => includes s' sub
  end.

(** [s.replace(pat, rep)] with a string pattern: the first occurrence only. *)
Fixpoint replaceFirst (s pat rep : string) : string :=
  if String.prefix pat s
  then rep +:+ String.substring (String.length pat)
                                (String.length s - String.length pat) s
  else match s with
       | EmptyString => EmptyString
       | String a s' => String a (replaceFirst s' pat rep)
       end.

(** [s.replace(/c/g, r)] for a single character [c]. *)
Fixpoint replaceChar (c : ascii) (r : string) (s : string) : string :=
  match s with
  | EmptyString => EmptyString
  | String a s' =>
      (if Ascii.eqb a c then r else String a EmptyString) +:+ replaceChar c r s'
  end.

(** [l.join(sep)] *)
Definition join (sep : string) (l : list string) : string := String.concat sep l.

(** [a || b] on strings: the empty string is falsy. *)
Definition orElse (a b : string) : string :=
  if String.eqb a "" then b else a.

(** A natural number inside a template literal: its decimal digits. *)
Definition num (n : N) : string := pretty n.

(** Character classes of regular expressions: [\s], [\d], [\w]. *)
Definition isSpace (c : ascii) : bool :=
  let n := nat_of_ascii c in
  Nat.eqb n 32 || (Nat.leb 9 n && Nat.leb n 13) || Nat.eqb n 160.

Definition isDigit (c : ascii) : bool :=
  let n := nat_of_ascii c in Nat.leb 48 n && Nat.leb n 57.

Definition isUpper (c : ascii) : bool :=
  let n := nat_of_ascii c in Nat.leb 65 n && Nat.leb n 90.

Definition isLower (c : ascii) : bool :=
  let n := nat_of_ascii c in Nat.leb 97 n && Nat.leb n 122.

Definition isWord (c : ascii) : bool :=
  isUpper c || isLower c || isDigit c || Ascii.eqb c "_".

(** [s.trim()] *)
Fixpoint trimStart (s : string) : string :=
  match s with
  | EmptyString => EmptyString
  | String c s' => if isSpace c then trimStart s' else s
  end.

Fixpoint trimEnd (s : string) : string :=
  match s with
  | EmptyString => EmptyString
  | String c s' =>
      match trimEnd s' with
      | EmptyString => if isSpace c then EmptyString else String c EmptyString
      | t => String c t
      end
  end.

Definition trim (s : string) : string := trimEnd (trimStart s).

(** [s.split(sep)] for a separator of one character. *)
Fixpoint split (sep : ascii) (s : string) : list string :=
  match s with
  | EmptyString => [EmptyString]
  | String c s' =>
      if Ascii.eqb c sep then EmptyString :: split sep s'
      else match split sep s' with
           | h :: t => String c h :: t
           | [] => [String c EmptyString]
           end
  end.

(** [s.slice(1, -1)] *)
Definition slice1 (s : string) : string :=
  String.substring 1 (String.length s - 2) s.

End JS.

(** ** Regular expressions

    A backtracking matcher for the fragment of ECMAScript regular
    expressions that the generator uses.  [matches r st] lists the states
    in which a match of [r] begun in [st] can end, in the order in which
    backtracking tries them: the head is the match that is found. *)

Module Regex.

Inductive re : Type :=
| Cls (p : ascii -> bool)         (* one character of a class *)
| Eps                             (* the empty expression *)
| Seq (a b : re)                  (* ab *)
| Alt (a b : re)                  (* a|b *)
| Star (greedy : bool) (a : re)   (* a* and a*? *)
| Group (i : nat) (a : re)        (* the i-th capture group *)
| Bos                             (* ^ *)
| Eos                             (* $ *)
| WordB.                          (* \b *)

(** [a+], [a+?], [a?] *)
Definition Plus (greedy : bool) (a : re) : re := Seq a (Star greedy a).
Definition Opt (a : re) : re := Alt a Eps.

Definition Chr (c : ascii) : re := Cls (Ascii.eqb c).

(** A literal string. *)
Fixpoint Lit (s : string) : re :=
  match s with
  | EmptyString => Eps
  | String c EmptyString => Chr c
  | String c s' => Seq (Chr c) (Lit s')
  end.

Fixpoint seq (l : list re) : re :=
  match l with
  | [] => Eps
  | [r] => r
  | r :: l' => Seq r (seq l')
  end.

(** [.]: every character but a line terminator. *)
Definition dot : re :=
  Cls (fun c => negb (Ascii.eqb c "010" || Ascii.eqb c "013")).
(** [[\s\S]] *)
Definition any : re := Cls (fun _ => true).
Definition space : re := Cls JS.isSpace.
Definition digit : re := Cls JS.isDigit.
Definition word : re := Cls JS.isWord.
(** [[...]] with literal characters. *)
Definition oneOf (s : string) : ascii -> bool :=
  fun c => existsb (Ascii.eqb c) (list_ascii_of_string s).

(** A position in the input: the character before it, the text after it
    and the captures made so far. *)
Record state := mkState {
  prev : option ascii;
  rest : string;
  caps : list (nat * string)
}.

Definition isWordAt (c : option ascii) : bool :=
  match c with
  | Some c => JS.isWord c
  | None => false
  end.

Definition next (s : string) : option ascii :=
  match s with
  | EmptyString => None
  | String c _ => Some c
  end.

(** The text consumed between two states of one match. *)
Definition consumed (st st' : state) : string :=
  String.substring 0 (String.length (rest st) - String.length (rest st')) (rest st).

(** Iterations of a starred expression; an iteration that consumes
    nothing is rejected. *)
Fixpoint iterate (step : state -> list state) (greedy : bool) (fuel : nat)
    (st : state) : list state :=
  match fuel with
  | O => [st]
  | S fuel' =>
      let more :=
        flat_map (iterate step greedy fuel')
                 (List.filter (fun st' => Nat.ltb (String.length (rest st'))
                                                  (String.length (rest st)))
                              (step st)) in
      if greedy then more ++ [st] else st :: more
  end.

Fixpoint matches (r : re) (st : state) : list state :=
  match r with
  | Cls p =>
      match rest st with
      | String c s' => if p c then [mkState (Some c) s' (caps st)] else []
      | EmptyString => []
      end
  | Eps => [st]
  | Seq a b => flat_map (matches b) (matches a st)
  | Alt a b => matches a st ++ matches b st
  | Star greedy a => iterate (matches a) greedy (String.length (rest st)) st
  | Group i a =>
      map (fun st' => mkState (prev st') (rest st') ((i, consumed st st') :: caps st'))
          (matches a st)
  | Bos => match prev st with None => [st] | Some _ => [] end
  | Eos => match rest st with EmptyString => [st] | String _ _ => [] end
  | WordB => if xorb (isWordAt (prev st)) (isWordAt (next (rest st)))
             then [st] else []
  end.

(** The result of a successful match: the matched text and the groups. *)
Record found := mkFound {
  m_text : string;
  m_groups : list (nat * string)
}.

(** The [i]-th group, [undefined] when it did not take part. *)
Definition group (i : nat) (m : found) : option string :=
  snd <$> List.find (fun g => Nat.eqb (fst g) i) (m_groups m).

Definition matchAt (r : re) (p : option ascii) (s : string) : option found :=
  match matches r (mkState p s []) with
  | st' :: _ => Some (mkFound (consumed (mkState p s []) st') (caps st'))
  | [] => None
  end.

(** One pass over the input for an expression with the [g] flag: the
    matches from left to right ([inr]) and the characters between them
    ([inl]).  After a match the search resumes where it ended. *)
Fixpoint scan (r : re) (p : option ascii) (skip : nat) (s : string)
  : list (ascii + found) :=
  match s with
  | EmptyString =>
      match skip, matchAt r p EmptyString with
      | O, Some m => [inr m]
      | _, _ => []
      end
  | String c s' =>
      match skip with
      | S k => scan r (Some c) k s'
      | O =>
          match matchAt r p s with
          | Some m =>
              match String.length (m_text m) with
              | O => inr m :: inl c :: scan r (Some c) 0 s'
              | S k => inr m :: scan r (Some c) k s'
              end
          | None => inl c :: scan r (Some c) 0 s'
          end
      end
  end.

(** [s.match(r)] and [r.exec(s)] without the [g] flag: the first match. *)
Fixpoint exec_ (r : re) (p : option ascii) (s : string) : option found :=
  match matchAt r p s with
  | Some m => Some m
  | None =>
      match s with
      | EmptyString => None
      | String c s' => exec_ r (Some c) s'
      end
  end.

Definition exec (r : re) (s : string) : option found := exec_ r None s.

Definition test (r : re) (s : string) : bool :=
  match exec r s with Some _ => true | None => false end.

(** [s.matchAll(r)] *)
Definition matchAll (r : re) (s : string) : list found :=
  omap (fun t => match t with inr m => Some m | inl _ => None end)
       (scan r None 0 s).

(** [s.replace(r, f)] with the [g] flag. *)
Definition replaceAll (r : re) (f : found -> string) (s : string) : string :=
  String.concat ""
    (map (fun t => match t with
                   | inr m => f m
                   | inl c => String c EmptyString
                   end)
         (scan r None 0 s)).

(** [s.replace(r, rep)] without the [g] flag: the first match only. *)
Fixpoint replaceFirst_ (r : re) (rep : string) (p : option ascii) (s : string)
  : string :=
  match matchAt r p s with
  | Some m =>
      rep +:+ String.substring (String.length (m_text m))
                               (String.length s - String.length (m_text m)) s
  | None =>
      match s with
      | EmptyString => EmptyString
      | String c s' => String c (replaceFirst_ r rep (Some c) s')
      end
  end.

Definition replaceFirst (r : re) (rep : string) (s : string) : string :=
  replaceFirst_ r rep None s.

(** [s.split(r)] for an expression that matches no empty text. *)
Fixpoint pieces (cur : string) (l : list (ascii + found)) : list string :=
  match l with
  | [] => [cur]
  | inl c :: l' => pieces (cur +:+ String c EmptyString) l'
  | inr _ :: l' => cur :: pieces EmptyString l'
  end.

Definition splitRe (r : re) (s : string) : list string :=
  pieces EmptyString (scan r None 0 s).

End Regex.

(** ** Constant dependency resolver *)

Module Resolver.

(** [new Map(constants.map((c) => [c.name, c]))]: a later entry with the
    same key overwrites an earlier one. *)
Definition byNameOf (constants : list Constant) : gmap string Constant :=
  foldl (fun m c => <[c_name c := c]> m) ∅ constants.

(** First pass of [topologicalSort]: a constant one of whose dependencies
    is not a key of [byName] is skipped (inner [for] with [break]). *)
Definition hasMissingDep (byName : gmap string Constant) (c : Constant) : bool :=
  existsb (fun dep => bool_decide (byName !! dep = None)) (c_dependencies c).

Definition firstPass (byName : gmap string Constant)
    (constants : list Constant) : gset string :=
  foldl (fun skipped c =>
           if hasMissingDep byName c then {[c_name c]} ∪ skipped else skipped)
        ∅ constants.

(** One iteration of the body of [while (changed)]: the set is updated
    while the constants are traversed. *)
Definition dependsOnSkipped (skipped : gset string) (c : Constant) : bool :=
  existsb (fun dep => bool_decide (dep ∈ skipped)) (c_dependencies c).

Definition skipStep (acc : gset string * bool) (c : Constant)
  : gset string * bool :=
  let '(skipped, changed) := acc in
  if bool_decide (c_name c ∈ skipped) then (skipped, changed)
  else if dependsOnSkipped skipped c then ({[c_name c]} ∪ skipped, true)
  else (skipped, changed).

Definition skipPass (constants : list Constant) (skipped : gset string)
  : gset string * bool :=
  foldl skipStep (skipped, false) constants.

Fixpoint skipLoop (fuel : nat) (constants : list Constant)
    (skipped : gset string) : option (gset string) :=
  match fuel with
  | O => None
  | S fuel' =>
      let '(skipped', changed) := skipPass constants skipped in
      if changed then skipLoop fuel' constants skipped' else Some skipped'
  end.

(** The three mutable collections the nested function [visit] closes over. *)
Record VisitState := mkVisitState {
  sorted : list Constant;
  visited : gset string;
  inProgress : gset string
}.

Definition initState : VisitState := mkVisitState [] ∅ ∅.

Section Visit.
Variable byName : gmap string Constant.
Variable skipped : gset string.

Fixpoint visit (fuel : nat) (name : string) (st : VisitState)
  : option VisitState :=
  match fuel with
  | O => None
  | S fuel' =>
      if bool_decide (name ∈ visited st) then Some st
      else if bool_decide (name ∈ inProgress st) then Some st
      else if bool_decide (name ∈ skipped) then Some st
      else match byName !! name with
           | None => Some st
           | Some c =>
               let st1 := mkVisitState (sorted st) (visited st)
                                       ({[name]} ∪ inProgress st) in
               match foldM (fun s dep =>
                              if bool_decide (is_Some (byName !! dep))
                              then visit fuel' dep s else Some s)
                           st1 (c_dependencies c) with
               | None => None
               | Some st2 =>
                   Some (mkVisitState (sorted st2 ++ [c])
                                      ({[name]} ∪ visited st2)
                                      (inProgress st2 ∖ {[name]}))
               end
           end
  end.

Definition visitAll (fuel : nat) (constants : list Constant)
  : option VisitState :=
  foldM (fun s c =>
           if bool_decide (c_name c ∈ skipped) then Some s
           else visit fuel (c_name c) s)
        initState constants.
End Visit.

(** The skipped set on which the traversal runs; the loop needs at most
    one pass per constant plus a last pass without change. *)
Definition skippedOf (constants : list Constant) : option (gset string) :=
  skipLoop (S (length constants)) constants
           (firstPass (byNameOf constants) constants).

(** The recursion of [visit] is never deeper than the number of keys of
    [byName] (each nested call has one more name in [inProgress]). *)
Definition topologicalSort (constants : list Constant) : option (list Constant) :=
  let byName := byNameOf constants in
  match skippedOf constants with
  | None => None
  | Some skipped =>
      match visitAll byName skipped (S (size byName)) constants with
      | None => None
      | Some st => Some (sorted st)
      end
  end.

End Resolver.

(** ** Declaration extractor: constants *)

Module Extract.
Import Regex.

(** [[A-Z0-9_]] *)
Definition isUpperDigit (c : ascii) : bool :=
  JS.isUpper c || JS.isDigit c || Ascii.eqb c "_".

(** [/\b([A-Z][A-Z0-9_]+)\b/g] *)
Definition dependencyRe : re :=
  seq [WordB; Group 1 (Seq (Cls JS.isUpper) (Plus true (Cls isUpperDigit))); WordB].

Definition findDependencies (value : string) : list string :=
  omap (group 1) (matchAll dependencyRe value).

(** The expressions tested by [parseConstantValue], in its order. *)
Definition digitOrDot (c : ascii) : bool := JS.isDigit c || Ascii.eqb c ".".

(** [/^-?[\d.]+$/] *)
Definition simpleNumberRe : re :=
  seq [Bos; Opt (Chr "-"); Plus true (Cls digitOrDot); Eos].

(** [/^\(-[\d.]+\)$/] *)
Definition negativeNumberRe : re :=
  seq [Bos; Chr "("; Chr "-"; Plus true (Cls digitOrDot); Chr ")"; Eos].

(** [/^\d+\s*[\*\+\-\/]\s*\d+$/] *)
Definition arithmeticRe : re :=
  seq [Bos; Plus true digit; Star true space; Cls (oneOf "*+-/");
       Star true space; Plus true digit; Eos].

(** [/^\d+\s*<<\s*\d+$/] *)
Definition shiftRe : re :=
  seq [Bos; Plus true digit; Star true space; Lit "<<";
       Star true space; Plus true digit; Eos].

(** [/^\([^)]*\d[^)]*\)$/] *)
Definition notClosing (c : ascii) : bool := negb (Ascii.eqb c ")").
Definition parenthesizedRe : re :=
  seq [Bos; Chr "("; Star true (Cls notClosing); digit;
       Star true (Cls notClosing); Chr ")"; Eos].

(** [/^[\d\s*+\-/<>|&^()]+$/] *)
Definition numericInnerRe : re :=
  seq [Bos;
       Plus true (Cls (fun c => JS.isDigit c || JS.isSpace c || oneOf "*+-/<>|&^()" c));
       Eos].

(** [/^[A-Z0-9_\s*+\-/<>|&^()]+$/] *)
Definition mixedInnerRe : re :=
  seq [Bos;
       Plus true (Cls (fun c => isUpperDigit c || JS.isSpace c
                                || oneOf "*+-/<>|&^()" c));
       Eos].

(** [/^[A-Z][A-Z0-9_]*$/] *)
Definition referenceRe : re :=
  seq [Bos; Cls JS.isUpper; Star true (Cls isUpperDigit); Eos].

(** [/^\([A-Z0-9_\s|&+\-*]+\)$/] *)
Definition constantExprRe : re :=
  seq [Bos; Chr "(";
       Plus true (Cls (fun c => isUpperDigit c || JS.isSpace c || oneOf "|&+-*" c));
       Chr ")"; Eos].

(** [/^[A-Z0-9_]+(\s*[|&+\-*]\s*[A-Z0-9_]+)+$/] *)
Definition bareExprRe : re :=
  seq [Bos; Plus true (Cls isUpperDigit);
       Plus true (Group 1 (seq [Star true space; Cls (oneOf "|&+-*");
                                Star true space; Plus true (Cls isUpperDigit)]));
       Eos].

Definition parenthesize (value : string) : string := "(" +:+ value +:+ ")".

(** The accepted value and whether it is numeric; [None] for [null]. *)
Definition parseConstantValue (value : string) : option (string * bool) :=
  if test simpleNumberRe value then Some (value, true)
  else if test negativeNumberRe value then Some (value, true)
  else if test arithmeticRe value then Some (parenthesize value, true)
  else if test shiftRe value then Some (parenthesize value, true)
  else
    let inner := JS.slice1 value in
    if test parenthesizedRe value && test numericInnerRe inner
    then Some (value, true)
    else if test parenthesizedRe value && test mixedInnerRe inner
    then Some (value, false)
    else if test referenceRe value then Some (value, false)
    else if test constantExprRe value then Some (value, false)
    else if test bareExprRe value then Some (parenthesize value, false)
    else None.

(** [/\/\*[\s\S]*?\*\//g] *)
Definition blockCommentRe : re := seq [Lit "/*"; Star false any; Lit "*/"].

(** [/\/\*\s*/] *)
Definition commentOpenRe : re := seq [Lit "/*"; Star true space].

(** The replacement of a comment: its first line, when short. *)
Definition keepFirstLine (m : found) : string :=
  let firstLine :=
    JS.trim (replaceFirst commentOpenRe ""
               (List.hd EmptyString (JS.split "010" (m_text m)))) in
  if Nat.ltb 0 (String.length firstLine) && Nat.ltb (String.length firstLine) 80
  then "/* " +:+ firstLine +:+ " */"
  else "".

(** [/^#\s*define\s+(NAME)\s+(.+?)(?:\s*\/\*(.+?)\*\/)?$/], where [NAME]
    stands for [[A-Z][A-Z0-9_]*]. *)
Definition defineRe : re :=
  seq [Bos; Chr "#"; Star true space; Lit "define"; Plus true space;
       Group 1 (Seq (Cls JS.isUpper) (Star true (Cls isUpperDigit)));
       Plus true space;
       Group 2 (Plus false dot);
       Opt (seq [Star true space; Lit "/*"; Group 3 (Plus false dot); Lit "*/"]);
       Eos].

Definition skipNames : list string :=
  ["_SWEPHEXP_INCLUDED"; "MY_TRUE"; "MY_FALSE"; "MALLOC"; "CALLOC"; "FREE";
   "CALL_CONV"; "EXP32"; "SIMULATE_VICTORVB"; "TJD_INVALID"; "ext_def"].

(** [/\/\*.*?\*\//g] *)
Definition inlineCommentRe : re := seq [Lit "/*"; Star false dot; Lit "*/"].

(** [/\/\/.*$/] *)
Definition lineCommentRe : re := seq [Lit "//"; Star true dot; Eos].

Definition quoteChars : string :=
  String (ascii_of_nat 34) (String (ascii_of_nat 39) EmptyString).

(** The body of the loop over the lines: [None] where it [continue]s. *)
Definition parseLine (line : string) : option Constant :=
  match exec defineRe line with
  | None => None
  | Some m =>
      let name := default EmptyString (group 1 m) in
      let value := JS.trim (default EmptyString (group 2 m)) in
      let comment := JS.trim <$> group 3 m in
      if existsb (String.eqb name) skipNames then None
      else if match value with
              | String c _ => oneOf quoteChars c
              | EmptyString => false
              end then None
      else if test (Chr "(") name then None
      else
        let value := JS.trim (replaceAll inlineCommentRe (fun _ => "") value) in
        let value := JS.trim (replaceFirst lineCommentRe "" value) in
        if String.eqb value "" then None
        else match parseConstantValue value with
             | None => None
             | Some (parsedValue, _) =>
                 Some (mkConstant name parsedValue comment
                                  (findDependencies parsedValue))
             end
  end.

Definition parseConstants (headerContent : string) : list Constant :=
  let processed := replaceAll blockCommentRe keepFirstLine headerContent in
  omap parseLine (JS.split "010" processed).

(** ** Declaration extractor: routines *)

(** [/ext_def\s*\(\s*([^)]+)\s*\)\s+(\w+)\s*\(([\s\S]*?)\)\s*;/g] *)
Definition funcRegex : re :=
  seq [Lit "ext_def"; Star true space; Chr "("; Star true space;
       Group 1 (Plus true (Cls notClosing)); Star true space; Chr ")";
       Plus true space; Group 2 (Plus true word); Star true space; Chr "(";
       Group 3 (Star false any); Chr ")"; Star true space; Chr ";"].

Definition skipFunctions : list string :=
  ["swe_version"; "swe_get_library_path"; "swe_cs2timestr"; "swe_cs2lonlatstr";
   "swe_cs2degstr"; "swe_get_ayanamsa_name"; "swe_get_current_file_data";
   "swe_house_name"; "swe_set_timeout"].

(** [/^const\s+/] *)
Definition constRe : re := seq [Bos; Lit "const"; Plus true space].

(** [/\s*\*\s*/g] *)
Definition starRe : re := seq [Star true space; Chr "*"; Star true space].

(** [/\s+/] *)
Definition spacesRe : re := Plus true space.

Definition nonEmpty (s : string) : bool := negb (String.eqb s "").

(** [cleaned] before the stars are replaced. *)
Definition dropConst (param : string) : string := replaceFirst constRe "" param.

(** [parts]: the words of a parameter, the stars taken as spaces. *)
Definition partsOf (param : string) : list string :=
  List.filter nonEmpty
    (splitRe spacesRe (replaceAll starRe (fun _ => " ") (dropConst param))).

(** The body of the loop of [parseParams] over [paramList]. *)
Definition parseParam (params : list FunctionParam) (param : string)
  : list FunctionParam :=
  if String.eqb param "" then params
  else
    let isPointer := JS.includes (dropConst param) "*" in
    let parts := partsOf param in
    if Nat.leb 2 (length parts) then
      params ++ [mkParam (JS.join " " (removelast parts)) (List.last parts "")
                         isPointer]
    else if Nat.eqb (length parts) 1 then
      params ++ [mkParam (List.hd "" parts)
                         ("arg" +:+ JS.num (N.of_nat (length params))) isPointer]
    else params.

Definition parseParams (paramsStr : string) : list FunctionParam :=
  if String.eqb paramsStr "void" || String.eqb paramsStr "" then []
  else foldl parseParam [] (map JS.trim (JS.split "," paramsStr)).

(** The body of the loop of [parseFunctions] over the matches. *)
Definition parseFunction (m : found) : option FunctionDecl :=
  let returnType := JS.trim (default EmptyString (group 1 m)) in
  let name := JS.trim (default EmptyString (group 2 m)) in
  let paramsStr := JS.trim (default EmptyString (group 3 m)) in
  if existsb (String.eqb name) skipFunctions then None
  else
    let paramsStr := replaceAll blockCommentRe (fun _ => "") paramsStr in
    let paramsStr := JS.trim (replaceAll spacesRe (fun _ => " ") paramsStr) in
    Some (mkDecl returnType name (parseParams paramsStr)).

Definition parseFunctions (headerContent : string) : list FunctionDecl :=
  omap parseFunction (matchAll funcRegex headerContent).

End Extract.

(** ** Category classifier and the constants document *)

Module Emit.

(** [name.match(/^SE_(A|B|...)$/)] with literal alternatives. *)
Definition matchesSE (alts : list string) (name : string) : bool :=
  existsb (fun a => String.eqb name ("SE_" +:+ a)) alts.

Definition categorizeConstant (name : string) : string :=
  if JS.startsWith name "SE_SIDM_" then "AYANAMSA"
  else if JS.startsWith name "SEFLG_" then "CALC_FLAGS"
  else if JS.startsWith name "SE_SIDBIT_" || String.eqb name "SE_SIDBITS"
  then "SIDEREAL_BITS"
  else if JS.startsWith name "SE_ECL_" then "ECLIPSE"
  else if JS.startsWith name "SE_CALC_" || JS.startsWith name "SE_BIT_"
  then "RISE_TRANSIT"
  else if JS.startsWith name "SE_HELFLAG_"
          || JS.startsWith name "SE_HELIACAL"
          || JS.startsWith name "SE_MORNING_"
          || JS.startsWith name "SE_EVENING_"
          || JS.startsWith name "SE_ACRONYCHAL"
          || JS.startsWith name "SE_COSMICAL"
  then "HELIACAL"
  else if JS.startsWith name "SE_NODBIT_" then "NODE_APSIDES"
  else if JS.startsWith name "SE_SPLIT_DEG_" then "SPLIT_DEG"
  else if JS.startsWith name "SE_TIDAL_" then "TIDAL"
  else if JS.startsWith name "SE_MODEL_" || JS.startsWith name "NSE_MODEL"
  then "MODELS"
  else if JS.startsWith name "SEMOD_" then "MODEL_VALUES"
  else if JS.startsWith name "SE_AUNIT_" then "UNITS"
  else if matchesSE
            ["SUN"; "MOON"; "MERCURY"; "VENUS"; "MARS"; "JUPITER"; "SATURN";
             "URANUS"; "NEPTUNE"; "PLUTO"; "MEAN_NODE"; "TRUE_NODE";
             "MEAN_APOG"; "OSCU_APOG"; "EARTH"; "CHIRON"; "PHOLUS"; "CERES";
             "PALLAS"; "JUNO"; "VESTA"; "INTP_"; "NPLANETS"; "ECL_NUT"] name
  then "PLANETS"
  else if matchesSE
            ["CUPIDO"; "HADES"; "ZEUS"; "KRONOS"; "APOLLON"; "ADMETOS";
             "VULKANUS"; "POSEIDON"; "ISIS"; "NIBIRU"; "HARRINGTON";
             "NEPTUNE_LEVERRIER"; "NEPTUNE_ADAMS"; "PLUTO_LOWELL";
             "PLUTO_PICKERING"; "VULCAN"; "WHITE_MOON"; "PROSERPINA";
             "WALDEMATH"] name
  then "FICTITIOUS_PLANETS"
  else if matchesSE
            ["ASC"; "MC"; "ARMC"; "VERTEX"; "EQUASC"; "COASC1"; "COASC2";
             "POLASC"; "NASCMC"] name
  then "HOUSE_POINTS"
  else if matchesSE ["JUL_CAL"; "GREG_CAL"] name then "CALENDAR"
  else if matchesSE
            ["FICT_OFFSET"; "FICT_OFFSET_1"; "FICT_MAX"; "AST_OFFSET";
             "PLMOON_OFFSET"; "COMET_OFFSET"; "NALL_NAT_POINTS"; "NFICT_ELEM";
             "VARUNA"] name
  then "OFFSETS"
  else if matchesSE ["TRUE_TO_APP"; "APP_TO_TRUE"] name then "REFRACTION"
  else if matchesSE ["ECL2HOR"; "EQU2HOR"; "HOR2ECL"; "HOR2EQU"] name
  then "COORDINATE_TRANSFORM"
  else if matchesSE ["PHOTOPIC_FLAG"; "SCOTOPIC_FLAG"; "MIXEDOPIC_FLAG"] name
  then "OPTIC"
  else if String.eqb name "SE_FIXSTAR" || String.eqb name "SE_MAX_STNAME"
  then "FIXSTAR"
  else if String.eqb name "SE_DELTAT_AUTOMATIC" then "DELTAT"
  else "OTHER".

Definition groupOrder : list string :=
  ["CALENDAR"; "PLANETS"; "FICTITIOUS_PLANETS"; "OFFSETS"; "HOUSE_POINTS";
   "CALC_FLAGS"; "SIDEREAL_BITS"; "AYANAMSA"; "NODE_APSIDES"; "ECLIPSE";
   "RISE_TRANSIT"; "COORDINATE_TRANSFORM"; "REFRACTION"; "HELIACAL"; "OPTIC";
   "SPLIT_DEG"; "TIDAL"; "DELTAT"; "MODELS"; "MODEL_VALUES"; "UNITS";
   "FIXSTAR"; "OTHER"].

(** [groups[prefix].push(c)] for the constants in sorted order; the record
    [groups] is only read through the keys of [groupOrder]. *)
Definition groupConstants (sorted : list Constant) : gmap string (list Constant) :=
  foldl (fun groups c =>
           let prefix := categorizeConstant (c_name c) in
           <[prefix := default [] (groups !! prefix) ++ [c]]> groups)
        ∅ sorted.

(** The groups that are written, in the order of [groupOrder]: a missing or
    empty group is passed over. *)
Definition emittedGroups (sorted : list Constant) : list (string * list Constant) :=
  let groups := groupConstants sorted in
  flat_map (fun group =>
              match groups !! group with
              | None | Some [] => []
              | Some l => [(group, l)]
              end)
           groupOrder.

Definition renderConstant (c : Constant) : string :=
  let comment := match c_comment c with
                 | Some t => if String.eqb t "" then "" else " // " +:+ t
                 | None => ""
                 end in
  "export const " +:+ c_name c +:+ " = " +:+ c_value c +:+ ";" +:+ comment.

Definition renderGroup (g : string * list Constant) : list string :=
  ("// " +:+ JS.replaceChar "_" " " (fst g)) :: map renderConstant (snd g) ++ [""].

Definition constantsHeader : list string :=
  ["/**"; " * Swiss Ephemeris Constants";
   " * Auto-generated from swephexp.h - DO NOT EDIT"; " */"; ""].

Definition constantsLines (sorted : list Constant) : list string :=
  constantsHeader ++ flat_map renderGroup (emittedGroups sorted).

Definition generateConstants (constants : list Constant) : option string :=
  match Resolver.topologicalSort constants with
  | None => None
  | Some sorted => Some (JS.join (String "010" "") (constantsLines sorted))
  end.

(** The constants in the order in which their definitions stand in the
    constants document. *)
Definition emittedConstants (constants : list Constant) : option (list Constant) :=
  match Resolver.topologicalSort constants with
  | None => None
  | Some sorted => Some (flat_map snd (emittedGroups sorted))
  end.

End Emit.
(** ** The routine configuration (function-config.ts) *)

(** [OutputType]: the tag is the field [type], [count]/[size] are natural
    numbers, [name] is the optional public name. *)
Inductive OutputType :=
| TFloat64 (name : option string)
| TFloat64Array (count : N) (name : option string)
| TInt32 (name : option string)
| TInt32Array (count : N) (name : option string)
| TString (size : N)
| TError (size : N).

Inductive ReturnMode := RVoid | RNumber | RCheckError | RCheckNegative.

(** [FunctionConfig]: every field is optional.  [outputs] is an object
    whose keys are parameter names; its entries are kept in insertion
    order, which is the order of [Object.entries] for keys that are
    identifiers. *)
Record FunctionConfig := mkConfig {
  cfg_friendlyName : option string;
  cfg_outputs : option (list (string * OutputType));
  cfg_inputStrings : option (list string);
  cfg_returnType : option ReturnMode;
  cfg_skip : option bool;
  cfg_description : option string;
  cfg_resultType : option string
}.

#[global] Instance OutputType_eq_dec : EqDecision OutputType.
Proof. solve_decision. Defined.
#[global] Instance ReturnMode_eq_dec : EqDecision ReturnMode.
Proof. solve_decision. Defined.

Module Cfg.

(** [type.type] *)
Definition tag (t : OutputType) : string :=
  match t with
  | TFloat64 _ => "float64"
  | TFloat64Array _ _ => "float64[]"
  | TInt32 _ => "int32"
  | TInt32Array _ _ => "int32[]"
  | TString _ => "string"
  | TError _ => "error"
  end.

Definition isError (t : OutputType) : bool :=
  match t with TError _ => true | _ => false end.

(** [(type as any).name] *)
Definition publicName (t : OutputType) : option string :=
  match t with
  | TFloat64 n | TFloat64Array _ n | TInt32 n | TInt32Array _ n => n
  | TString _ | TError _ => None
  end.

(** [o || dflt] for an optional string: undefined and the empty string
    are falsy. *)
Definition strOr (o : option string) (dflt : string) : string :=
  match o with
  | Some s => JS.orElse s dflt
  | None => dflt
  end.

(** [(type as any).name || param] *)
Definition propName (t : OutputType) (param : string) : string :=
  strOr (publicName t) param.

(** [outputs[name]] used as a condition: the entry exists. *)
Definition hasOutput (outputs : list (string * OutputType)) (name : string) : bool :=
  existsb (fun e => String.eqb (fst e) name) outputs.

(** [inputStrings.includes(name)] *)
Definition isInputString (inputStrings : list string) (name : string) : bool :=
  existsb (String.eqb name) inputStrings.

(** [config.resultType === r] *)
Definition resultIs (config : FunctionConfig) (r : string) : bool :=
  match cfg_resultType config with
  | Some r' => String.eqb r' r
  | None => false
  end.

Definition outputsOf (config : FunctionConfig) : list (string * OutputType) :=
  default [] (cfg_outputs config).

Definition inputStringsOf (config : FunctionConfig) : list string :=
  default [] (cfg_inputStrings config).

Definition returnTypeOf (config : FunctionConfig) : ReturnMode :=
  default RNumber (cfg_returnType config).

Definition friendlyNameOf (fn : FunctionDecl) (config : FunctionConfig) : string :=
  strOr (cfg_friendlyName config) (JS.replaceFirst (fd_name fn) "swe_" "").

End Cfg.
(** ** The emitted wrapper as a program

    The text produced by [generateWrapperFunction] is a JavaScript arrow
    function of one fixed shape.  [Wrapper.program] is that function as a
    syntax tree, [Wrapper.render] prints it, and [Wrapper.invoke] runs it
    against a runtime that supplies [raw] (the native module) and [mem]
    (the helpers of helpers.ts).  [Synth.wrapperProgram] builds the tree
    with the case analysis of the source; the theorem
    [render_wrapperProgram] states that printing it gives the emitted
    text. *)

Module Wrapper.

(** *** Syntax *)

(** The argument of [raw.malloc]: a literal or [count * width]. *)
Inductive sizeExpr :=
| SzLit (n : N)
| SzMul (count width : N).

(** An argument of the native call. *)
Inductive arg :=
| AVar (x : string)
| AHsys.      (* (typeof hsys === "string" ? hsys.charCodeAt(0) : hsys) *)

Inductive expr :=
| EVar (x : string)
| EIndex (x : string) (i : N)                 (* x[i] *)
| ESlice1 (x : string)                        (* x.slice(1) *)
| EArrayFrom (x : string)                     (* Array.from(x) *)
| EToPos (x : string)                         (* toPos(Array.from(x)) *)
| EGetInt32 (v : string)                      (* mem.getInt32(v) *)
| EGetFloat64 (v : string)                    (* mem.getFloat64(v) *)
| EGetString (v : string)                     (* mem.getString(v) *)
| EGetFloat64Array (v : string) (count : N).  (* mem.getFloat64Array(v, count) *)

Inductive stmt :=
| SMalloc (v : string) (size : sizeExpr)      (* const v = raw.malloc(size); *)
| SAllocString (v : string) (param : string)  (* const v = mem.allocString(param); *)
| SFree (v : string)                          (* raw.free(v); *)
| SCall (bind : bool) (f : string) (args : list arg)
                                              (* [const ret = ] raw.f(args); *)
| SCheckNegative (v : string)                 (* if (ret < 0) { ... throw ... } *)
| SConst (x : string) (e : expr)              (* const x = e; *)
| SDefToPos                                   (* const toPos = (arr) => ({ ... }); *)
| SInt32Array (v : string) (count : N)        (* const arr = []; for ... arr.push(...) *)
| SReturn (e : expr)                          (* return e; *)
| SReturnInline (fields : list (string * expr))
                                              (* return { a: e, ... }; *)
| SReturnObject (fields : list (string * expr * string)).
                                              (* return {  a: e,<suffix>  ... }; *)

Record program := mkProgram {
  prog_head : list string;     (* JSDoc line and the line with the signature *)
  prog_params : list string;   (* names of the parameters of the arrow function *)
  prog_allocs : list stmt;     (* statements before the [try] *)
  prog_guarded : bool;         (* is the body wrapped in [try]/[finally]? *)
  prog_body : list stmt;
  prog_frees : list stmt       (* statements of the [finally] block *)
}.

(** *** Printing *)

Definition quote : string := String (ascii_of_nat 34) "".

Definition fallbackMessage : string := "Swiss Ephemeris error".

Definition renderSize (s : sizeExpr) : string :=
  match s with
  | SzLit n => JS.num n
  | SzMul count width => JS.num count +:+ " * " +:+ JS.num width
  end.

Definition renderArg (a : arg) : string :=
  match a with
  | AVar x => x
  | AHsys => "(typeof hsys === " +:+ quote +:+ "string" +:+ quote
             +:+ " ? hsys.charCodeAt(0) : hsys)"
  end.

Definition renderExpr (e : expr) : string :=
  match e with
  | EVar x => x
  | EIndex x i => x +:+ "[" +:+ JS.num i +:+ "]"
  | ESlice1 x => x +:+ ".slice(1)"
  | EArrayFrom x => "Array.from(" +:+ x +:+ ")"
  | EToPos x => "toPos(Array.from(" +:+ x +:+ "))"
  | EGetInt32 v => "mem.getInt32(" +:+ v +:+ ")"
  | EGetFloat64 v => "mem.getFloat64(" +:+ v +:+ ")"
  | EGetString v => "mem.getString(" +:+ v +:+ ")"
  | EGetFloat64Array v count =>
      "mem.getFloat64Array(" +:+ v +:+ ", " +:+ JS.num count +:+ ")"
  end.

Definition renderStmt (s : stmt) : list string :=
  match s with
  | SMalloc v size => ["const " +:+ v +:+ " = raw.malloc(" +:+ renderSize size +:+ ");"]
  | SAllocString v param => ["const " +:+ v +:+ " = mem.allocString(" +:+ param +:+ ");"]
  | SFree v => ["raw.free(" +:+ v +:+ ");"]
  | SCall bind f args =>
      [(if bind then "const ret = " else "") +:+ "raw." +:+ f +:+ "("
       +:+ JS.join ", " (map renderArg args) +:+ ");"]
  | SCheckNegative v =>
      ["if (ret < 0) {";
       "  const errMsg = mem.getString(" +:+ v +:+ ");";
       "  throw new Error(errMsg || " +:+ quote +:+ fallbackMessage +:+ quote +:+ ");";
       "}"]
  | SConst x e => ["const " +:+ x +:+ " = " +:+ renderExpr e +:+ ";"]
  | SDefToPos =>
      ["const toPos = (arr: number[]): PlanetPosition => ({";
       "  longitude: arr[0], latitude: arr[1], distance: arr[2],";
       "  longitudeSpeed: arr[3], latitudeSpeed: arr[4], distanceSpeed: arr[5],";
       "});"]
  | SInt32Array v count =>
      ["const arr: number[] = [];";
       "for (let i = 0; i < " +:+ JS.num count +:+ "; i++) arr.push(mem.getInt32("
       +:+ v +:+ " + i * 4));"]
  | SReturn e => ["return " +:+ renderExpr e +:+ ";"]
  | SReturnInline fields =>
      ["return { "
       +:+ JS.join ", " (map (fun f => fst f +:+ ": " +:+ renderExpr (snd f)) fields)
       +:+ " };"]
  | SReturnObject fields =>
      ["return {"]
      ++ map (fun f => "  " +:+ fst (fst f) +:+ ": " +:+ renderExpr (snd (fst f))
                       +:+ "," +:+ snd f) fields
      ++ ["};"]
  end.

Definition renderBlock (indent : string) (l : list stmt) : list string :=
  map (fun line => indent +:+ line) (flat_map renderStmt l).

Definition render (p : program) : list string :=
  prog_head p
  ++ renderBlock "  " (prog_allocs p)
  ++ (if prog_guarded p
      then ["  try {"] ++ renderBlock "    " (prog_body p)
           ++ ["  } finally {"] ++ renderBlock "    " (prog_frees p) ++ ["  }"]
      else renderBlock "  " (prog_body p))
  ++ ["},"].

(** *** Values, outcomes and the runtime *)

Inductive jsval :=
| VNum (x : float)                 (* a number *)
| VPtr (p : N)                     (* a number that is an address *)
| VStr (s : string)
| VArr (l : list jsval)
| VObj (fields : list (string * jsval))
| VUndef.

(** What is thrown: by the runtime (a trap of the native module, a
    [RangeError] of a memory view), by the engine for an ill-formed program
    (an unbound name, a value of the wrong kind), or by the wrapper's own
    [throw new Error(msg)]. *)
Inductive exn :=
| RuntimeError (msg : string)
| ScriptError (msg : string)
| Failure (msg : string).

(** How a computation ends: with a value, by raising, or not at all. *)
Inductive result (A : Type) :=
| Val (a : A)
| Raise (e : exn)
| Hang.
Arguments Val {A} a.
Arguments Raise {A} e.
Arguments Hang {A}.

(** What the runtime answers to a call of the native routine or to a
    read: a value, a trap or range error, or nothing (the call does not
    come back). *)
Inductive answer (A : Type) :=
| Ans (a : A)
| Trap (msg : string)
| Never.
Arguments Ans {A} a.
Arguments Trap {A} msg.
Arguments Never {A}.

(** One interaction with [raw] or [mem], with its answer;
    [EvAllocStringTrap] is a call of [mem.allocString] that throws. *)
Inductive event :=
| EvMalloc (size p : N)
| EvAllocString (arg : jsval) (p : N)
| EvAllocStringTrap (arg : jsval) (msg : string)
| EvFree (p : N)
| EvCall (f : string) (args : list jsval) (res : answer float)
| EvGetString (p : N) (res : answer string)
| EvGetFloat64 (p : N) (res : answer float)
| EvGetInt32 (p : N) (res : answer float)
| EvGetFloat64Array (p count : N) (res : answer (list float)).

(** The native module and the memory helpers over a world [W].
    [raw.malloc] and [raw.free] are the allocator of the native module:
    [malloc] answers with a number (the address, or 0 when the memory is
    exhausted) and [free] with nothing.  [mem.allocString] encodes the
    string, obtains a block and copies the bytes into the memory view:
    it may throw (a [RangeError] when the bytes do not fit into the
    memory from the address obtained on), like the native routine and
    the reads, which may trap or fail to come back. *)
Record Runtime (W : Type) := mkRuntime {
  rt_malloc : N -> W -> N * W;
  rt_allocString : jsval -> W -> answer N * W;
  rt_free : N -> W -> W;
  rt_call : string -> list jsval -> W -> answer float * W;
  rt_getString : N -> W -> answer string;
  rt_getFloat64 : N -> W -> answer float;
  rt_getInt32 : N -> W -> answer float;
  rt_getFloat64Array : N -> N -> W -> answer (list float)
}.
Arguments rt_malloc {W}.
Arguments rt_allocString {W}.
Arguments rt_free {W}.
Arguments rt_call {W}.
Arguments rt_getString {W}.
Arguments rt_getFloat64 {W}.
Arguments rt_getInt32 {W}.
Arguments rt_getFloat64Array {W}.

(** *** Execution: a state and error monad over the world and the trace *)

Section Exec.
Context {W : Type} (rt : Runtime W).

Definition state : Type := W * list event.
Definition M (A : Type) : Type := state -> result A * state.

Definition ret {A} (a : A) : M A := fun st => (Val a, st).
Definition raise {A} (e : exn) : M A := fun st => (Raise e, st).
Definition bind {A B} (m : M A) (k : A -> M B) : M B :=
  fun st => match m st with
            | (Val a, st') => k a st'
            | (Raise e, st') => (Raise e, st')
            | (Hang, st') => (Hang, st')
            end.
Definition emit (ev : event) : M unit :=
  fun st => (Val tt, (fst st, snd st ++ [ev])).
Definition world : M W := fun st => (Val (fst st), st).
Definition setWorld (w : W) : M unit := fun st => (Val tt, (w, snd st)).
Definition lift {A} (r : answer A) : M A :=
  fun st => (match r with
             | Ans a => Val a
             | Trap msg => Raise (RuntimeError msg)
             | Never => Hang
             end, st).

Notation "x <- m ;; k" := (bind m (fun x => k))
  (at level 100, m at next level, right associativity).
Notation "m ;;; k" := (bind m (fun _ => k))
  (at level 100, right associativity).

Definition env : Type := list (string * jsval).

Definition lookup (x : string) (ρ : env) : option jsval :=
  snd <$> List.find (fun b => String.eqb (fst b) x) ρ.

Definition unbound {A} (x : string) : M A :=
  raise (ScriptError (x +:+ " is not defined")).

Definition getVar (x : string) (ρ : env) : M jsval :=
  match lookup x ρ with
  | Some v => ret v
  | None => unbound x
  end.

(** The address held by the constant [v]. *)
Definition getPtr (v : string) (ρ : env) : M N :=
  x <- getVar v ρ ;;
  match x with
  | VPtr p => ret p
  | _ => raise (ScriptError (v +:+ " is not an address"))
  end.

Definition getArr (x : string) (ρ : env) : M (list jsval) :=
  a <- getVar x ρ ;;
  match a with
  | VArr l => ret l
  | _ => raise (ScriptError (x +:+ " is not an array"))
  end.

Definition malloc (size : N) : M N :=
  w <- world ;;
  let '(p, w') := rt_malloc rt size w in
  setWorld w' ;;; emit (EvMalloc size p) ;;; ret p.

Definition allocString (a : jsval) : M N :=
  w <- world ;;
  let '(r, w') := rt_allocString rt a w in
  setWorld w' ;;;
  match r with
  | Ans p => emit (EvAllocString a p) ;;; ret p
  | Trap msg => emit (EvAllocStringTrap a msg) ;;; raise (RuntimeError msg)
  | Never => lift Never
  end.

Definition free (p : N) : M unit :=
  w <- world ;;
  setWorld (rt_free rt p w) ;;; emit (EvFree p).

Definition call (f : string) (args : list jsval) : M float :=
  w <- world ;;
  let '(r, w') := rt_call rt f args w in
  setWorld w' ;;; emit (EvCall f args r) ;;; lift r.

Definition getString (p : N) : M string :=
  w <- world ;;
  let r := rt_getString rt p w in emit (EvGetString p r) ;;; lift r.

Definition getFloat64 (p : N) : M float :=
  w <- world ;;
  let r := rt_getFloat64 rt p w in emit (EvGetFloat64 p r) ;;; lift r.

Definition getInt32 (p : N) : M float :=
  w <- world ;;
  let r := rt_getInt32 rt p w in emit (EvGetInt32 p r) ;;; lift r.

Definition getFloat64Array (p count : N) : M (list float) :=
  w <- world ;;
  let r := rt_getFloat64Array rt p count w in
  emit (EvGetFloat64Array p count r) ;;; lift r.

Definition evalSize (s : sizeExpr) : N :=
  match s with
  | SzLit n => n
  | SzMul count width => (count * width)%N
  end.

(** [s.charCodeAt(0)]: the code of the first character, [NaN] for the
    empty string. *)
Definition charCodeAt0 (s : string) : float :=
  match s with
  | EmptyString => PrimFloat.nan
  | String a _ => PrimFloat.of_uint63 (Uint63.of_Z (Z.of_N (N_of_ascii a)))
  end.

Definition evalArg (ρ : env) (a : arg) : M jsval :=
  match a with
  | AVar x => getVar x ρ
  | AHsys =>
      h <- getVar "hsys" ρ ;;
      match h with
      | VStr s => ret (VNum (charCodeAt0 s))
      | v => ret v
      end
  end.

Fixpoint evalArgs (ρ : env) (l : list arg) : M (list jsval) :=
  match l with
  | [] => ret []
  | a :: l' => v <- evalArg ρ a ;; vs <- evalArgs ρ l' ;; ret (v :: vs)
  end.

Definition index (l : list jsval) (i : N) : jsval :=
  default VUndef (l !! N.to_nat i).

(** The object built by [toPos] from an array. *)
Definition toPos (l : list jsval) : jsval :=
  VObj [("longitude", index l 0); ("latitude", index l 1);
        ("distance", index l 2); ("longitudeSpeed", index l 3);
        ("latitudeSpeed", index l 4); ("distanceSpeed", index l 5)].

Definition evalExpr (ρ : env) (e : expr) : M jsval :=
  match e with
  | EVar x => getVar x ρ
  | EIndex x i => l <- getArr x ρ ;; ret (index l i)
  | ESlice1 x => l <- getArr x ρ ;; ret (VArr (drop 1 l))
  | EArrayFrom x => l <- getArr x ρ ;; ret (VArr l)
  | EToPos x => l <- getArr x ρ ;; ret (toPos l)
  | EGetInt32 v => p <- getPtr v ρ ;; x <- getInt32 p ;; ret (VNum x)
  | EGetFloat64 v => p <- getPtr v ρ ;; x <- getFloat64 p ;; ret (VNum x)
  | EGetString v => p <- getPtr v ρ ;; s <- getString p ;; ret (VStr s)
  | EGetFloat64Array v count =>
      p <- getPtr v ρ ;; l <- getFloat64Array p count ;; ret (VArr (map VNum l))
  end.

Fixpoint evalFields {T} (ρ : env) (name : T -> string) (e : T -> expr)
    (l : list T) : M (list (string * jsval)) :=
  match l with
  | [] => ret []
  | f :: l' => v <- evalExpr ρ (e f) ;; vs <- evalFields ρ name e l' ;;
               ret ((name f, v) :: vs)
  end.

(** [count] reads of an [int32], four bytes apart, starting at [p]. *)
Fixpoint readInt32s (p : N) (count : nat) : M (list jsval) :=
  match count with
  | O => ret []
  | S n => x <- getInt32 p ;; xs <- readInt32s (p + 4) n ;; ret (VNum x :: xs)
  end.

(** A statement either goes on, with the constants it declared, or
    returns a value. *)
Inductive completion :=
| Next (ρ : env)
| Return (v : jsval).

Definition execStmt (ρ : env) (s : stmt) : M completion :=
  match s with
  | SMalloc v size => p <- malloc (evalSize size) ;; ret (Next ((v, VPtr p) :: ρ))
  | SAllocString v param =>
      a <- getVar param ρ ;; p <- allocString a ;; ret (Next ((v, VPtr p) :: ρ))
  | SFree v => p <- getPtr v ρ ;; free p ;;; ret (Next ρ)
  | SCall bind f args =>
      vs <- evalArgs ρ args ;; r <- call f vs ;;
      ret (Next (if bind then ("ret", VNum r) :: ρ else ρ))
  | SCheckNegative v =>
      r <- getVar "ret" ρ ;;
      match r with
      | VNum x =>
          if PrimFloat.ltb x 0 then
            p <- getPtr v ρ ;; errMsg <- getString p ;;
            raise (Failure (JS.orElse errMsg fallbackMessage))
          else ret (Next ρ)
      | _ => ret (Next ρ)
      end
  | SConst x e => v <- evalExpr ρ e ;; ret (Next ((x, v) :: ρ))
  | SDefToPos => ret (Next ρ)
  | SInt32Array v count =>
      p <- getPtr v ρ ;; l <- readInt32s p (N.to_nat count) ;;
      ret (Next (("arr", VArr l) :: ρ))
  | SReturn e => v <- evalExpr ρ e ;; ret (Return v)
  | SReturnInline fields =>
      vs <- evalFields ρ fst snd fields ;; ret (Return (VObj vs))
  | SReturnObject fields =>
      vs <- evalFields ρ (fun f => fst (fst f)) (fun f => snd (fst f)) fields ;;
      ret (Return (VObj vs))
  end.

Fixpoint execStmts (ρ : env) (l : list stmt) : M completion :=
  match l with
  | [] => ret (Next ρ)
  | s :: l' =>
      c <- execStmt ρ s ;;
      match c with
      | Next ρ' => execStmts ρ' l'
      | Return v => ret (Return v)
      end
  end.

(** [try { body } finally { fin }]: the [finally] block runs after the
    body has returned, fallen through or raised, in the scope outside
    the [try] block; it does not run when the body never ends.  A
    [finally] block that itself raises or returns takes over. *)
Definition tryFinally (ρ : env) (body fin : list stmt) : M completion :=
  fun st =>
    match execStmts ρ body st with
    | (Hang, st') => (Hang, st')
    | (r, st') =>
        match execStmts ρ fin st' with
        | (Val (Next _), st'') =>
            (match r with Val (Next _) => Val (Next ρ) | _ => r end, st'')
        | other => other
        end
    end.

(** Parameters are bound to the arguments by position; a parameter
    without an argument is [undefined]. *)
Fixpoint bindParams (params : list string) (args : list jsval) : env :=
  match params with
  | [] => []
  | x :: params' =>
      (x, default VUndef (head args)) :: bindParams params' (tail args)
  end.

(** One invocation of the wrapper: its result (a function that falls
    off its end returns [undefined]), the world it leaves and the trace
    of its interactions. *)
Definition invoke (p : program) (args : list jsval) (w : W)
  : result jsval * state :=
  let run :=
    c <- execStmts (bindParams (prog_params p) args) (prog_allocs p) ;;
    match c with
    | Return v => ret (Return v)
    | Next ρ =>
        if prog_guarded p then tryFinally ρ (prog_body p) (prog_frees p)
        else execStmts ρ (prog_body p)
    end in
  match run (w, []) with
  | (Val (Return v), st) => (Val v, st)
  | (Val (Next _), st) => (Val VUndef, st)
  | (Raise e, st) => (Raise e, st)
  | (Hang, st) => (Hang, st)
  end.
End Exec.

(** The addresses handed out and the addresses released, in trace order. *)
Definition allocated (tr : list event) : list N :=
  flat_map (fun ev => match ev with
                      | EvMalloc _ p | EvAllocString _ p => [p]
                      | _ => []
                      end) tr.

Definition freed (tr : list event) : list N :=
  flat_map (fun ev => match ev with EvFree p => [p] | _ => [] end) tr.

End Wrapper.
(** ** Wrapper synthesizer: the emitted text
    (generate-bindings.ts, FRIENDLY WRAPPER GENERATION) *)

Module Synth.
Import Cfg.

(** An element of [outputReads]. *)
Record OutputRead := mkRead {
  r_param : string;
  r_type : OutputType;
  r_varName : string
}.

Definition getOutputSize (t : OutputType) : string :=
  match t with
  | TFloat64 _ => "8"
  | TFloat64Array count _ => JS.num count +:+ " * 8"
  | TInt32 _ => "4"
  | TInt32Array count _ => JS.num count +:+ " * 4"
  | TString size | TError size => JS.num size
  end.

Definition tsTypeOf (t : OutputType) : string :=
  if JS.includes (tag t) "[]" then "number[]"
  else if String.eqb (tag t) "string" then "string" else "number".

Definition inferResultType (config : FunctionConfig)
    (outputs : list (string * OutputType)) : string :=
  match cfg_resultType config with
  | Some r => if negb (String.eqb r "") then r else
      let outputEntries := List.filter (fun e => negb (isError (snd e))) outputs in
      match outputEntries with
      | [(_, TFloat64 _)] | [(_, TInt32 _)] => "number"
      | [(_, TString _)] => "string"
      | [(_, TFloat64Array _ _)] | [(_, TInt32Array _ _)] => "number[]"
      | _ => "{ " +:+ JS.join "; "
                 (map (fun e => propName (snd e) (fst e) +:+ ": " +:+ tsTypeOf (snd e))
                      outputEntries) +:+ " }"
      end
  | None =>
      let outputEntries := List.filter (fun e => negb (isError (snd e))) outputs in
      match outputEntries with
      | [(_, TFloat64 _)] | [(_, TInt32 _)] => "number"
      | [(_, TString _)] => "string"
      | [(_, TFloat64Array _ _)] | [(_, TInt32Array _ _)] => "number[]"
      | _ => "{ " +:+ JS.join "; "
                 (map (fun e => propName (snd e) (fst e) +:+ ": " +:+ tsTypeOf (snd e))
                      outputEntries) +:+ " }"
      end
  end.

Definition isEmpty {A} (l : list A) : bool :=
  match l with [] => true | _ => false end.

Definition buildSignature (inputParams : list FunctionParam)
    (inputStrings : list string) (config : FunctionConfig)
    (returnType : ReturnMode) (outputs : list (string * OutputType)) : string :=
  let params :=
    map (fun p =>
           if isInputString inputStrings (p_name p) then p_name p +:+ ": string"
           else if String.eqb (p_name p) "hsys" then p_name p +:+ ": number | string"
           else p_name p +:+ ": number")
        inputParams in
  let resultType :=
    match returnType with
    | RNumber => if isEmpty outputs then "number"
                 else inferResultType config outputs
    | RCheckNegative | RCheckError => inferResultType config outputs
    | RVoid => if negb (isEmpty outputs) then inferResultType config outputs
               else "void"
    end in
  "(" +:+ JS.join ", " params +:+ "): " +:+ resultType.

(** [outputReads.find(o => o.param === p)] *)
Definition findRead (p : string) (outputReads : list OutputRead) : option OutputRead :=
  List.find (fun o => String.eqb (r_param o) p) outputReads.

Definition readFn (t : OutputType) : string :=
  if String.eqb (tag t) "int32" then "getInt32" else "getFloat64".

(** The loop shared by the [DateComponents], [UtcComponents] and
    [SplitDegrees] branches. *)
Definition componentLines (indent : string) (nonErrorOutputs : list OutputRead)
  : list string :=
  [indent +:+ "return {"]
  ++ map (fun o => indent +:+ "  " +:+ propName (r_type o) (r_param o) +:+ ": mem."
                   +:+ readFn (r_type o) +:+ "(" +:+ r_varName o +:+ "),")
         nonErrorOutputs
  ++ [indent +:+ "};"].

Definition ascmcLines (indent : string) : list string :=
  [indent +:+ "  ascendant: ascmc[0],";
   indent +:+ "  mc: ascmc[1],";
   indent +:+ "  armc: ascmc[2],";
   indent +:+ "  vertex: ascmc[3],";
   indent +:+ "  equatorialAscendant: ascmc[4],";
   indent +:+ "  coAscendantKoch: ascmc[5],";
   indent +:+ "  coAscendantMunkasey: ascmc[6],";
   indent +:+ "  polarAscendant: ascmc[7],"].

Definition optLines {A} (o : option A) (f : A -> list string) : list string :=
  match o with Some a => f a | None => [] end.

(** One branch of [buildReturnValue] for a named result type: [Some lines]
    when the branch returns, [None] when control falls through to the next
    test. *)
Definition shapeLines (outputReads nonErrorOutputs : list OutputRead)
    (config : FunctionConfig) (indent : string) : list (option (list string)) :=
  [ (if resultIs config "PlanetPosition" then
       match List.find (fun o => String.eqb (r_param o) "xx"
                                 || String.eqb (r_param o) "xxret") outputReads with
       | Some xxOutput =>
           Some [indent +:+ "const xx = mem.getFloat64Array(" +:+ r_varName xxOutput +:+ ", 6);";
                 indent +:+ "return {";
                 indent +:+ "  longitude: xx[0],";
                 indent +:+ "  latitude: xx[1],";
                 indent +:+ "  distance: xx[2],";
                 indent +:+ "  longitudeSpeed: xx[3],";
                 indent +:+ "  latitudeSpeed: xx[4],";
                 indent +:+ "  distanceSpeed: xx[5],";
                 indent +:+ "};"]
       | None => None
       end
     else None);
    (if resultIs config "DateComponents"
     then Some (componentLines indent nonErrorOutputs) else None);
    (if resultIs config "UtcComponents"
     then Some (componentLines indent nonErrorOutputs) else None);
    (if resultIs config "SplitDegrees"
     then Some (componentLines indent nonErrorOutputs) else None);
    (if resultIs config "HouseResult" then
       match findRead "cusps" outputReads, findRead "ascmc" outputReads with
       | Some cuspsOutput, Some ascmcOutput =>
           Some ([indent +:+ "const cusps = mem.getFloat64Array(" +:+ r_varName cuspsOutput +:+ ", 13);";
                  indent +:+ "const ascmc = mem.getFloat64Array(" +:+ r_varName ascmcOutput +:+ ", 10);";
                  indent +:+ "return {";
                  indent +:+ "  cusps: cusps.slice(1), // cusps[0] is unused"]
                 ++ ascmcLines indent
                 ++ [indent +:+ "};"])
       | _, _ => None
       end
     else None);
    (if resultIs config "HouseResultWithSpeed" then
       let cuspSpeedOutput := findRead "cusp_speed" outputReads in
       let ascmcSpeedOutput := findRead "ascmc_speed" outputReads in
       match findRead "cusps" outputReads, findRead "ascmc" outputReads with
       | Some cuspsOutput, Some ascmcOutput =>
           Some ([indent +:+ "const cusps = mem.getFloat64Array(" +:+ r_varName cuspsOutput +:+ ", 13);";
                  indent +:+ "const ascmc = mem.getFloat64Array(" +:+ r_varName ascmcOutput +:+ ", 10);"]
                 ++ optLines cuspSpeedOutput (fun o =>
                      [indent +:+ "const cuspSpeeds = mem.getFloat64Array(" +:+ r_varName o +:+ ", 13);"])
                 ++ optLines ascmcSpeedOutput (fun o =>
                      [indent +:+ "const ascmcSpeeds = mem.getFloat64Array(" +:+ r_varName o +:+ ", 10);"])
                 ++ [indent +:+ "return {";
                     indent +:+ "  cusps: cusps.slice(1),"]
                 ++ ascmcLines indent
                 ++ optLines cuspSpeedOutput (fun _ =>
                      [indent +:+ "  cuspSpeeds: cuspSpeeds.slice(1),"])
                 ++ optLines ascmcSpeedOutput (fun _ =>
                      [indent +:+ "  ascmcSpeeds: Array.from(ascmcSpeeds),"])
                 ++ [indent +:+ "};"])
       | _, _ => None
       end
     else None);
    (if resultIs config "JulianDayResult" then
       match findRead "dret" outputReads with
       | Some dretOutput =>
           Some [indent +:+ "const dret = mem.getFloat64Array(" +:+ r_varName dretOutput +:+ ", 2);";
                 indent +:+ "return { et: dret[0], ut: dret[1] };"]
       | None => None
       end
     else None);
    (if resultIs config "AzimuthAltitude" then
       match findRead "xaz" outputReads with
       | Some xazOutput =>
           Some [indent +:+ "const xaz = mem.getFloat64Array(" +:+ r_varName xazOutput +:+ ", 3);";
                 indent +:+ "return { azimuth: xaz[0], trueAltitude: xaz[1], apparentAltitude: xaz[2] };"]
       | None => None
       end
     else None);
    (if resultIs config "PhenomenaResult" then
       match findRead "attr" outputReads with
       | Some attrOutput =>
           Some [indent +:+ "const attr = mem.getFloat64Array(" +:+ r_varName attrOutput +:+ ", 20);";
                 indent +:+ "return {";
                 indent +:+ "  phaseAngle: attr[0],";
                 indent +:+ "  phase: attr[1],";
                 indent +:+ "  elongation: attr[2],";
                 indent +:+ "  apparentDiameter: attr[3],";
                 indent +:+ "  apparentMagnitude: attr[4],";
                 indent +:+ "};"]
       | None => None
       end
     else None);
    (if resultIs config "NodesApsidesResult" then
       Some [indent +:+ "const xnasc = mem.getFloat64Array(xnascPtr, 6);";
             indent +:+ "const xndsc = mem.getFloat64Array(xndscPtr, 6);";
             indent +:+ "const xperi = mem.getFloat64Array(xperiPtr, 6);";
             indent +:+ "const xaphe = mem.getFloat64Array(xaphePtr, 6);";
             indent +:+ "const toPos = (arr: number[]): PlanetPosition => ({";
             indent +:+ "  longitude: arr[0], latitude: arr[1], distance: arr[2],";
             indent +:+ "  longitudeSpeed: arr[3], latitudeSpeed: arr[4], distanceSpeed: arr[5],";
             indent +:+ "});";
             indent +:+ "return {";
             indent +:+ "  ascendingNode: toPos(Array.from(xnasc)),";
             indent +:+ "  descendingNode: toPos(Array.from(xndsc)),";
             indent +:+ "  perihelion: toPos(Array.from(xperi)),";
             indent +:+ "  aphelion: toPos(Array.from(xaphe)),";
             indent +:+ "};"]
     else None);
    (if resultIs config "OrbitalElements" then
       match findRead "dret" outputReads with
       | Some dretOutput =>
           Some [indent +:+ "return { elements: mem.getFloat64Array(" +:+ r_varName dretOutput +:+ ", 50) };"]
       | None => None
       end
     else None);
    (if resultIs config "EclipseTimeResult" then
       match findRead "tret" outputReads with
       | Some tretOutput =>
           Some ([indent +:+ "const times = mem.getFloat64Array(" +:+ r_varName tretOutput +:+ ", 10);"]
                 ++ match findRead "attr" outputReads with
                    | Some attrOutput =>
                        [indent +:+ "const attributes = mem.getFloat64Array(" +:+ r_varName attrOutput +:+ ", 20);";
                         indent +:+ "return { times: Array.from(times), attributes: Array.from(attributes) };"]
                    | None =>
                        [indent +:+ "return { times: Array.from(times) };"]
                    end)
       | None => None
       end
     else None);
    (if resultIs config "EclipseWhereResult" then
       match findRead "geopos" outputReads, findRead "attr" outputReads with
       | Some geoposOutput, Some attrOutput =>
           Some [indent +:+ "return {";
                 indent +:+ "  geopos: mem.getFloat64Array(" +:+ r_varName geoposOutput +:+ ", 10),";
                 indent +:+ "  attributes: mem.getFloat64Array(" +:+ r_varName attrOutput +:+ ", 20),";
                 indent +:+ "};"]
       | _, _ => None
       end
     else None);
    (if resultIs config "EclipseAttributes" then
       match findRead "attr" outputReads with
       | Some attrOutput =>
           Some [indent +:+ "return { attributes: mem.getFloat64Array(" +:+ r_varName attrOutput +:+ ", 20) };"]
       | None => None
       end
     else None) ].

(** Generic handling of a single output. *)
Definition singleLines (indent : string) (o : OutputRead) : list string :=
  match r_type o with
  | TFloat64 _ => [indent +:+ "return mem.getFloat64(" +:+ r_varName o +:+ ");"]
  | TInt32 _ => [indent +:+ "return mem.getInt32(" +:+ r_varName o +:+ ");"]
  | TString _ => [indent +:+ "return mem.getString(" +:+ r_varName o +:+ ");"]
  | TFloat64Array count _ =>
      [indent +:+ "return mem.getFloat64Array(" +:+ r_varName o +:+ ", " +:+ JS.num count +:+ ");"]
  | TInt32Array count _ =>
      [indent +:+ "const arr: number[] = [];";
       indent +:+ "for (let i = 0; i < " +:+ JS.num count +:+ "; i++) arr.push(mem.getInt32("
              +:+ r_varName o +:+ " + i * 4));";
       indent +:+ "return arr;"]
  | TError _ => []
  end.

(** Generic handling of several outputs: one field per output; an
    [int32[]] output has no case in the source and gets no field. *)
Definition fieldLine (indent : string) (o : OutputRead) : list string :=
  let propName := propName (r_type o) (r_param o) in
  match r_type o with
  | TFloat64 _ => [indent +:+ "  " +:+ propName +:+ ": mem.getFloat64(" +:+ r_varName o +:+ "),"]
  | TInt32 _ => [indent +:+ "  " +:+ propName +:+ ": mem.getInt32(" +:+ r_varName o +:+ "),"]
  | TString _ => [indent +:+ "  " +:+ propName +:+ ": mem.getString(" +:+ r_varName o +:+ "),"]
  | TFloat64Array count _ =>
      [indent +:+ "  " +:+ propName +:+ ": mem.getFloat64Array(" +:+ r_varName o +:+ ", "
              +:+ JS.num count +:+ "),"]
  | TInt32Array _ _ | TError _ => []
  end.

Fixpoint firstSome {A} (l : list (option A)) (dflt : A) : A :=
  match l with
  | [] => dflt
  | Some a :: _ => a
  | None :: l' => firstSome l' dflt
  end.

Definition buildReturnValue (outputReads : list OutputRead)
    (config : FunctionConfig) (returnType : ReturnMode) (indent : string)
  : list string :=
  let nonErrorOutputs := List.filter (fun o => negb (isError (r_type o))) outputReads in
  if isEmpty nonErrorOutputs then
    match returnType with
    | RVoid => []
    | _ => [indent +:+ "return ret;"]
    end
  else
    firstSome (shapeLines outputReads nonErrorOutputs config indent)
      match nonErrorOutputs with
      | [o] => singleLines indent o
      | _ => [indent +:+ "return {"]
             ++ flat_map (fieldLine indent) nonErrorOutputs
             ++ [indent +:+ "};"]
      end.

(** The three arrays filled by the two allocation loops. *)
Record AllocPlan := mkPlan {
  allocations : list string;
  frees : list string;
  outputReads : list OutputRead
}.

Definition planOutput (plan : AllocPlan) (entry : string * OutputType) : AllocPlan :=
  let '(paramName, outputType) := entry in
  let varName := paramName +:+ "Ptr" in
  let size := getOutputSize outputType in
  mkPlan (allocations plan ++ ["const " +:+ varName +:+ " = raw.malloc(" +:+ size +:+ ");"])
         (frees plan ++ ["raw.free(" +:+ varName +:+ ");"])
         (outputReads plan ++ [mkRead paramName outputType varName]).

Definition planInputString (plan : AllocPlan) (paramName : string) : AllocPlan :=
  let varName := paramName +:+ "Ptr" in
  mkPlan (allocations plan
          ++ ["const " +:+ varName +:+ " = mem.allocString(" +:+ paramName +:+ ");"])
         (frees plan ++ ["raw.free(" +:+ varName +:+ ");"])
         (outputReads plan).

Definition allocPlan (outputs : list (string * OutputType))
    (inputStrings : list string) : AllocPlan :=
  foldl planInputString (foldl planOutput (mkPlan [] [] []) outputs) inputStrings.

Definition hsysCode : string :=
  "(typeof hsys === " +:+ Wrapper.quote +:+ "string" +:+ Wrapper.quote
  +:+ " ? hsys.charCodeAt(0) : hsys)".

Definition callArg (outputs : list (string * OutputType))
    (inputStrings : list string) (p : FunctionParam) : string :=
  if hasOutput outputs (p_name p) then p_name p +:+ "Ptr"
  else if isInputString inputStrings (p_name p) then p_name p +:+ "Ptr"
  else if String.eqb (p_name p) "hsys" then hsysCode
  else p_name p.

Definition generateWrapperFunction (fn : FunctionDecl) (config : FunctionConfig)
  : list string :=
  let friendlyName := friendlyNameOf fn config in
  let outputs := outputsOf config in
  let inputStrings := inputStringsOf config in
  let returnType := returnTypeOf config in
  let inputParams :=
    List.filter (fun p => negb (hasOutput outputs (p_name p))) (fd_params fn) in
  let signature := buildSignature inputParams inputStrings config returnType outputs in
  let plan := allocPlan outputs inputStrings in
  let hasAllocs := negb (isEmpty (allocations plan)) in
  let callArgs := JS.join ", " (map (callArg outputs inputStrings) (fd_params fn)) in
  let indent := if hasAllocs then "    " else "  " in
  (match cfg_description config with
   | Some d => if String.eqb d "" then [] else ["/** " +:+ d +:+ " */"]
   | None => []
   end)
  ++ [friendlyName +:+ ": " +:+ signature +:+ " => {"]
  ++ map (fun alloc => "  " +:+ alloc) (allocations plan)
  ++ (if hasAllocs then ["  try {"] else [])
  ++ [match returnType with
      | RVoid => indent +:+ "raw." +:+ fd_name fn +:+ "(" +:+ callArgs +:+ ");"
      | _ => indent +:+ "const ret = raw." +:+ fd_name fn +:+ "(" +:+ callArgs +:+ ");"
      end]
  ++ (match returnType with
      | RCheckNegative | RCheckError =>
          match List.find (fun o => isError (r_type o)) (outputReads plan) with
          | Some errorRead =>
              [indent +:+ "if (ret < 0) {";
               indent +:+ "  const errMsg = mem.getString(" +:+ r_varName errorRead +:+ ");";
               indent +:+ "  throw new Error(errMsg || " +:+ Wrapper.quote +:+ Wrapper.fallbackMessage
                      +:+ Wrapper.quote +:+ ");";
               indent +:+ "}"]
          | None => []
          end
      | _ => []
      end)
  ++ buildReturnValue (outputReads plan) config returnType indent
  ++ (if hasAllocs
      then ["  } finally {"] ++ map (fun free => "    " +:+ free) (frees plan) ++ ["  }"]
      else [])
  ++ ["},"].

(** *** The same synthesis, producing the program instead of its text *)

Import Wrapper.

Definition outputSize (t : OutputType) : sizeExpr :=
  match t with
  | TFloat64 _ => SzLit 8
  | TFloat64Array count _ => SzMul count 8
  | TInt32 _ => SzLit 4
  | TInt32Array count _ => SzMul count 4
  | TString size | TError size => SzLit size
  end.

Definition componentFields (nonErrorOutputs : list OutputRead)
  : list (string * expr * string) :=
  map (fun o => (propName (r_type o) (r_param o),
                 if String.eqb (tag (r_type o)) "int32"
                 then EGetInt32 (r_varName o) else EGetFloat64 (r_varName o),
                 ""))
      nonErrorOutputs.

Definition ascmcFields : list (string * expr * string) :=
  [("ascendant", EIndex "ascmc" 0, "");
   ("mc", EIndex "ascmc" 1, "");
   ("armc", EIndex "ascmc" 2, "");
   ("vertex", EIndex "ascmc" 3, "");
   ("equatorialAscendant", EIndex "ascmc" 4, "");
   ("coAscendantKoch", EIndex "ascmc" 5, "");
   ("coAscendantMunkasey", EIndex "ascmc" 6, "");
   ("polarAscendant", EIndex "ascmc" 7, "")].

Definition optList {A B} (o : option A) (f : A -> list B) : list B :=
  match o with Some a => f a | None => [] end.

Definition shapeStmts (outputReads nonErrorOutputs : list OutputRead)
    (config : FunctionConfig) : list (option (list stmt)) :=
  [ (if resultIs config "PlanetPosition" then
       match List.find (fun o => String.eqb (r_param o) "xx"
                                 || String.eqb (r_param o) "xxret") outputReads with
       | Some xxOutput =>
           Some [SConst "xx" (EGetFloat64Array (r_varName xxOutput) 6);
                 SReturnObject
                   [("longitude", EIndex "xx" 0, "");
                    ("latitude", EIndex "xx" 1, "");
                    ("distance", EIndex "xx" 2, "");
                    ("longitudeSpeed", EIndex "xx" 3, "");
                    ("latitudeSpeed", EIndex "xx" 4, "");
                    ("distanceSpeed", EIndex "xx" 5, "")]]
       | None => None
       end
     else None);
    (if resultIs config "DateComponents"
     then Some [SReturnObject (componentFields nonErrorOutputs)] else None);
    (if resultIs config "UtcComponents"
     then Some [SReturnObject (componentFields nonErrorOutputs)] else None);
    (if resultIs config "SplitDegrees"
     then Some [SReturnObject (componentFields nonErrorOutputs)] else None);
    (if resultIs config "HouseResult" then
       match findRead "cusps" outputReads, findRead "ascmc" outputReads with
       | Some cuspsOutput, Some ascmcOutput =>
           Some [SConst "cusps" (EGetFloat64Array (r_varName cuspsOutput) 13);
                 SConst "ascmc" (EGetFloat64Array (r_varName ascmcOutput) 10);
                 SReturnObject
                   (("cusps", ESlice1 "cusps", " // cusps[0] is unused")
                    :: ascmcFields)]
       | _, _ => None
       end
     else None);
    (if resultIs config "HouseResultWithSpeed" then
       let cuspSpeedOutput := findRead "cusp_speed" outputReads in
       let ascmcSpeedOutput := findRead "ascmc_speed" outputReads in
       match findRead "cusps" outputReads, findRead "ascmc" outputReads with
       | Some cuspsOutput, Some ascmcOutput =>
           Some ([SConst "cusps" (EGetFloat64Array (r_varName cuspsOutput) 13);
                  SConst "ascmc" (EGetFloat64Array (r_varName ascmcOutput) 10)]
                 ++ optList cuspSpeedOutput (fun o =>
                      [SConst "cuspSpeeds" (EGetFloat64Array (r_varName o) 13)])
                 ++ optList ascmcSpeedOutput (fun o =>
                      [SConst "ascmcSpeeds" (EGetFloat64Array (r_varName o) 10)])
                 ++ [SReturnObject
                       ([("cusps", ESlice1 "cusps", "")]
                        ++ ascmcFields
                        ++ optList cuspSpeedOutput (fun _ =>
                             [("cuspSpeeds", ESlice1 "cuspSpeeds", "")])
                        ++ optList ascmcSpeedOutput (fun _ =>
                             [("ascmcSpeeds", EArrayFrom "ascmcSpeeds", "")]))])
       | _, _ => None
       end
     else None);
    (if resultIs config "JulianDayResult" then
       match findRead "dret" outputReads with
       | Some dretOutput =>
           Some [SConst "dret" (EGetFloat64Array (r_varName dretOutput) 2);
                 SReturnInline [("et", EIndex "dret" 0); ("ut", EIndex "dret" 1)]]
       | None => None
       end
     else None);
    (if resultIs config "AzimuthAltitude" then
       match findRead "xaz" outputReads with
       | Some xazOutput =>
           Some [SConst "xaz" (EGetFloat64Array (r_varName xazOutput) 3);
                 SReturnInline [("azimuth", EIndex "xaz" 0);
                                ("trueAltitude", EIndex "xaz" 1);
                                ("apparentAltitude", EIndex "xaz" 2)]]
       | None => None
       end
     else None);
    (if resultIs config "PhenomenaResult" then
       match findRead "attr" outputReads with
       | Some attrOutput =>
           Some [SConst "attr" (EGetFloat64Array (r_varName attrOutput) 20);
                 SReturnObject
                   [("phaseAngle", EIndex "attr" 0, "");
                    ("phase", EIndex "attr" 1, "");
                    ("elongation", EIndex "attr" 2, "");
                    ("apparentDiameter", EIndex "attr" 3, "");
                    ("apparentMagnitude", EIndex "attr" 4, "")]]
       | None => None
       end
     else None);
    (if resultIs config "NodesApsidesResult" then
       Some [SConst "xnasc" (EGetFloat64Array "xnascPtr" 6);
             SConst "xndsc" (EGetFloat64Array "xndscPtr" 6);
             SConst "xperi" (EGetFloat64Array "xperiPtr" 6);
             SConst "xaphe" (EGetFloat64Array "xaphePtr" 6);
             SDefToPos;
             SReturnObject
               [("ascendingNode", EToPos "xnasc", "");
                ("descendingNode", EToPos "xndsc", "");
                ("perihelion", EToPos "xperi", "");
                ("aphelion", EToPos "xaphe", "")]]
     else None);
    (if resultIs config "OrbitalElements" then
       match findRead "dret" outputReads with
       | Some dretOutput =>
           Some [SReturnInline
                   [("elements", EGetFloat64Array (r_varName dretOutput) 50)]]
       | None => None
       end
     else None);
    (if resultIs config "EclipseTimeResult" then
       match findRead "tret" outputReads with
       | Some tretOutput =>
           Some ([SConst "times" (EGetFloat64Array (r_varName tretOutput) 10)]
                 ++ match findRead "attr" outputReads with
                    | Some attrOutput =>
                        [SConst "attributes" (EGetFloat64Array (r_varName attrOutput) 20);
                         SReturnInline [("times", EArrayFrom "times");
                                        ("attributes", EArrayFrom "attributes")]]
                    | None =>
                        [SReturnInline [("times", EArrayFrom "times")]]
                    end)
       | None => None
       end
     else None);
    (if resultIs config "EclipseWhereResult" then
       match findRead "geopos" outputReads, findRead "attr" outputReads with
       | Some geoposOutput, Some attrOutput =>
           Some [SReturnObject
                   [("geopos", EGetFloat64Array (r_varName geoposOutput) 10, "");
                    ("attributes", EGetFloat64Array (r_varName attrOutput) 20, "")]]
       | _, _ => None
       end
     else None);
    (if resultIs config "EclipseAttributes" then
       match findRead "attr" outputReads with
       | Some attrOutput =>
           Some [SReturnInline
                   [("attributes", EGetFloat64Array (r_varName attrOutput) 20)]]
       | None => None
       end
     else None) ].

Definition singleStmts (o : OutputRead) : list stmt :=
  match r_type o with
  | TFloat64 _ => [SReturn (EGetFloat64 (r_varName o))]
  | TInt32 _ => [SReturn (EGetInt32 (r_varName o))]
  | TString _ => [SReturn (EGetString (r_varName o))]
  | TFloat64Array count _ => [SReturn (EGetFloat64Array (r_varName o) count)]
  | TInt32Array count _ => [SInt32Array (r_varName o) count; SReturn (EVar "arr")]
  | TError _ => []
  end.

Definition fieldOf (o : OutputRead) : list (string * expr * string) :=
  let propName := propName (r_type o) (r_param o) in
  match r_type o with
  | TFloat64 _ => [(propName, EGetFloat64 (r_varName o), "")]
  | TInt32 _ => [(propName, EGetInt32 (r_varName o), "")]
  | TString _ => [(propName, EGetString (r_varName o), "")]
  | TFloat64Array count _ => [(propName, EGetFloat64Array (r_varName o) count, "")]
  | TInt32Array _ _ | TError _ => []
  end.

Definition buildReturnStmts (outputReads : list OutputRead)
    (config : FunctionConfig) (returnType : ReturnMode) : list stmt :=
  let nonErrorOutputs := List.filter (fun o => negb (isError (r_type o))) outputReads in
  if isEmpty nonErrorOutputs then
    match returnType with
    | RVoid => []
    | _ => [SReturn (EVar "ret")]
    end
  else
    firstSome (shapeStmts outputReads nonErrorOutputs config)
      match nonErrorOutputs with
      | [o] => singleStmts o
      | _ => [SReturnObject (flat_map fieldOf nonErrorOutputs)]
      end.

(** The allocation loops, collecting statements. *)
Record AllocStmts := mkAllocStmts {
  allocStmts : list stmt;
  freeStmts : list stmt;
  reads : list OutputRead
}.

Definition stmtsOutput (plan : AllocStmts) (entry : string * OutputType) : AllocStmts :=
  let '(paramName, outputType) := entry in
  let varName := paramName +:+ "Ptr" in
  mkAllocStmts (allocStmts plan ++ [SMalloc varName (outputSize outputType)])
               (freeStmts plan ++ [SFree varName])
               (reads plan ++ [mkRead paramName outputType varName]).

Definition stmtsInputString (plan : AllocStmts) (paramName : string) : AllocStmts :=
  let varName := paramName +:+ "Ptr" in
  mkAllocStmts (allocStmts plan ++ [SAllocString varName paramName])
               (freeStmts plan ++ [SFree varName])
               (reads plan).

Definition allocProgram (outputs : list (string * OutputType))
    (inputStrings : list string) : AllocStmts :=
  foldl stmtsInputString (foldl stmtsOutput (mkAllocStmts [] [] []) outputs)
        inputStrings.

Definition callArgOf (outputs : list (string * OutputType))
    (inputStrings : list string) (p : FunctionParam) : arg :=
  if hasOutput outputs (p_name p) then AVar (p_name p +:+ "Ptr")
  else if isInputString inputStrings (p_name p) then AVar (p_name p +:+ "Ptr")
  else if String.eqb (p_name p) "hsys" then AHsys
  else AVar (p_name p).

Definition wrapperProgram (fn : FunctionDecl) (config : FunctionConfig) : program :=
  let friendlyName := friendlyNameOf fn config in
  let outputs := outputsOf config in
  let inputStrings := inputStringsOf config in
  let returnType := returnTypeOf config in
  let inputParams :=
    List.filter (fun p => negb (hasOutput outputs (p_name p))) (fd_params fn) in
  let signature := buildSignature inputParams inputStrings config returnType outputs in
  let plan := allocProgram outputs inputStrings in
  {| prog_head :=
       (match cfg_description config with
        | Some d => if String.eqb d "" then [] else ["/** " +:+ d +:+ " */"]
        | None => []
        end)
       ++ [friendlyName +:+ ": " +:+ signature +:+ " => {"];
     prog_params := map p_name inputParams;
     prog_allocs := allocStmts plan;
     prog_guarded := negb (isEmpty (allocStmts plan));
     prog_body :=
       [SCall (match returnType with RVoid => false | _ => true end)
              (fd_name fn) (map (callArgOf outputs inputStrings) (fd_params fn))]
       ++ (match returnType with
           | RCheckNegative | RCheckError =>
               match List.find (fun o => isError (r_type o)) (reads plan) with
               | Some errorRead => [SCheckNegative (r_varName errorRead)]
               | None => []
               end
           | _ => []
           end)
       ++ buildReturnStmts (reads plan) config returnType;
     prog_frees := freeStmts plan |}.

End Synth.
(** ** The routine configuration table (function-config.ts) *)

Definition functionConfig : list (string * FunctionConfig) :=
[
  ("swe_calc",
     {| cfg_friendlyName := Some "calcEt";
        cfg_outputs := Some
           [("xx", TFloat64Array 6 None);
            ("serr", TError 256)];
        cfg_inputStrings := None;
        cfg_returnType := Some RCheckNegative;
        cfg_skip := None;
        cfg_description := Some "Calculate planet position (ET time)";
        cfg_resultType := Some "PlanetPosition" |});
  ("swe_calc_ut",
     {| cfg_friendlyName := Some "calc";
        cfg_outputs := Some
           [("xx", TFloat64Array 6 None);
            ("serr", TError 256)];
        cfg_inputStrings := None;
        cfg_returnType := Some RCheckNegative;
        cfg_skip := None;
        cfg_description := Some "Calculate planet position (UT time)";
        cfg_resultType := Some "PlanetPosition" |});
  ("swe_calc_pctr",
     {| cfg_friendlyName := Some "calcPlanetocentric";
        cfg_outputs := Some
           [("xxret", TFloat64Array 6 None);
            ("serr", TError 256)];
        cfg_inputStrings := None;
        cfg_returnType := Some RCheckNegative;
        cfg_skip := None;
        cfg_description := Some "Calculate position relative to another planet";
        cfg_resultType := Some "PlanetPosition" |});
  ("swe_solcross",
     {| cfg_friendlyName := Some "solarCrossingEt";
        cfg_outputs := Some
           [("serr", TError 256)];
        cfg_inputStrings := None;
        cfg_returnType := Some RNumber;
        cfg_skip := None;
        cfg_description := Some "Find when Sun crosses a longitude (ET)";
        cfg_resultType := None |});
  ("swe_solcross_ut",
     {| cfg_friendlyName := Some "solarCrossing";
        cfg_outputs := Some
           [("serr", TError 256)];
        cfg_inputStrings := None;
        cfg_returnType := Some RNumber;
        cfg_skip := None;
        cfg_description := Some "Find when Sun crosses a longitude (UT)";
        cfg_resultType := None |});
  ("swe_mooncross",
     {| cfg_friendlyName := Some "moonCrossingEt";
        cfg_outputs := Some
           [("serr", TError 256)];
        cfg_inputStrings := None;
        cfg_returnType := Some RNumber;
        cfg_skip := None;
        cfg_description := Some "Find when Moon crosses a longitude (ET)";
        cfg_resultType := None |});
  ("swe_mooncross_ut",
     {| cfg_friendlyName := Some "moonCrossing";
        cfg_outputs := Some
           [("serr", TError 256)];
        cfg_inputStrings := None;
        cfg_returnType := Some RNumber;
        cfg_skip := None;
        cfg_description := Some "Find when Moon crosses a longitude (UT)";
        cfg_resultType := None |});
  ("swe_mooncross_node",
     {| cfg_friendlyName := Some "moonNodeCrossingEt";
        cfg_outputs := Some
           [("xlon", TFloat64 None);
            ("xlat", TFloat64 None);
            ("serr", TError 256)];
        cfg_inputStrings := None;
        cfg_returnType := Some RNumber;
        cfg_skip := None;
        cfg_description := Some "Find when Moon crosses its node (ET)";
        cfg_resultType := None |});
  ("swe_mooncross_node_ut",
     {| cfg_friendlyName := Some "moonNodeCrossing";
        cfg_outputs := Some
           [("xlon", TFloat64 None);
            ("xlat", TFloat64 None);
            ("serr", TError 256)];
        cfg_inputStrings := None;
        cfg_returnType := Some RNumber;
        cfg_skip := None;
        cfg_description := Some "Find when Moon crosses its node (UT)";
        cfg_resultType := None |});
  ("swe_helio_cross",
     {| cfg_friendlyName := Some "helioCrossingEt";
        cfg_outputs := Some
           [("jd_cross", TFloat64 None);
            ("serr", TError 256)];
        cfg_inputStrings := None;
        cfg_returnType := Some RCheckNegative;
        cfg_skip := None;
        cfg_description := Some "Find heliocentric crossing (ET)";
        cfg_resultType := None |});
  ("swe_helio_cross_ut",
     {| cfg_friendlyName := Some "helioCrossing";
        cfg_outputs := Some
           [("jd_cross", TFloat64 None);
            ("serr", TError 256)];
        cfg_inputStrings := None;
        cfg_returnType := Some RCheckNegative;
        cfg_skip := None;
        cfg_description := Some "Find heliocentric crossing (UT)";
        cfg_resultType := None |});
  ("swe_pheno",
     {| cfg_friendlyName := Some "phenomenaEt";
        cfg_outputs := Some
           [("attr", TFloat64Array 20 None);
            ("serr", TError 256)];
        cfg_inputStrings := None;
        cfg_returnType := Some RCheckNegative;
        cfg_skip := None;
        cfg_description := Some "Calculate planetary phenomena (ET)";
        cfg_resultType := Some "PhenomenaResult" |});
  ("swe_pheno_ut",
     {| cfg_friendlyName := Some "phenomena";
        cfg_outputs := Some
           [("attr", TFloat64Array 20 None);
            ("serr", TError 256)];
        cfg_inputStrings := None;
        cfg_returnType := Some RCheckNegative;
        cfg_skip := None;
        cfg_description := Some "Calculate planetary phenomena (UT)";
        cfg_resultType := Some "PhenomenaResult" |});
  ("swe_nod_aps",
     {| cfg_friendlyName := Some "nodesApsidesEt";
        cfg_outputs := Some
           [("xnasc", TFloat64Array 6 None);
            ("xndsc", TFloat64Array 6 None);
            ("xperi", TFloat64Array 6 None);
            ("xaphe", TFloat64Array 6 None);
            ("serr", TError 256)];
        cfg_inputStrings := None;
        cfg_returnType := Some RCheckNegative;
        cfg_skip := None;
        cfg_description := Some "Calculate nodes and apsides (ET)";
        cfg_resultType := Some "NodesApsidesResult" |});
  ("swe_nod_aps_ut",
     {| cfg_friendlyName := Some "nodesApsides";
        cfg_outputs := Some
           [("xnasc", TFloat64Array 6 None);
            ("xndsc", TFloat64Array 6 None);
            ("xperi", TFloat64Array 6 None);
            ("xaphe", TFloat64Array 6 None);
            ("serr", TError 256)];
        cfg_inputStrings := None;
        cfg_returnType := Some RCheckNegative;
        cfg_skip := None;
        cfg_description := Some "Calculate nodes and apsides (UT)";
        cfg_resultType := Some "NodesApsidesResult" |});
  ("swe_get_orbital_elements",
     {| cfg_friendlyName := Some "orbitalElements";
        cfg_outputs := Some
           [("dret", TFloat64Array 50 None);
            ("serr", TError 256)];
        cfg_inputStrings := None;
        cfg_returnType := Some RCheckNegative;
        cfg_skip := None;
        cfg_description := Some "Get orbital elements of a planet";
        cfg_resultType := Some "OrbitalElements" |});
  ("swe_orbit_max_min_true_distance",
     {| cfg_friendlyName := Some "orbitDistanceExtremes";
        cfg_outputs := Some
           [("dmax", TFloat64 None);
            ("dmin", TFloat64 None);
            ("dtrue", TFloat64 None);
            ("serr", TError 256)];
        cfg_inputStrings := None;
        cfg_returnType := Some RCheckNegative;
        cfg_skip := None;
        cfg_description := Some "Get max/min true distance of orbit";
        cfg_resultType := None |});
  ("swe_heliacal_pheno_ut",
     {| cfg_friendlyName := Some "heliacalPhenomena";
        cfg_outputs := Some
           [("darr", TFloat64Array 50 None);
            ("serr", TError 256)];
        cfg_inputStrings := Some ["ObjectName"];
        cfg_returnType := Some RCheckNegative;
        cfg_skip := None;
        cfg_description := Some "Calculate heliacal phenomena";
        cfg_resultType := None |});
  ("swe_fixstar",
     {| cfg_friendlyName := Some "fixedStarEt";
        cfg_outputs := Some
           [("xx", TFloat64Array 6 None);
            ("serr", TError 256)];
        cfg_inputStrings := Some ["star"];
        cfg_returnType := Some RCheckNegative;
        cfg_skip := None;
        cfg_description := Some "Calculate fixed star position (ET)";
        cfg_resultType := Some "PlanetPosition" |});
  ("swe_fixstar_ut",
     {| cfg_friendlyName := Some "fixedStar";
        cfg_outputs := Some
           [("xx", TFloat64Array 6 None);
            ("serr", TError 256)];
        cfg_inputStrings := Some ["star"];
        cfg_returnType := Some RCheckNegative;
        cfg_skip := None;
        cfg_description := Some "Calculate fixed star position (UT)";
        cfg_resultType := Some "PlanetPosition" |});
  ("swe_fixstar_mag",
     {| cfg_friendlyName := Some "fixedStarMagnitude";
        cfg_outputs := Some
           [("mag", TFloat64 None);
            ("serr", TError 256)];
        cfg_inputStrings := Some ["star"];
        cfg_returnType := Some RCheckNegative;
        cfg_skip := None;
        cfg_description := Some "Get fixed star magnitude";
        cfg_resultType := None |});
  ("swe_fixstar2",
     {| cfg_friendlyName := Some "fixedStar2Et";
        cfg_outputs := Some
           [("xx", TFloat64Array 6 None);
            ("serr", TError 256)];
        cfg_inputStrings := Some ["star"];
        cfg_returnType := Some RCheckNegative;
        cfg_skip := None;
        cfg_description := Some "Calculate fixed star position v2 (ET)";
        cfg_resultType := Some "PlanetPosition" |});
  ("swe_fixstar2_ut",
     {| cfg_friendlyName := Some "fixedStar2";
        cfg_outputs := Some
           [("xx", TFloat64Array 6 None);
            ("serr", TError 256)];
        cfg_inputStrings := Some ["star"];
        cfg_returnType := Some RCheckNegative;
        cfg_skip := None;
        cfg_description := Some "Calculate fixed star position v2 (UT)";
        cfg_resultType := Some "PlanetPosition" |});
  ("swe_fixstar2_mag",
     {| cfg_friendlyName := Some "fixedStar2Magnitude";
        cfg_outputs := Some
           [("mag", TFloat64 None);
            ("serr", TError 256)];
        cfg_inputStrings := Some ["star"];
        cfg_returnType := Some RCheckNegative;
        cfg_skip := None;
        cfg_description := Some "Get fixed star magnitude v2";
        cfg_resultType := None |});
  ("swe_julday",
     {| cfg_friendlyName := Some "julday";
        cfg_outputs := None;
        cfg_inputStrings := None;
        cfg_returnType := Some RNumber;
        cfg_skip := None;
        cfg_description := Some "Convert date to Julian Day";
        cfg_resultType := None |});
  ("swe_revjul",
     {| cfg_friendlyName := Some "revjul";
        cfg_outputs := Some
           [("jyear", TInt32 (Some "year"));
            ("jmon", TInt32 (Some "month"));
            ("jday", TInt32 (Some "day"));
            ("jut", TFloat64 (Some "hour"))];
        cfg_inputStrings := None;
        cfg_returnType := Some RVoid;
        cfg_skip := None;
        cfg_description := Some "Convert Julian Day to date components";
        cfg_resultType := Some "DateComponents" |});
  ("swe_date_conversion",
     {| cfg_friendlyName := Some "dateConversion";
        cfg_outputs := Some
           [("tjd", TFloat64 None)];
        cfg_inputStrings := None;
        cfg_returnType := Some RCheckNegative;
        cfg_skip := None;
        cfg_description := Some "Convert date with calendar check";
        cfg_resultType := None |});
  ("swe_utc_to_jd",
     {| cfg_friendlyName := Some "utcToJd";
        cfg_outputs := Some
           [("dret", TFloat64Array 2 None);
            ("serr", TError 256)];
        cfg_inputStrings := None;
        cfg_returnType := Some RCheckNegative;
        cfg_skip := None;
        cfg_description := Some "Convert UTC to Julian Day";
        cfg_resultType := Some "JulianDayResult" |});
  ("swe_jdet_to_utc",
     {| cfg_friendlyName := Some "jdEtToUtc";
        cfg_outputs := Some
           [("iyear", TInt32 (Some "year"));
            ("imonth", TInt32 (Some "month"));
            ("iday", TInt32 (Some "day"));
            ("ihour", TInt32 (Some "hour"));
            ("imin", TInt32 (Some "minute"));
            ("dsec", TFloat64 (Some "second"))];
        cfg_inputStrings := None;
        cfg_returnType := Some RVoid;
        cfg_skip := None;
        cfg_description := Some "Convert Julian Day ET to UTC";
        cfg_resultType := Some "UtcComponents" |});
  ("swe_jdut1_to_utc",
     {| cfg_friendlyName := Some "jdUt1ToUtc";
        cfg_outputs := Some
           [("iyear", TInt32 (Some "year"));
            ("imonth", TInt32 (Some "month"));
            ("iday", TInt32 (Some "day"));
            ("ihour", TInt32 (Some "hour"));
            ("imin", TInt32 (Some "minute"));
            ("dsec", TFloat64 (Some "second"))];
        cfg_inputStrings := None;
        cfg_returnType := Some RVoid;
        cfg_skip := None;
        cfg_description := Some "Convert Julian Day UT1 to UTC";
        cfg_resultType := Some "UtcComponents" |});
  ("swe_utc_time_zone",
     {| cfg_friendlyName := Some "utcTimeZone";
        cfg_outputs := Some
           [("iyear_out", TInt32 (Some "year"));
            ("imonth_out", TInt32 (Some "month"));
            ("iday_out", TInt32 (Some "day"));
            ("ihour_out", TInt32 (Some "hour"));
            ("imin_out", TInt32 (Some "minute"));
            ("dsec_out", TFloat64 (Some "second"))];
        cfg_inputStrings := None;
        cfg_returnType := Some RVoid;
        cfg_skip := None;
        cfg_description := Some "Convert between timezones";
        cfg_resultType := Some "UtcComponents" |});
  ("swe_houses",
     {| cfg_friendlyName := Some "housesSimple";
        cfg_outputs := Some
           [("cusps", TFloat64Array 13 None);
            ("ascmc", TFloat64Array 10 None)];
        cfg_inputStrings := None;
        cfg_returnType := Some RNumber;
        cfg_skip := None;
        cfg_description := Some "Calculate house cusps (simple)";
        cfg_resultType := Some "HouseResult" |});
  ("swe_houses_ex",
     {| cfg_friendlyName := Some "houses";
        cfg_outputs := Some
           [("cusps", TFloat64Array 13 None);
            ("ascmc", TFloat64Array 10 None)];
        cfg_inputStrings := None;
        cfg_returnType := Some RNumber;
        cfg_skip := None;
        cfg_description := Some "Calculate house cusps (extended)";
        cfg_resultType := Some "HouseResult" |});
  ("swe_houses_ex2",
     {| cfg_friendlyName := Some "housesWithSpeed";
        cfg_outputs := Some
           [("cusps", TFloat64Array 13 None);
            ("ascmc", TFloat64Array 10 None);
            ("cusp_speed", TFloat64Array 13 None);
            ("ascmc_speed", TFloat64Array 10 None);
            ("serr", TError 256)];
        cfg_inputStrings := None;
        cfg_returnType := Some RNumber;
        cfg_skip := None;
        cfg_description := Some "Calculate house cusps with speeds";
        cfg_resultType := Some "HouseResultWithSpeed" |});
  ("swe_houses_armc",
     {| cfg_friendlyName := Some "housesArmc";
        cfg_outputs := Some
           [("cusps", TFloat64Array 13 None);
            ("ascmc", TFloat64Array 10 None)];
        cfg_inputStrings := None;
        cfg_returnType := Some RNumber;
        cfg_skip := None;
        cfg_description := Some "Calculate houses from ARMC";
        cfg_resultType := Some "HouseResult" |});
  ("swe_houses_armc_ex2",
     {| cfg_friendlyName := Some "housesArmcWithSpeed";
        cfg_outputs := Some
           [("cusps", TFloat64Array 13 None);
            ("ascmc", TFloat64Array 10 None);
            ("cusp_speed", TFloat64Array 13 None);
            ("ascmc_speed", TFloat64Array 10 None);
            ("serr", TError 256)];
        cfg_inputStrings := None;
        cfg_returnType := Some RNumber;
        cfg_skip := None;
        cfg_description := Some "Calculate houses from ARMC with speeds";
        cfg_resultType := Some "HouseResultWithSpeed" |});
  ("swe_house_pos",
     {| cfg_friendlyName := Some "housePosition";
        cfg_outputs := Some
           [("serr", TError 256)];
        cfg_inputStrings := None;
        cfg_returnType := Some RNumber;
        cfg_skip := None;
        cfg_description := Some "Calculate house position of a planet";
        cfg_resultType := None |});
  ("swe_gauquelin_sector",
     {| cfg_friendlyName := Some "gauquelinSector";
        cfg_outputs := Some
           [("dgsect", TFloat64 None);
            ("serr", TError 256)];
        cfg_inputStrings := Some ["starname"];
        cfg_returnType := Some RCheckNegative;
        cfg_skip := None;
        cfg_description := Some "Calculate Gauquelin sector";
        cfg_resultType := None |});
  ("swe_sol_eclipse_where",
     {| cfg_friendlyName := Some "solarEclipseWhere";
        cfg_outputs := Some
           [("geopos", TFloat64Array 10 None);
            ("attr", TFloat64Array 20 None);
            ("serr", TError 256)];
        cfg_inputStrings := None;
        cfg_returnType := Some RCheckNegative;
        cfg_skip := None;
        cfg_description := Some "Find where solar eclipse is central";
        cfg_resultType := Some "EclipseWhereResult" |});
  ("swe_sol_eclipse_how",
     {| cfg_friendlyName := Some "solarEclipseHow";
        cfg_outputs := Some
           [("attr", TFloat64Array 20 None);
            ("serr", TError 256)];
        cfg_inputStrings := None;
        cfg_returnType := Some RCheckNegative;
        cfg_skip := None;
        cfg_description := Some "Calculate solar eclipse attributes";
        cfg_resultType := Some "EclipseAttributes" |});
  ("swe_sol_eclipse_when_loc",
     {| cfg_friendlyName := Some "solarEclipseWhenLocal";
        cfg_outputs := Some
           [("tret", TFloat64Array 10 None);
            ("attr", TFloat64Array 20 None);
            ("serr", TError 256)];
        cfg_inputStrings := None;
        cfg_returnType := Some RCheckNegative;
        cfg_skip := None;
        cfg_description := Some "Find next solar eclipse at location";
        cfg_resultType := Some "EclipseTimeResult" |});
  ("swe_sol_eclipse_when_glob",
     {| cfg_friendlyName := Some "solarEclipseWhenGlobal";
        cfg_outputs := Some
           [("tret", TFloat64Array 10 None);
            ("serr", TError 256)];
        cfg_inputStrings := None;
        cfg_returnType := Some RCheckNegative;
        cfg_skip := None;
        cfg_description := Some "Find next solar eclipse globally";
        cfg_resultType := Some "EclipseTimeResult" |});
  ("swe_lun_occult_where",
     {| cfg_friendlyName := Some "lunarOccultationWhere";
        cfg_outputs := Some
           [("geopos", TFloat64Array 10 None);
            ("attr", TFloat64Array 20 None);
            ("serr", TError 256)];
        cfg_inputStrings := Some ["starname"];
        cfg_returnType := Some RCheckNegative;
        cfg_skip := None;
        cfg_description := Some "Find where lunar occultation is central";
        cfg_resultType := Some "EclipseWhereResult" |});
  ("swe_lun_occult_when_loc",
     {| cfg_friendlyName := Some "lunarOccultationWhenLocal";
        cfg_outputs := Some
           [("tret", TFloat64Array 10 None);
            ("attr", TFloat64Array 20 None);
            ("serr", TError 256)];
        cfg_inputStrings := Some ["starname"];
        cfg_returnType := Some RCheckNegative;
        cfg_skip := None;
        cfg_description := Some "Find next lunar occultation at location";
        cfg_resultType := Some "EclipseTimeResult" |});
  ("swe_lun_occult_when_glob",
     {| cfg_friendlyName := Some "lunarOccultationWhenGlobal";
        cfg_outputs := Some
           [("tret", TFloat64Array 10 None);
            ("serr", TError 256)];
        cfg_inputStrings := Some ["starname"];
        cfg_returnType := Some RCheckNegative;
        cfg_skip := None;
        cfg_description := Some "Find next lunar occultation globally";
        cfg_resultType := Some "EclipseTimeResult" |});
  ("swe_lun_eclipse_how",
     {| cfg_friendlyName := Some "lunarEclipseHow";
        cfg_outputs := Some
           [("attr", TFloat64Array 20 None);
            ("serr", TError 256)];
        cfg_inputStrings := None;
        cfg_returnType := Some RCheckNegative;
        cfg_skip := None;
        cfg_description := Some "Calculate lunar eclipse attributes";
        cfg_resultType := Some "EclipseAttributes" |});
  ("swe_lun_eclipse_when",
     {| cfg_friendlyName := Some "lunarEclipseWhen";
        cfg_outputs := Some
           [("tret", TFloat64Array 10 None);
            ("serr", TError 256)];
        cfg_inputStrings := None;
        cfg_returnType := Some RCheckNegative;
        cfg_skip := None;
        cfg_description := Some "Find next lunar eclipse";
        cfg_resultType := Some "EclipseTimeResult" |});
  ("swe_lun_eclipse_when_loc",
     {| cfg_friendlyName := Some "lunarEclipseWhenLocal";
        cfg_outputs := Some
           [("tret", TFloat64Array 10 None);
            ("attr", TFloat64Array 20 None);
            ("serr", TError 256)];
        cfg_inputStrings := None;
        cfg_returnType := Some RCheckNegative;
        cfg_skip := None;
        cfg_description := Some "Find next lunar eclipse at location";
        cfg_resultType := Some "EclipseTimeResult" |});
  ("swe_rise_trans",
     {| cfg_friendlyName := Some "riseTransit";
        cfg_outputs := Some
           [("tret", TFloat64 None);
            ("serr", TError 256)];
        cfg_inputStrings := Some ["starname"];
        cfg_returnType := Some RCheckNegative;
        cfg_skip := None;
        cfg_description := Some "Calculate rise, transit, set times";
        cfg_resultType := None |});
  ("swe_rise_trans_true_hor",
     {| cfg_friendlyName := Some "riseTransitTrueHorizon";
        cfg_outputs := Some
           [("tret", TFloat64 None);
            ("serr", TError 256)];
        cfg_inputStrings := Some ["starname"];
        cfg_returnType := Some RCheckNegative;
        cfg_skip := None;
        cfg_description := Some "Calculate rise/transit with true horizon";
        cfg_resultType := None |});
  ("swe_azalt",
     {| cfg_friendlyName := Some "azimuthAltitude";
        cfg_outputs := Some
           [("xaz", TFloat64Array 3 None)];
        cfg_inputStrings := None;
        cfg_returnType := Some RVoid;
        cfg_skip := None;
        cfg_description := Some "Convert ecliptic to horizontal coordinates";
        cfg_resultType := Some "AzimuthAltitude" |});
  ("swe_azalt_rev",
     {| cfg_friendlyName := Some "azimuthAltitudeReverse";
        cfg_outputs := Some
           [("xout", TFloat64Array 3 None)];
        cfg_inputStrings := None;
        cfg_returnType := Some RVoid;
        cfg_skip := None;
        cfg_description := Some "Convert horizontal to ecliptic coordinates";
        cfg_resultType := None |});
  ("swe_heliacal_ut",
     {| cfg_friendlyName := Some "heliacalRising";
        cfg_outputs := Some
           [("dret", TFloat64Array 50 None);
            ("serr", TError 256)];
        cfg_inputStrings := Some ["ObjectName"];
        cfg_returnType := Some RCheckNegative;
        cfg_skip := None;
        cfg_description := Some "Calculate heliacal rising/setting";
        cfg_resultType := None |});
  ("swe_vis_limit_mag",
     {| cfg_friendlyName := Some "visibilityLimitMagnitude";
        cfg_outputs := Some
           [("dret", TFloat64Array 8 None);
            ("serr", TError 256)];
        cfg_inputStrings := Some ["ObjectName"];
        cfg_returnType := Some RCheckNegative;
        cfg_skip := None;
        cfg_description := Some "Calculate limiting magnitude for visibility";
        cfg_resultType := None |});
  ("swe_heliacal_angle",
     {| cfg_friendlyName := Some "heliacalAngle";
        cfg_outputs := Some
           [("dret", TFloat64Array 3 None);
            ("serr", TError 256)];
        cfg_inputStrings := None;
        cfg_returnType := Some RCheckNegative;
        cfg_skip := None;
        cfg_description := Some "Calculate heliacal angle";
        cfg_resultType := None |});
  ("swe_topo_arcus_visionis",
     {| cfg_friendlyName := Some "topoArcusVisionis";
        cfg_outputs := Some
           [("dret", TFloat64Array 3 None);
            ("serr", TError 256)];
        cfg_inputStrings := None;
        cfg_returnType := Some RCheckNegative;
        cfg_skip := None;
        cfg_description := Some "Calculate topocentric arcus visionis";
        cfg_resultType := None |});
  ("swe_refrac",
     {| cfg_friendlyName := Some "refraction";
        cfg_outputs := None;
        cfg_inputStrings := None;
        cfg_returnType := Some RNumber;
        cfg_skip := None;
        cfg_description := Some "Calculate atmospheric refraction";
        cfg_resultType := None |});
  ("swe_refrac_extended",
     {| cfg_friendlyName := Some "refractionExtended";
        cfg_outputs := Some
           [("dret", TFloat64Array 4 None)];
        cfg_inputStrings := None;
        cfg_returnType := Some RNumber;
        cfg_skip := None;
        cfg_description := Some "Calculate extended atmospheric refraction";
        cfg_resultType := None |});
  ("swe_cotrans",
     {| cfg_friendlyName := Some "coordinateTransform";
        cfg_outputs := Some
           [("xpn", TFloat64Array 3 None)];
        cfg_inputStrings := None;
        cfg_returnType := Some RVoid;
        cfg_skip := None;
        cfg_description := Some "Transform ecliptic/equatorial coordinates";
        cfg_resultType := None |});
  ("swe_cotrans_sp",
     {| cfg_friendlyName := Some "coordinateTransformWithSpeed";
        cfg_outputs := Some
           [("xpn", TFloat64Array 6 None)];
        cfg_inputStrings := None;
        cfg_returnType := Some RVoid;
        cfg_skip := None;
        cfg_description := Some "Transform coordinates with speed";
        cfg_resultType := None |});
  ("swe_deltat",
     {| cfg_friendlyName := Some "deltaT";
        cfg_outputs := None;
        cfg_inputStrings := None;
        cfg_returnType := Some RNumber;
        cfg_skip := None;
        cfg_description := Some "Get Delta T (TT - UT)";
        cfg_resultType := None |});
  ("swe_deltat_ex",
     {| cfg_friendlyName := Some "deltaTExtended";
        cfg_outputs := Some
           [("serr", TError 256)];
        cfg_inputStrings := None;
        cfg_returnType := Some RNumber;
        cfg_skip := None;
        cfg_description := Some "Get Delta T with flags";
        cfg_resultType := None |});
  ("swe_time_equ",
     {| cfg_friendlyName := Some "equationOfTime";
        cfg_outputs := Some
           [("te", TFloat64 None);
            ("serr", TError 256)];
        cfg_inputStrings := None;
        cfg_returnType := Some RCheckNegative;
        cfg_skip := None;
        cfg_description := Some "Get equation of time";
        cfg_resultType := None |});
  ("swe_lmt_to_lat",
     {| cfg_friendlyName := Some "localMeanTimeToApparent";
        cfg_outputs := Some
           [("tjd_lat", TFloat64 None);
            ("serr", TError 256)];
        cfg_inputStrings := None;
        cfg_returnType := Some RCheckNegative;
        cfg_skip := None;
        cfg_description := Some "Convert LMT to LAT";
        cfg_resultType := None |});
  ("swe_lat_to_lmt",
     {| cfg_friendlyName := Some "apparentToLocalMeanTime";
        cfg_outputs := Some
           [("tjd_lmt", TFloat64 None);
            ("serr", TError 256)];
        cfg_inputStrings := None;
        cfg_returnType := Some RCheckNegative;
        cfg_skip := None;
        cfg_description := Some "Convert LAT to LMT";
        cfg_resultType := None |});
  ("swe_set_sid_mode",
     {| cfg_friendlyName := Some "setSiderealMode";
        cfg_outputs := None;
        cfg_inputStrings := None;
        cfg_returnType := Some RVoid;
        cfg_skip := None;
        cfg_description := Some "Set sidereal calculation mode";
        cfg_resultType := None |});
  ("swe_get_ayanamsa",
     {| cfg_friendlyName := Some "getAyanamsaEt";
        cfg_outputs := None;
        cfg_inputStrings := None;
        cfg_returnType := Some RNumber;
        cfg_skip := None;
        cfg_description := Some "Get ayanamsa (ET)";
        cfg_resultType := None |});
  ("swe_get_ayanamsa_ut",
     {| cfg_friendlyName := Some "getAyanamsa";
        cfg_outputs := None;
        cfg_inputStrings := None;
        cfg_returnType := Some RNumber;
        cfg_skip := None;
        cfg_description := Some "Get ayanamsa (UT)";
        cfg_resultType := None |});
  ("swe_get_ayanamsa_ex",
     {| cfg_friendlyName := Some "getAyanamsaExEt";
        cfg_outputs := Some
           [("daya", TFloat64 None);
            ("serr", TError 256)];
        cfg_inputStrings := None;
        cfg_returnType := Some RCheckNegative;
        cfg_skip := None;
        cfg_description := Some "Get ayanamsa extended (ET)";
        cfg_resultType := None |});
  ("swe_get_ayanamsa_ex_ut",
     {| cfg_friendlyName := Some "getAyanamsaEx";
        cfg_outputs := Some
           [("daya", TFloat64 None);
            ("serr", TError 256)];
        cfg_inputStrings := None;
        cfg_returnType := Some RCheckNegative;
        cfg_skip := None;
        cfg_description := Some "Get ayanamsa extended (UT)";
        cfg_resultType := None |});
  ("swe_sidtime",
     {| cfg_friendlyName := Some "siderealTime";
        cfg_outputs := None;
        cfg_inputStrings := None;
        cfg_returnType := Some RNumber;
        cfg_skip := None;
        cfg_description := Some "Get sidereal time";
        cfg_resultType := None |});
  ("swe_sidtime0",
     {| cfg_friendlyName := Some "siderealTime0";
        cfg_outputs := None;
        cfg_inputStrings := None;
        cfg_returnType := Some RNumber;
        cfg_skip := None;
        cfg_description := Some "Get sidereal time with parameters";
        cfg_resultType := None |});
  ("swe_degnorm",
     {| cfg_friendlyName := Some "normalizeDegrees";
        cfg_outputs := None;
        cfg_inputStrings := None;
        cfg_returnType := Some RNumber;
        cfg_skip := None;
        cfg_description := Some "Normalize degrees to 0-360";
        cfg_resultType := None |});
  ("swe_radnorm",
     {| cfg_friendlyName := Some "normalizeRadians";
        cfg_outputs := None;
        cfg_inputStrings := None;
        cfg_returnType := Some RNumber;
        cfg_skip := None;
        cfg_description := Some "Normalize radians to 0-2π";
        cfg_resultType := None |});
  ("swe_rad_midp",
     {| cfg_friendlyName := Some "radianMidpoint";
        cfg_outputs := None;
        cfg_inputStrings := None;
        cfg_returnType := Some RNumber;
        cfg_skip := None;
        cfg_description := Some "Calculate midpoint in radians";
        cfg_resultType := None |});
  ("swe_deg_midp",
     {| cfg_friendlyName := Some "degreeMidpoint";
        cfg_outputs := None;
        cfg_inputStrings := None;
        cfg_returnType := Some RNumber;
        cfg_skip := None;
        cfg_description := Some "Calculate midpoint in degrees";
        cfg_resultType := None |});
  ("swe_split_deg",
     {| cfg_friendlyName := Some "splitDegrees";
        cfg_outputs := Some
           [("ideg", TInt32 (Some "degrees"));
            ("imin", TInt32 (Some "minutes"));
            ("isec", TInt32 (Some "seconds"));
            ("dsecfr", TFloat64 (Some "secondFraction"));
            ("isgn", TInt32 (Some "sign"))];
        cfg_inputStrings := None;
        cfg_returnType := Some RVoid;
        cfg_skip := None;
        cfg_description := Some "Split degrees into components";
        cfg_resultType := Some "SplitDegrees" |});
  ("swe_csnorm",
     {| cfg_friendlyName := Some "normalizeCentiseconds";
        cfg_outputs := None;
        cfg_inputStrings := None;
        cfg_returnType := Some RNumber;
        cfg_skip := None;
        cfg_description := Some "Normalize centiseconds";
        cfg_resultType := None |});
  ("swe_difcsn",
     {| cfg_friendlyName := Some "differenceCentiseconds";
        cfg_outputs := None;
        cfg_inputStrings := None;
        cfg_returnType := Some RNumber;
        cfg_skip := None;
        cfg_description := Some "Difference in centiseconds (normalized)";
        cfg_resultType := None |});
  ("swe_difdegn",
     {| cfg_friendlyName := Some "differenceDegrees";
        cfg_outputs := None;
        cfg_inputStrings := None;
        cfg_returnType := Some RNumber;
        cfg_skip := None;
        cfg_description := Some "Difference in degrees (normalized)";
        cfg_resultType := None |});
  ("swe_difcs2n",
     {| cfg_friendlyName := Some "differenceCentiseconds2";
        cfg_outputs := None;
        cfg_inputStrings := None;
        cfg_returnType := Some RNumber;
        cfg_skip := None;
        cfg_description := Some "Difference in centiseconds (-180..180)";
        cfg_resultType := None |});
  ("swe_difdeg2n",
     {| cfg_friendlyName := Some "differenceDegrees2";
        cfg_outputs := None;
        cfg_inputStrings := None;
        cfg_returnType := Some RNumber;
        cfg_skip := None;
        cfg_description := Some "Difference in degrees (-180..180)";
        cfg_resultType := None |});
  ("swe_difrad2n",
     {| cfg_friendlyName := Some "differenceRadians2";
        cfg_outputs := None;
        cfg_inputStrings := None;
        cfg_returnType := Some RNumber;
        cfg_skip := None;
        cfg_description := Some "Difference in radians (-π..π)";
        cfg_resultType := None |});
  ("swe_csroundsec",
     {| cfg_friendlyName := Some "roundCentiseconds";
        cfg_outputs := None;
        cfg_inputStrings := None;
        cfg_returnType := Some RNumber;
        cfg_skip := None;
        cfg_description := Some "Round centiseconds to seconds";
        cfg_resultType := None |});
  ("swe_d2l",
     {| cfg_friendlyName := Some "doubleToLong";
        cfg_outputs := None;
        cfg_inputStrings := None;
        cfg_returnType := Some RNumber;
        cfg_skip := None;
        cfg_description := Some "Convert double to long";
        cfg_resultType := None |});
  ("swe_day_of_week",
     {| cfg_friendlyName := Some "dayOfWeek";
        cfg_outputs := None;
        cfg_inputStrings := None;
        cfg_returnType := Some RNumber;
        cfg_skip := None;
        cfg_description := Some "Get day of week (0=Mon)";
        cfg_resultType := None |});
  ("swe_close",
     {| cfg_friendlyName := Some "close";
        cfg_outputs := None;
        cfg_inputStrings := None;
        cfg_returnType := Some RVoid;
        cfg_skip := None;
        cfg_description := Some "Close Swiss Ephemeris and free resources";
        cfg_resultType := None |});
  ("swe_set_ephe_path",
     {| cfg_friendlyName := Some "setEphemerisPath";
        cfg_outputs := None;
        cfg_inputStrings := Some ["path"];
        cfg_returnType := Some RVoid;
        cfg_skip := None;
        cfg_description := Some "Set path to ephemeris files";
        cfg_resultType := None |});
  ("swe_set_jpl_file",
     {| cfg_friendlyName := Some "setJplFile";
        cfg_outputs := None;
        cfg_inputStrings := Some ["fname"];
        cfg_returnType := Some RVoid;
        cfg_skip := None;
        cfg_description := Some "Set JPL ephemeris file";
        cfg_resultType := None |});
  ("swe_get_planet_name",
     {| cfg_friendlyName := Some "getPlanetName";
        cfg_outputs := Some
           [("spname", TString 64)];
        cfg_inputStrings := None;
        cfg_returnType := Some RNumber;
        cfg_skip := None;
        cfg_description := Some "Get name of a planet";
        cfg_resultType := None |});
  ("swe_set_topo",
     {| cfg_friendlyName := Some "setTopocentric";
        cfg_outputs := None;
        cfg_inputStrings := None;
        cfg_returnType := Some RVoid;
        cfg_skip := None;
        cfg_description := Some "Set topocentric observer location";
        cfg_resultType := None |});
  ("swe_set_lapse_rate",
     {| cfg_friendlyName := Some "setLapseRate";
        cfg_outputs := None;
        cfg_inputStrings := None;
        cfg_returnType := Some RVoid;
        cfg_skip := None;
        cfg_description := Some "Set atmospheric lapse rate";
        cfg_resultType := None |});
  ("swe_set_interpolate_nut",
     {| cfg_friendlyName := Some "setInterpolateNutation";
        cfg_outputs := None;
        cfg_inputStrings := None;
        cfg_returnType := Some RVoid;
        cfg_skip := None;
        cfg_description := Some "Set nutation interpolation";
        cfg_resultType := None |});
  ("swe_get_tid_acc",
     {| cfg_friendlyName := Some "getTidalAcceleration";
        cfg_outputs := None;
        cfg_inputStrings := None;
        cfg_returnType := Some RNumber;
        cfg_skip := None;
        cfg_description := Some "Get tidal acceleration";
        cfg_resultType := None |});
  ("swe_set_tid_acc",
     {| cfg_friendlyName := Some "setTidalAcceleration";
        cfg_outputs := None;
        cfg_inputStrings := None;
        cfg_returnType := Some RVoid;
        cfg_skip := None;
        cfg_description := Some "Set tidal acceleration";
        cfg_resultType := None |});
  ("swe_set_delta_t_userdef",
     {| cfg_friendlyName := Some "setDeltaTUserDefined";
        cfg_outputs := None;
        cfg_inputStrings := None;
        cfg_returnType := Some RVoid;
        cfg_skip := None;
        cfg_description := Some "Set user-defined delta T";
        cfg_resultType := None |});
  ("swe_set_astro_models",
     {| cfg_friendlyName := Some "setAstroModels";
        cfg_outputs := None;
        cfg_inputStrings := None;
        cfg_returnType := None;
        cfg_skip := Some true;
        cfg_description := Some "Set astronomical models";
        cfg_resultType := None |});
  ("swe_get_astro_models",
     {| cfg_friendlyName := Some "getAstroModels";
        cfg_outputs := None;
        cfg_inputStrings := None;
        cfg_returnType := None;
        cfg_skip := Some true;
        cfg_description := Some "Get astronomical models";
        cfg_resultType := None |})
].

(** [functionConfig[name]] *)
Definition lookupConfig (name : string) : option FunctionConfig :=
  snd <$> List.find (fun e => String.eqb (fst e) name) functionConfig.

(** * Memory helpers (src/helpers.ts) *)

Module Helpers.
Section Memory.
(** [new TextDecoder().decode]. *)
Variable decode : list Byte.byte -> string.

(** [mem[i]] on a [Uint8Array]: [undefined] outside of the array. *)
Definition at_ (mem : list Byte.byte) (i : Z) : option Byte.byte :=
  if (i <? 0)%Z then None else mem !! Z.to_nat i.

(** [mem[i] !== 0] is false. *)
Definition isZero (x : option Byte.byte) : bool :=
  match x with
  | Some b => Byte.eqb b x00
  | None => false
  end.

(** [while (mem[end] !== 0) end++], with a bound on the number of tests
    of the condition. *)
Fixpoint scan (fuel : nat) (mem : list Byte.byte) (end_ : Z) : option Z :=
  match fuel with
  | O => None
  | S fuel' =>
      if isZero (at_ mem end_) then Some end_ else scan fuel' mem (end_ + 1)
  end.

(** An index of [subarray], relative to the end when negative. *)
Definition clampIndex (len i : Z) : Z :=
  if (i <? 0)%Z then Z.max (len + i) 0 else Z.min i len.

(** [mem.subarray(begin, end)]. *)
Definition subarray (mem : list Byte.byte) (begin end_ : Z) : list Byte.byte :=
  let len := Z.of_nat (length mem) in
  let beginIndex := clampIndex len begin in
  let endIndex := clampIndex len end_ in
  take (Z.to_nat (Z.max (endIndex - beginIndex) 0)) (drop (Z.to_nat beginIndex) mem).

Definition getString (fuel : nat) (mem : list Byte.byte) (ptr : Z) : option string :=
  match scan fuel mem ptr with
  | Some end_ => Some (decode (subarray mem ptr end_))
  | None => None
  end.
End Memory.
(** [getUint8Array().set(bytes, ptr)]: a [RangeError] ([None]) when the
    bytes do not fit into the memory from [ptr] on. *)
Definition setBytes (mem : list Byte.byte) (ptr : Z) (bytes : list Byte.byte)
  : option (list Byte.byte) :=
  if (ptr <? 0)%Z
     || (Z.of_nat (length mem) <? ptr + Z.of_nat (length bytes))%Z
  then None
  else Some (take (Z.to_nat ptr) mem ++ bytes
             ++ drop (Z.to_nat ptr + length bytes) mem).

Section Allocation.
(** [new TextEncoder().encode] and [swe.malloc]: the allocator answers
    with an address and the memory it leaves. *)
Variable encode : string -> list Byte.byte.
Variable malloc : N -> list Byte.byte -> Z * list Byte.byte.

Definition NUL : string := String "000" EmptyString.

Definition allocString (str : string) (mem : list Byte.byte)
  : option (Z * list Byte.byte) :=
  let encoded := encode (str +:+ NUL) in
  let '(ptr, mem1) := malloc (N.of_nat (length encoded)) mem in
  match setBytes mem1 ptr encoded with
  | Some mem2 => Some (ptr, mem2)
  | None => None
  end.
End Allocation.

(** [getDataView().getInt32(ptr, true)]: four bytes, the least
    significant first, read as a signed number; a [RangeError] ([None])
    outside of the memory. *)
Definition byteAt (mem : list Byte.byte) (i : nat) : Z :=
  Z.of_N (Byte.to_N (nth i mem x00)).

Definition getInt32 (mem : list Byte.byte) (ptr : Z) : option Z :=
  if (ptr <? 0)%Z || (Z.of_nat (length mem) <? ptr + 4)%Z then None
  else
    let i := Z.to_nat ptr in
    let u := (byteAt mem i + 256 * byteAt mem (i + 1) + 65536 * byteAt mem (i + 2)
              + 16777216 * byteAt mem (i + 3))%Z in
    Some (if (u <? 2147483648)%Z then u else (u - 4294967296)%Z).

Section Floats.
(** [getDataView().getFloat64(p, true)], [None] for a [RangeError]. *)
Variable view_getFloat64 : Z -> option float.

(** The loop of [getFloat64Array]: [i] is the index of the next read,
    [todo] the number of reads left. *)
Fixpoint getFloat64ArrayLoop (ptr : Z) (i : Z) (todo : nat) (result : list float)
  : option (list float) :=
  match todo with
  | O => Some result
  | S todo' =>
      match view_getFloat64 (ptr + i * 8)%Z with
      | Some x => getFloat64ArrayLoop ptr (i + 1)%Z todo' (result ++ [x])
      | None => None
      end
  end.

Definition getFloat64Array (ptr : Z) (count : nat) : option (list float) :=
  getFloat64ArrayLoop ptr 0 count [].
End Floats.

End Helpers.

(** ** [withErrorBuffer] (src/helpers.ts), in the monad of the wrappers

    The callback [fn] is a computation over the same world; [try] and
    [finally] as in [Wrapper.tryFinally]: the release does not run when
    the body never ends. *)

Section ErrorBuffer.
Import Wrapper.
Context {W : Type} (rt : Runtime W) {T : Type}.

Definition withErrorBuffer (bufferSize : N) (fn : N -> M T)
  : M (T * option string) :=
  bind (malloc rt bufferSize) (fun serrPtr =>
    fun st =>
      match bind (fn serrPtr) (fun value =>
              bind (getString rt serrPtr) (fun errorStr =>
                ret (value, if Nat.ltb 0 (String.length errorStr)
                            then Some errorStr else None))) st with
      | (Hang, st') => (Hang, st')
      | (r, st') =>
          match free rt serrPtr st' with
          | (Val _, st'') => (r, st'')
          | (Raise e, st'') => (Raise e, st'')
          | (Hang, st'') => (Hang, st'')
          end
      end).
End ErrorBuffer.

(** * Facts about strings *)

Lemma append_cons c (s t : string) : String c s +:+ t = String c (s +:+ t).
Proof. reflexivity. Qed.

Lemma append_nil (t : string) : "" +:+ t = t.
Proof. reflexivity. Qed.

Lemma append_assoc (a b c : string) : (a +:+ b) +:+ c = a +:+ (b +:+ c).
Proof.
  induction a as [|x a IH]; [done|].
  change (String x ((a +:+ b) +:+ c) = String x (a +:+ (b +:+ c))).
  by rewrite IH.
Qed.

Lemma append_empty_r (a : string) : a +:+ "" = a.
Proof.
  induction a as [|x a IH]; [done|].
  change (String x (a +:+ "") = String x a). by rewrite IH.
Qed.

Lemma length_append (a b : string) :
  String.length (a +:+ b) = String.length a + String.length b.
Proof.
  induction a as [|x a IH]; [done|].
  change (S (String.length (a +:+ b)) = S (String.length a + String.length b)).
  by rewrite IH.
Qed.

Lemma substring_prefix (a t : string) :
  String.substring 0 (String.length (a +:+ t) - String.length t) (a +:+ t) = a.
Proof.
  rewrite length_append.
  replace (String.length a + String.length t - String.length t)
    with (String.length a) by lia.
  induction a as [|c a IH].
  - rewrite append_nil. by destruct t.
  - change (String c (String.substring 0 (String.length a) (a +:+ t)) = String c a).
    by rewrite IH.
Qed.

(** * Facts about the resolver *)

Section VisitFacts.
Import Resolver.
Variable byName : gmap string Constant.
Variable skipped : gset string.
Hypothesis byName_key : forall k c, byName !! k = Some c -> c_name c = k.

(** [edge a b]: the definition kept under the key [a] mentions [b]. *)
Definition edge (a b : string) : Prop :=
  exists c, byName !! a = Some c /\ b ∈ c_dependencies c.

Definition reaches : string -> string -> Prop := tc edge.

(** [d] is defined in the part of [l] that comes before [c]. *)
Definition definedBefore (d : string) (c : Constant) (l : list Constant) : Prop :=
  exists l1 l2, l = l1 ++ c :: l2 /\ d ∈ names l1.

Definition Ordered (l : list Constant) : Prop :=
  forall l1 c l2, l = l1 ++ c :: l2 ->
  forall d, d ∈ c_dependencies c -> is_Some (byName !! d) ->
            d ∉ skipped -> ~ reaches d (c_name c) -> d ∈ names l1.

Record WF (st : VisitState) : Prop := mkWF {
  wf_visited : forall n, n ∈ visited st <-> n ∈ names (sorted st);
  wf_nodup : NoDup (names (sorted st));
  wf_byName : forall c, c ∈ sorted st ->
                        byName !! c_name c = Some c /\ c_name c ∉ skipped;
  wf_disj : forall n, n ∈ inProgress st -> n ∉ visited st;
  wf_ordered : Ordered (sorted st)
}.

Lemma snoc_split {A} (l l1 l2 : list A) (c c' : A) :
  l ++ [c] = l1 ++ c' :: l2 ->
  (l2 = [] /\ l = l1 /\ c = c') \/
  (exists l2', l2 = l2' ++ [c] /\ l = l1 ++ c' :: l2').
Proof.
  intros H. destruct l2 as [|x l2 _] using rev_ind.
  - left. apply app_inj_tail in H. naive_solver.
  - right. exists l2.
    replace (l1 ++ c' :: l2 ++ [x]) with ((l1 ++ c' :: l2) ++ [x]) in H
      by (rewrite <- app_assoc; reflexivity).
    apply app_inj_tail in H. naive_solver.
Qed.

Lemma Ordered_snoc l c :
  Ordered l ->
  (forall d, d ∈ c_dependencies c -> is_Some (byName !! d) ->
             d ∉ skipped -> ~ reaches d (c_name c) -> d ∈ names l) ->
  Ordered (l ++ [c]).
Proof.
  intros Hl Hc l1 c' l2 Heq d Hd Hs Hk Hr.
  apply snoc_split in Heq as [(-> & -> & ->) | (l2' & -> & ->)].
  - by apply Hc.
  - by eapply Hl.
Qed.

(** What one call of [visit] (or one run of the loop over the
    dependencies) leaves behind. *)
Record Extends (st st' : VisitState) : Prop := mkExtends {
  ext_wf : WF st';
  ext_inProgress : inProgress st' = inProgress st;
  ext_visited : visited st ⊆ visited st';
  ext_sorted : exists ext, sorted st' = sorted st ++ ext
}.

Lemma Extends_refl st : WF st -> Extends st st.
Proof. intros H. split; try done. exists []. by rewrite app_nil_r. Qed.

Lemma Extends_trans st1 st2 st3 :
  Extends st1 st2 -> Extends st2 st3 -> Extends st1 st3.
Proof.
  intros [? E1 V1 [e1 S1]] [? E2 V2 [e2 S2]]. split; try done.
  - congruence.
  - set_solver.
  - exists (e1 ++ e2). rewrite S2, S1. by rewrite app_assoc.
Qed.

Definition settled (st : VisitState) (n : string) : Prop :=
  n ∈ visited st \/ n ∈ inProgress st \/ n ∈ skipped \/ byName !! n = None.

Lemma settled_mono s s' n : Extends s s' -> settled s n -> settled s' n.
Proof.
  intros [_ E V _] [H|[H|[H|H]]].
  - left. set_solver.
  - right. left. by rewrite E.
  - right. right. by left.
  - right. right. by right.
Qed.

Definition depStep (fuel : nat) (s : VisitState) (dep : string)
  : option VisitState :=
  if bool_decide (is_Some (byName !! dep))
  then visit byName skipped fuel dep s else Some s.

Lemma fuel_step (P : gset string) (n : string) (k : nat) :
  is_Some (byName !! n) -> n ∉ P ->
  size (dom byName ∖ P) < S k ->
  size (dom byName ∖ ({[n]} ∪ P)) < k.
Proof.
  intros Hn HP Hk.
  assert (size (dom byName ∖ ({[n]} ∪ P)) < size (dom byName ∖ P)); [|lia].
  apply subset_size. apply elem_of_dom in Hn. set_solver.
Qed.

(** The loop over the dependencies of the constant under [name], given
    what is known of [visit] at the fuel it is run with. *)
Lemma depLoop_spec fuel name c :
  (forall n st, WF st ->
      size (dom byName ∖ inProgress st) < fuel ->
      (forall a, a ∈ inProgress st -> reaches a n) ->
      exists st', visit byName skipped fuel n st = Some st'
                  /\ Extends st st' /\ settled st' n) ->
  byName !! name = Some c ->
  forall deps s,
    (forall d, d ∈ deps -> d ∈ c_dependencies c) ->
    WF s ->
    size (dom byName ∖ inProgress s) < fuel ->
    (forall a, a ∈ inProgress s -> a = name \/ reaches a name) ->
    exists s', foldM (depStep fuel) s deps = Some s'
               /\ Extends s s'
               /\ forall d, d ∈ deps -> is_Some (byName !! d) -> settled s' d.
Proof.
  intros IH Hc. induction deps as [|d deps IHd]; intros s Hsub Hwf Hfuel Hpath.
  - exists s. split; [done|]. split; [by apply Extends_refl|].
    intros d Hd. by apply elem_of_nil in Hd.
  - simpl. unfold depStep at 1.
    assert (Hstep : exists s1,
               (if bool_decide (is_Some (byName !! d))
                then visit byName skipped fuel d s else Some s) = Some s1
               /\ Extends s s1
               /\ (is_Some (byName !! d) -> settled s1 d)).
    { case_bool_decide as Hd.
      - destruct (IH d s) as (s1 & E1 & X1 & T1); [done|done| |by exists s1].
        intros a Ha.
        assert (Hed : edge name d).
        { exists c. split; [done|]. apply Hsub. by left. }
        destruct (Hpath a Ha) as [->|Hr]; [by apply tc_once|].
        eapply tc_r; done.
      - exists s. split; [done|]. split; [by apply Extends_refl|done]. }
    destruct Hstep as (s1 & -> & X1 & T1).
    destruct (IHd s1) as (s' & E' & X' & T').
    { intros d' Hd'. apply Hsub. by right. }
    { apply X1. }
    { by rewrite (ext_inProgress _ _ X1). }
    { intros a. rewrite (ext_inProgress _ _ X1). apply Hpath. }
    exists s'. split; [done|]. split; [by eapply Extends_trans|].
    intros d' Hd' Hsome. apply elem_of_cons in Hd' as [->|Hd']; [|by apply T'].
    eapply settled_mono; [done|by apply T1].
Qed.

Lemma visit_spec fuel :
  forall name st,
    WF st ->
    size (dom byName ∖ inProgress st) < fuel ->
    (forall a, a ∈ inProgress st -> reaches a name) ->
    exists st', visit byName skipped fuel name st = Some st'
                /\ Extends st st' /\ settled st' name.
Proof.
  induction fuel as [|fuel IH]; intros name st Hwf Hfuel Hpath; [lia|].
  simpl.
  case_bool_decide as Hv.
  { exists st. split; [done|]. split; [by apply Extends_refl|]. by left. }
  case_bool_decide as Hp.
  { exists st. split; [done|]. split; [by apply Extends_refl|].
    right. by left. }
  case_bool_decide as Hs.
  { exists st. split; [done|]. split; [by apply Extends_refl|].
    right. right. by left. }
  destruct (byName !! name) as [c|] eqn:Hc.
  2:{ exists st. split; [done|]. split; [by apply Extends_refl|].
      right. right. by right. }
  set (st1 := mkVisitState (sorted st) (visited st) ({[name]} ∪ inProgress st)).
  assert (Hwf1 : WF st1).
  { destruct Hwf. split; simpl; try done. set_solver. }
  destruct (depLoop_spec fuel name c IH Hc (c_dependencies c) st1)
    as (st2 & E2 & X2 & T2); [done|done| | |].
  { simpl. apply fuel_step; [by rewrite Hc|done|done]. }
  { simpl. intros a Ha. apply elem_of_union in Ha as [Ha|Ha].
    - left. by apply elem_of_singleton in Ha.
    - right. by apply Hpath. }
  fold (depStep fuel). rewrite E2.
  destruct X2 as [Hwf2 Hin2 Hvis2 [ext Hsorted2]]. simpl in *.
  assert (Hname : c_name c = name) by by apply byName_key.
  assert (Hfresh : name ∉ visited st2).
  { apply (wf_disj _ Hwf2). rewrite Hin2. set_solver. }
  eexists. split; [reflexivity|]. split; [|left; simpl; set_solver].
  split; simpl.
  - destruct Hwf2 as [V2 N2 B2 D2 O2]. split; simpl.
    + intros n. unfold names. rewrite map_app, elem_of_app. simpl.
      rewrite elem_of_union, elem_of_singleton, list_elem_of_singleton, Hname.
      specialize (V2 n). unfold names in V2. tauto.
    + unfold names. rewrite map_app. simpl. apply NoDup_app. split; [done|].
      split; [|apply NoDup_singleton].
      intros n Hn Hn'. apply list_elem_of_singleton in Hn'. subst n.
      rewrite Hname in Hn. apply Hfresh. by apply V2.
    + intros c' Hc'. apply elem_of_app in Hc' as [Hc'|Hc']; [by apply B2|].
      apply list_elem_of_singleton in Hc' as ->. rewrite Hname. done.
    + intros n Hn. set_solver.
    + apply Ordered_snoc; [done|].
      intros d Hd Hsome Hsk Hr. rewrite Hname in Hr.
      destruct (T2 d Hd Hsome) as [H|[H|[H|H]]].
      * by apply V2.
      * exfalso. apply Hr. rewrite Hin2 in H.
        apply elem_of_union in H as [H|H].
        -- apply elem_of_singleton in H as ->. apply tc_once. by exists c.
        -- by apply Hpath.
      * done.
      * rewrite H in Hsome. by destruct Hsome.
  - rewrite Hin2. set_solver.
  - set_solver.
  - exists (ext ++ [c]). rewrite Hsorted2. by rewrite app_assoc.
Qed.
End VisitFacts.

Section ResolverFacts.
Import Resolver.

(** ** The map [byName] *)

Lemma byNameOf_snoc l x :
  byNameOf (l ++ [x]) = <[c_name x := x]> (byNameOf l).
Proof. unfold byNameOf. by rewrite foldl_snoc. Qed.

Lemma byNameOf_lookup cs k c :
  byNameOf cs !! k = Some c -> c_name c = k /\ c ∈ cs.
Proof.
  induction cs as [|x l IH] using rev_ind.
  - unfold byNameOf. simpl. by rewrite lookup_empty.
  - rewrite byNameOf_snoc. intros H.
    destruct (decide (c_name x = k)) as [<-|Hne].
    + rewrite lookup_insert_eq in H. injection H as <-. set_solver.
    + rewrite lookup_insert_ne in H by done. set_solver.
Qed.

Lemma byNameOf_defined cs k : k ∈ names cs <-> is_Some (byNameOf cs !! k).
Proof.
  induction cs as [|x l IH] using rev_ind.
  - unfold byNameOf. simpl. rewrite lookup_empty. split.
    + intros H. by apply elem_of_nil in H.
    + by intros [? ?].
  - rewrite byNameOf_snoc. unfold names in *. rewrite map_app, elem_of_app. simpl.
    rewrite list_elem_of_singleton.
    destruct (decide (c_name x = k)) as [<-|Hne].
    + rewrite lookup_insert_eq. naive_solver.
    + rewrite lookup_insert_ne by done. naive_solver.
Qed.

(** ** The skipped set *)

Lemma existsb_elem_of {A} (f : A -> bool) (l : list A) :
  existsb f l = true <-> exists x, x ∈ l /\ f x = true.
Proof.
  rewrite existsb_exists. split; intros (x & H1 & H2); exists x;
    split; try done; by apply list_elem_of_In.
Qed.

Lemma firstPass_acc byName cs (acc : gset string) n :
  n ∈ foldl (fun skipped c =>
               if hasMissingDep byName c then {[c_name c]} ∪ skipped else skipped)
            acc cs
  <-> n ∈ acc \/ exists c, c ∈ cs /\ c_name c = n /\ hasMissingDep byName c = true.
Proof.
  revert acc. induction cs as [|x l IH]; intros acc; simpl.
  - split; [by left|]. intros [H|(c & H & _)]; [done|]. by apply elem_of_nil in H.
  - rewrite IH. destruct (hasMissingDep byName x) eqn:Hx.
    + rewrite elem_of_union, elem_of_singleton. split.
      * intros [[->|H]|(c & H1 & H2 & H3)]; [right|by left|right].
        -- exists x. set_solver.
        -- exists c. set_solver.
      * intros [H|(c & H1 & H2 & H3)]; [by left; right|].
        apply elem_of_cons in H1 as [->|H1]; [by left; left|].
        right. by exists c.
    + split.
      * intros [H|(c & H1 & H2 & H3)]; [by left|right]. exists c. set_solver.
      * intros [H|(c & H1 & H2 & H3)]; [by left|].
        apply elem_of_cons in H1 as [->|H1]; [congruence|].
        right. by exists c.
Qed.

Lemma firstPass_spec byName cs n :
  n ∈ firstPass byName cs
  <-> exists c, c ∈ cs /\ c_name c = n /\ hasMissingDep byName c = true.
Proof. unfold firstPass. rewrite firstPass_acc. set_solver. Qed.

(** No constant outside [sk] mentions a member of [sk]. *)
Definition closed (cs : list Constant) (sk : gset string) : Prop :=
  forall c, c ∈ cs -> c_name c ∉ sk -> dependsOnSkipped sk c = false.

Lemma skipPass_acc cs : forall sk ch sk' ch',
  foldl skipStep (sk, ch) cs = (sk', ch') ->
  sk ⊆ sk'
  /\ sk' ⊆ sk ∪ list_to_set (names cs)
  /\ (ch' = false -> ch = false /\ sk' = sk /\ closed cs sk)
  /\ (ch' = true -> ch = true \/ exists n, n ∈ sk' /\ n ∉ sk).
Proof.
  induction cs as [|x l IH]; intros sk ch sk' ch' H; simpl in H.
  - injection H as <- <-. split; [done|]. split; [set_solver|].
    split; [|by left]. intros ->. split; [done|]. split; [done|].
    intros c Hc. by apply elem_of_nil in Hc.
  - unfold skipStep at 1 in H. simpl in H. case_bool_decide as Hx.
    + apply IH in H as (H1 & H2 & H3 & H4). split; [done|].
      split; [set_solver|]. split; [|done].
      intros Hf. destruct (H3 Hf) as (-> & -> & Hcl). split; [done|].
      split; [done|]. intros c Hc Hn.
      apply elem_of_cons in Hc as [->|Hc]; [done|by apply Hcl].
    + destruct (dependsOnSkipped sk x) eqn:Hdx.
      * apply IH in H as (H1 & H2 & H3 & H4). split; [set_solver|].
        split; [set_solver|]. split.
        -- intros Hf. by destruct (H3 Hf).
        -- intros _. right. exists (c_name x). split; [|done].
           apply H1. set_solver.
      * apply IH in H as (H1 & H2 & H3 & H4). split; [done|].
        split; [set_solver|]. split; [|done].
        intros Hf. destruct (H3 Hf) as (-> & -> & Hcl). split; [done|].
        split; [done|]. intros c Hc Hn.
        apply elem_of_cons in Hc as [->|Hc]; [done|by apply Hcl].
Qed.

Lemma skipLoop_spec cs fuel : forall sk,
  size (list_to_set (names cs) ∖ sk : gset string) < fuel ->
  exists sk', skipLoop fuel cs sk = Some sk' /\ sk ⊆ sk' /\ closed cs sk'.
Proof.
  induction fuel as [|fuel IH]; intros sk Hfuel; [lia|].
  simpl. unfold skipPass.
  destruct (foldl skipStep (sk, false) cs) as [sk' ch'] eqn:Hpass.
  apply skipPass_acc in Hpass as (H1 & H2 & H3 & H4).
  destruct ch'.
  - destruct (H4 eq_refl) as [?|(n & Hn1 & Hn2)]; [done|].
    destruct (IH sk') as (sk'' & E & S1 & C1).
    + assert (size (list_to_set (names cs) ∖ sk' : gset string)
              < size (list_to_set (names cs) ∖ sk : gset string)); [|lia].
      apply subset_size. split; [set_solver|].
      intros Hsub. assert (Hn : n ∈ (list_to_set (names cs) ∖ sk : gset string)).
      { apply elem_of_difference. split; [|done].
        apply H2 in Hn1. apply elem_of_union in Hn1 as [?|?]; done. }
      apply Hsub in Hn. set_solver.
    + exists sk''. split; [done|]. split; [set_solver|done].
  - destruct (H3 eq_refl) as (_ & -> & Hcl). by exists sk.
Qed.

Lemma size_list_to_set_le (l : list string) :
  size (list_to_set l : gset string) <= length l.
Proof.
  induction l as [|x l IH].
  - by rewrite list_to_set_nil, size_empty.
  - rewrite list_to_set_cons, size_union_alt, size_singleton. simpl.
    assert (size (list_to_set l ∖ {[x]} : gset string)
            <= size (list_to_set l : gset string)); [|lia].
    apply subseteq_size. set_solver.
Qed.

Lemma skippedOf_spec cs :
  exists sk, skippedOf cs = Some sk
             /\ firstPass (byNameOf cs) cs ⊆ sk /\ closed cs sk.
Proof.
  unfold skippedOf. apply skipLoop_spec.
  assert (size (list_to_set (names cs) ∖ firstPass (byNameOf cs) cs : gset string)
          <= size (list_to_set (names cs) : gset string))
    by (apply subseteq_size; set_solver).
  pose proof (size_list_to_set_le (names cs)) as Hle.
  unfold names in Hle at 2. rewrite length_map in Hle. lia.
Qed.
End ResolverFacts.

Section TopSortFacts.
Import Resolver.

Lemma WF_init byName sk : WF byName sk initState.
Proof.
  split; simpl.
  - intros n. set_solver.
  - constructor.
  - intros c Hc. by apply elem_of_nil in Hc.
  - set_solver.
  - intros l1 c l2 H. by destruct l1.
Qed.

Lemma visitAll_spec byName sk (l : list Constant) :
  (forall k c, byName !! k = Some c -> c_name c = k) ->
  forall s, WF byName sk s -> inProgress s = ∅ ->
  exists s', foldM (fun s c =>
                      if bool_decide (c_name c ∈ sk) then Some s
                      else visit byName sk (S (size byName)) (c_name c) s) s l
             = Some s'
             /\ Extends byName sk s s'
             /\ forall c, c ∈ l -> c_name c ∉ sk ->
                          settled byName sk s' (c_name c).
Proof.
  intros Hkey. induction l as [|x l IH]; intros s Hwf Hin; cbn [foldM].
  - exists s. split; [done|]. split; [by apply Extends_refl|].
    intros c Hc. by apply elem_of_nil in Hc.
  - assert (Hstep : exists s1,
               (if bool_decide (c_name x ∈ sk) then Some s
                else visit byName sk (S (size byName)) (c_name x) s) = Some s1
               /\ Extends byName sk s s1
               /\ (c_name x ∉ sk -> settled byName sk s1 (c_name x))).
    { case_bool_decide as Hx.
      - exists s. split; [done|]. split; [by apply Extends_refl|done].
      - destruct (visit_spec byName sk Hkey (S (size byName)) (c_name x) s)
          as (s1 & E1 & X1 & T1); [done| | |by exists s1].
        + rewrite Hin, difference_empty_L, size_dom. lia.
        + intros a. rewrite Hin. set_solver. }
    destruct Hstep as (s1 & -> & X1 & T1).
    destruct (IH s1) as (s' & E' & X' & T').
    { apply X1. }
    { by rewrite (ext_inProgress _ _ _ _ X1). }
    exists s'. split; [done|]. split; [by eapply Extends_trans|].
    intros c Hc Hn. apply elem_of_cons in Hc as [->|Hc]; [|by apply T'].
    eapply settled_mono; [exact Hkey|exact X'|by apply T1].
Qed.

(** Everything later proofs need to know about one run of
    [topologicalSort]. *)
Record SortRun (cs : list Constant) (sk : gset string)
       (out : list Constant) : Prop := mkSortRun {
  run_skipped : skippedOf cs = Some sk;
  run_result : topologicalSort cs = Some out;
  run_first : firstPass (byNameOf cs) cs ⊆ sk;
  run_closed : closed cs sk;
  run_nodup : NoDup (names out);
  run_members : forall c, c ∈ out ->
                  byNameOf cs !! c_name c = Some c /\ c_name c ∉ sk;
  run_complete : forall c, c ∈ cs -> c_name c ∉ sk -> c_name c ∈ names out;
  run_ordered : Ordered (byNameOf cs) sk out
}.

Lemma topologicalSort_run cs : exists sk out, SortRun cs sk out.
Proof.
  destruct (skippedOf_spec cs) as (sk & Hsk & Hfirst & Hclosed).
  assert (Hkey : forall k c, byNameOf cs !! k = Some c -> c_name c = k).
  { intros k c H. by apply byNameOf_lookup in H as [? _]. }
  destruct (visitAll_spec (byNameOf cs) sk cs Hkey initState)
    as (st & E & X & T); [apply WF_init|done|].
  exists sk, (sorted st). destruct X as [[V N B D O] Hin _ _].
  split; try done.
  - unfold topologicalSort, visitAll. cbv zeta. by rewrite Hsk, E.
  - intros c Hc Hn. apply V.
    destruct (T c Hc Hn) as [H|[H|[H|H]]]; [done| |done|].
    + rewrite Hin in H. simpl in H. set_solver.
    + assert (Hs : is_Some (byNameOf cs !! c_name c)).
      { apply byNameOf_defined. unfold names. apply list_elem_of_fmap.
        by exists c. }
      rewrite H in Hs. by destruct Hs.
Qed.

Lemma topologicalSort_total cs : is_Some (Resolver.topologicalSort cs).
Proof.
  destruct (topologicalSort_run cs) as (sk & out & R).
  rewrite (run_result _ _ _ R). by eexists.
Qed.

(** ** Dependencies between the constants of the input *)

(** [dependsOn cs a b]: some definition of [a] in the input mentions [b]. *)
Definition dependsOn (cs : list Constant) (a b : string) : Prop :=
  exists c, c ∈ cs /\ c_name c = a /\ b ∈ c_dependencies c.

Definition dependsTransitively (cs : list Constant) : string -> string -> Prop :=
  tc (dependsOn cs).


Lemma dependsOnSkipped_false sk c d :
  dependsOnSkipped sk c = false -> d ∈ c_dependencies c -> d ∉ sk.
Proof.
  intros H Hd Hsk. unfold dependsOnSkipped in H.
  assert (existsb (fun dep => bool_decide (dep ∈ sk)) (c_dependencies c) = true);
    [|congruence].
  apply existsb_elem_of. exists d. split; [done|]. by apply bool_decide_eq_true.
Qed.

Lemma skipped_upward cs sk :
  closed cs sk ->
  forall y x, dependsTransitively cs y x -> x ∈ sk -> y ∈ sk.
Proof.
  intros Hclosed y x H. induction H as [y x (c & Hc & <- & Hx)|y m x (c & Hc & <- & Hm) _ IH];
    intros Hsk.
  - destruct (decide (c_name c ∈ sk)) as [|Hn]; [done|].
    exfalso. eapply dependsOnSkipped_false; [by apply Hclosed|done|done].
  - destruct (decide (c_name c ∈ sk)) as [|Hn]; [done|].
    exfalso. eapply dependsOnSkipped_false; [by apply Hclosed|done|by apply IH].
Qed.

Lemma run_deps_defined cs sk out c d :
  SortRun cs sk out -> c ∈ out -> d ∈ c_dependencies c ->
  is_Some (byNameOf cs !! d) /\ (d ∉ sk) /\ d ∈ names out.
Proof.
  intros R Hc Hd. destruct (run_members _ _ _ R c Hc) as [Hb Hn].
  apply byNameOf_lookup in Hb as [_ Hin].
  assert (Hdef : is_Some (byNameOf cs !! d)).
  { destruct (byNameOf cs !! d) eqn:E; [by eexists|]. exfalso. apply Hn.
    apply (run_first _ _ _ R). apply firstPass_spec. exists c.
    split; [done|]. split; [done|]. apply existsb_elem_of. exists d.
    split; [done|]. by apply bool_decide_eq_true. }
  assert (Hnsk : d ∉ sk).
  { eapply dependsOnSkipped_false; [by apply (run_closed _ _ _ R)|done]. }
  split; [done|]. split; [done|].
  destruct Hdef as [c' Hc']. apply byNameOf_lookup in Hc' as [<- Hin'].
  by apply (run_complete _ _ _ R).
Qed.

End TopSortFacts.
(** * Facts about the declaration extractor *)

Section RegexFacts.
Import Regex.

(** The longest prefix of characters of a class, and what follows it. *)
Fixpoint span (q : ascii -> bool) (s : string) : string * string :=
  match s with
  | String c s' =>
      if q c then (String c (span q s').1, (span q s').2) else (EmptyString, s)
  | EmptyString => (EmptyString, EmptyString)
  end.

(** The character before the position reached after reading [a]. *)
Fixpoint lastOr (p : option ascii) (a : string) : option ascii :=
  match a with
  | EmptyString => p
  | String c a' => lastOr (Some c) a'
  end.

(** Every character of [s] is in the class [q]. *)
Fixpoint allOf (q : ascii -> bool) (s : string) : bool :=
  match s with
  | EmptyString => true
  | String c s' => q c && allOf q s'
  end.

Definition nextIs (q : ascii -> bool) (s : string) : bool :=
  match s with
  | String c _ => q c
  | EmptyString => false
  end.

Lemma span_all q s : allOf q (span q s).1 = true.
Proof.
  induction s as [|c s IH]; [done|]. simpl. destruct (q c) eqn:E; [|done].
  simpl. by rewrite E.
Qed.

Lemma span_next q s : nextIs q (span q s).2 = false.
Proof.
  induction s as [|c s IH]; [done|]. simpl. by destruct (q c) eqn:E.
Qed.

Lemma span_exact q w t :
  allOf q w = true -> nextIs q t = false -> span q (w +:+ t) = (w, t).
Proof.
  intros Hw Ht. induction w as [|c w IH].
  - rewrite append_nil. destruct t as [|d t]; [done|]. simpl in *. by rewrite Ht.
  - rewrite append_cons. simpl in *. apply andb_true_iff in Hw as [-> Hw].
    by rewrite (IH Hw).
Qed.

Lemma span_append q s : (span q s).1 +:+ (span q s).2 = s.
Proof.
  induction s as [|c s IH]; [done|]. simpl. destruct (q c); [|done].
  simpl. by rewrite append_cons, IH.
Qed.

Lemma span_length q s :
  String.length s = String.length (span q s).1 + String.length (span q s).2.
Proof.
  induction s as [|c s IH]; [done|]. simpl. destruct (q c); simpl; [|done].
  by rewrite IH.
Qed.

(** A greedy run of one class followed by [\b], begun after a word
    character: only the longest run can end at a boundary. *)
Lemma run_boundary (q : ascii -> bool) cs :
  (forall c, q c = true -> JS.isWord c = true) ->
  forall fuel p s,
    isWordAt p = true -> String.length s <= fuel ->
    flat_map (matches WordB) (iterate (matches (Cls q)) true fuel (mkState p s cs))
    = if isWordAt (next (span q s).2) then []
      else [mkState (lastOr p (span q s).1) (span q s).2 cs].
Proof.
  intros Hq. induction fuel as [|fuel IH]; intros p s Hp Hlen.
  - destruct s; [|simpl in Hlen; lia]. simpl. by rewrite Hp.
  - destruct s as [|c s].
    + simpl. by rewrite Hp.
    + cbn [iterate matches rest caps span]. destruct (q c) eqn:Hc.
      * cbn [List.filter rest String.length].
        assert (Hlt : Nat.ltb (String.length s) (S (String.length s)) = true)
          by (apply Nat.ltb_lt; lia).
        rewrite Hlt. cbn [flat_map]. rewrite app_nil_r, flat_map_app.
        rewrite IH; [|by apply Hq|simpl in Hlen; lia].
        cbn [flat_map matches prev rest next fst snd lastOr].
        rewrite Hp. cbn [isWordAt]. rewrite (Hq c Hc). cbn [xorb app].
        by rewrite !app_nil_r.
      * cbn [List.filter flat_map app matches prev rest next fst snd lastOr].
        rewrite Hp. cbn [isWordAt].
        destruct (JS.isWord c); cbn [xorb]; by rewrite ?app_nil_r.
Qed.
Lemma matches_seq a b st : matches (Seq a b) st = flat_map (matches b) (matches a st).
Proof. reflexivity. Qed.

Lemma matches_cls q p c s cs :
  matches (Cls q) (mkState p (String c s) cs)
  = if q c then [mkState (Some c) s cs] else [].
Proof. reflexivity. Qed.

Lemma matches_cls_end q p cs : matches (Cls q) (mkState p "" cs) = [].
Proof. reflexivity. Qed.

Lemma matches_boundary st :
  matches WordB st
  = if xorb (isWordAt (prev st)) (isWordAt (next (rest st))) then [st] else [].
Proof. reflexivity. Qed.

Lemma matches_group i a st :
  matches (Group i a) st
  = map (fun st' => mkState (prev st') (rest st') ((i, consumed st st') :: caps st'))
        (matches a st).
Proof. reflexivity. Qed.

Lemma matches_star g a st :
  matches (Star g a) st = iterate (matches a) g (String.length (rest st)) st.
Proof. reflexivity. Qed.

Lemma flat_map_one {A B} (f : A -> list B) x : flat_map f [x] = f x.
Proof. simpl. by rewrite app_nil_r. Qed.

Lemma boundary_map (f : state -> state) l :
  (forall st, prev (f st) = prev st /\ rest (f st) = rest st) ->
  flat_map (matches WordB) (map f l) = map f (flat_map (matches WordB) l).
Proof.
  intros Hf. induction l as [|st l IH]; [done|].
  cbn [map flat_map]. rewrite map_app, IH. f_equal.
  cbn [matches]. destruct (Hf st) as [-> ->].
  by destruct (xorb _ _).
Qed.
End RegexFacts.

Section DependencyFacts.
Import Regex Extract.

Lemma isUpperDigit_word c : isUpperDigit c = true -> JS.isWord c = true.
Proof.
  unfold isUpperDigit, JS.isWord.
  destruct (JS.isUpper c), (JS.isLower c), (JS.isDigit c), (Ascii.eqb c "_"); done.
Qed.

Lemma isUpper_word c : JS.isUpper c = true -> JS.isWord c = true.
Proof. unfold JS.isWord. by intros ->. Qed.

(** The match of the dependency expression at one position. *)
Definition tokenAt (p : option ascii) (s : string) : option found :=
  match s with
  | String c s' =>
      if negb (isWordAt p) && JS.isUpper c
         && negb (String.eqb (span isUpperDigit s').1 "")
         && negb (isWordAt (next (span isUpperDigit s').2))
      then Some (mkFound (String c (span isUpperDigit s').1)
                         [(1, String c (span isUpperDigit s').1)])
      else None
  | EmptyString => None
  end.

Lemma matchAt_dependency p s : matchAt dependencyRe p s = tokenAt p s.
Proof.
  unfold matchAt, dependencyRe, Plus. cbn [seq].
  rewrite matches_seq, matches_boundary. cbn [prev rest].
  destruct s as [|c s]; cbn [tokenAt next].
  { destruct (xorb _ _); [|done].
    by rewrite flat_map_one, matches_seq, matches_group, matches_seq, matches_cls_end. }
  destruct (JS.isUpper c) eqn:Hc.
  2:{ rewrite andb_false_r.
      destruct (xorb _ _); [|done].
      by rewrite flat_map_one, matches_seq, matches_group, matches_seq, matches_cls, Hc. }
  cbn [isWordAt]. rewrite (isUpper_word c Hc), andb_true_r.
  destruct (isWordAt p); cbn [xorb negb andb]; [done|].
  rewrite flat_map_one, matches_seq, matches_group, matches_seq, matches_cls, Hc.
  rewrite flat_map_one, matches_seq.
  destruct s as [|d s]; [done|].
  rewrite matches_cls. cbn [span]. destruct (isUpperDigit d) eqn:Hd; [|done].
  rewrite flat_map_one, matches_star, boundary_map by done. cbn [rest].
  rewrite run_boundary;
    [|exact isUpperDigit_word|by apply isUpperDigit_word|done].
  cbn [fst snd].
  change (String.eqb (String d (span isUpperDigit s).1) "") with false.
  cbn [negb andb].
  destruct (isWordAt (next (span isUpperDigit s).2)); [done|].
  cbn [map prev rest caps]. unfold consumed. cbn [rest].
  assert (Htext : String.substring 0
            (String.length (String c (String d s))
             - String.length (span isUpperDigit s).2) (String c (String d s))
          = String c (String d (span isUpperDigit s).1)).
  { rewrite <- (span_append isUpperDigit s) at 1 3.
    apply (substring_prefix (String c (String d (span isUpperDigit s).1))). }
  by rewrite Htext.
Qed.
(** The tokens recognised in one pass over the input. *)
Definition depsOf (l : list (ascii + found)) : list string :=
  omap (group 1)
       (omap (fun t => match t with inr m => Some m | inl _ => None end) l).

Lemma depsOf_app l1 l2 : depsOf (l1 ++ l2) = depsOf l1 ++ depsOf l2.
Proof. unfold depsOf. by rewrite !omap_app. Qed.

Lemma depsOf_inl (w : string) :
  depsOf (map inl (list_ascii_of_string w)) = [].
Proof. by induction w. Qed.

(** The characters of a match are passed over. *)
Lemma scan_skip r (a t : string) : forall p,
  scan r p (String.length a) (a +:+ t) = scan r (lastOr p a) 0 t.
Proof.
  induction a as [|c a IH]; intros p; [by rewrite append_nil|].
  rewrite append_cons. cbn [String.length scan lastOr]. apply IH.
Qed.

Lemma lastOr_word p w :
  allOf JS.isWord w = true -> isWordAt p = true -> isWordAt (lastOr p w) = true.
Proof.
  revert p. induction w as [|c w IH]; intros p Hw Hp; [done|].
  simpl in *. apply andb_true_iff in Hw as [Hc Hw]. by apply IH.
Qed.

(** Inside a word no token begins. *)
Lemma scan_inside (w t : string) : forall p,
  allOf JS.isWord w = true -> isWordAt p = true ->
  scan dependencyRe p 0 (w +:+ t)
  = map inl (list_ascii_of_string w) ++ scan dependencyRe (lastOr p w) 0 t.
Proof.
  induction w as [|c w IH]; intros p Hw Hp; [by rewrite append_nil|].
  rewrite append_cons. simpl in Hw. apply andb_true_iff in Hw as [Hc Hw].
  cbn [scan]. rewrite matchAt_dependency. cbn [tokenAt]. rewrite Hp.
  cbn [negb andb list_ascii_of_string map app lastOr]. f_equal.
  by apply IH.
Qed.

(** The maximal runs of word characters of a text, from left to right;
    [cur] is the run being read. *)
Fixpoint wordsFrom (cur : string) (s : string) : list string :=
  match s with
  | EmptyString => if String.eqb cur "" then [] else [cur]
  | String c s' =>
      if JS.isWord c then wordsFrom (cur +:+ String c "") s'
      else (if String.eqb cur "" then [] else [cur]) ++ wordsFrom "" s'
  end.

Definition wordsOf (s : string) : list string := wordsFrom "" s.

(** An upper-case letter followed by upper-case letters, digits and
    underscores. *)
Definition upperSnake (t : string) : bool :=
  match t with
  | String c t' => JS.isUpper c && allOf isUpperDigit t'
  | EmptyString => false
  end.

Lemma wordsFrom_word (w t : string) : forall cur,
  allOf JS.isWord w = true -> wordsFrom cur (w +:+ t) = wordsFrom (cur +:+ w) t.
Proof.
  induction w as [|c w IH]; intros cur Hw.
  - by rewrite append_nil, append_empty_r.
  - rewrite append_cons. simpl in *. apply andb_true_iff in Hw as [-> Hw].
    rewrite (IH _ Hw), append_assoc. done.
Qed.

Lemma wordsFrom_end c w t :
  nextIs JS.isWord t = false ->
  wordsFrom (String c w) t = String c w :: wordsFrom "" t.
Proof.
  destruct t as [|d t]; [done|]. simpl. by intros ->.
Qed.

Lemma nextIs_word s : nextIs JS.isWord s = isWordAt (next s).
Proof. by destruct s. Qed.

Lemma nextIs_upperDigit s :
  nextIs JS.isWord s = false -> nextIs isUpperDigit s = false.
Proof.
  destruct s as [|c s]; [done|]. simpl. intros H.
  destruct (isUpperDigit c) eqn:E; [|done]. by rewrite (isUpperDigit_word c E) in H.
Qed.

Lemma allOf_word w : allOf isUpperDigit w = true -> allOf JS.isWord w = true.
Proof.
  induction w as [|c w IH]; [done|]. simpl. intros H.
  apply andb_true_iff in H as [Hc Hw]. by rewrite (isUpperDigit_word c Hc), IH.
Qed.

(** The tokens found are the words of the right shape with two
    characters or more. *)
Lemma scan_words (n : nat) : forall s p,
  String.length s <= n ->
  isWordAt p && nextIs JS.isWord s = false ->
  depsOf (scan dependencyRe p 0 s)
  = List.filter (fun t => upperSnake t && Nat.leb 2 (String.length t))
                (wordsFrom "" s).
Proof.
  induction n as [|n IH]; intros s p Hlen Hpos.
  { destruct s; [|simpl in Hlen; lia]. cbn [scan]. by rewrite matchAt_dependency. }
  destruct s as [|c s].
  { cbn [scan]. by rewrite matchAt_dependency. }
  cbn [String.length] in Hlen. cbn [nextIs] in Hpos.
  destruct (JS.isWord c) eqn:Hc.
  2:{ (* not in a word *)
      cbn [scan wordsFrom]. rewrite matchAt_dependency. cbn [tokenAt].
      assert (Hup : JS.isUpper c = false).
      { destruct (JS.isUpper c) eqn:E; [|done]. by rewrite (isUpper_word c E) in Hc. }
      rewrite Hup, andb_false_r, Hc. cbn [andb String.eqb app].
      change (depsOf (inl c :: ?l)) with (depsOf l).
      apply IH; [lia|]. cbn [isWordAt]. by rewrite Hc. }
  (* the first character of a word *)
  rewrite andb_true_r in Hpos.
  pose proof (span_append JS.isWord s) as Hs.
  pose proof (span_all JS.isWord s) as Hw.
  pose proof (span_next JS.isWord s) as Ht.
  pose proof (span_length JS.isWord s) as Hl.
  destruct (span JS.isWord s) as [w t]. cbn [fst snd] in *. subst s.
  assert (Hwords : wordsFrom "" (String c (w +:+ t)) = String c w :: wordsFrom "" t).
  { cbn [wordsFrom]. rewrite Hc, append_nil.
    rewrite (wordsFrom_word w t _ Hw). by apply wordsFrom_end. }
  rewrite Hwords. cbn [List.filter].
  assert (Htail : forall p', depsOf (scan dependencyRe p' 0 t)
            = List.filter (fun t => upperSnake t && Nat.leb 2 (String.length t))
                          (wordsFrom "" t)).
  { intros p'. apply IH; [lia|]. by rewrite Ht, andb_false_r. }
  cbn [scan]. rewrite matchAt_dependency. cbn [tokenAt]. rewrite Hpos.
  cbn [negb andb].
  destruct (JS.isUpper c && negb (String.eqb (span isUpperDigit (w +:+ t)).1 "")
            && negb (isWordAt (next (span isUpperDigit (w +:+ t)).2))) eqn:Hm.
  - (* a token *)
    apply andb_true_iff in Hm as [Hm Hb]. apply andb_true_iff in Hm as [Hup Hne].
    apply negb_true_iff in Hb. rewrite <- nextIs_word in Hb.
    pose proof (span_append isUpperDigit (w +:+ t)) as Hs'.
    pose proof (span_all isUpperDigit (w +:+ t)) as Hw'.
    destruct (span isUpperDigit (w +:+ t)) as [run tail]. cbn [fst snd] in *.
    assert (Heq : (w, t) = (run, tail)).
    { rewrite <- (span_exact JS.isWord w t Hw Ht).
      rewrite <- Hs'. apply span_exact; [by apply allOf_word|done]. }
    injection Heq as -> ->.
    cbn [m_text String.length]. 
    destruct run as [|d run]; [done|].
    rewrite scan_skip.
    change (depsOf (inr ?m :: ?l)) with (String c (String d run) :: depsOf l).
    rewrite Htail. cbn [upperSnake String.length Nat.leb].
    by rewrite Hup, Hw'.
  - (* no token: the word has another shape *)
    change (depsOf (inl c :: ?l)) with (depsOf l).
    rewrite scan_inside; [|done|by cbn [isWordAt]].
    rewrite depsOf_app, depsOf_inl, Htail. cbn [app].
    assert (Hbad : upperSnake (String c w) && Nat.leb 2 (String.length (String c w))
                   = false).
    { destruct (upperSnake (String c w) && Nat.leb 2 (String.length (String c w)))
        eqn:Hgood; [|done].
      apply andb_true_iff in Hgood as [Hshape Hlong]. cbn [upperSnake] in Hshape.
      apply andb_true_iff in Hshape as [Hup Hall].
      rewrite (span_exact isUpperDigit w t Hall (nextIs_upperDigit t Ht)) in Hm.
      cbn [fst snd] in Hm. rewrite Hup, <- nextIs_word, Ht in Hm.
      destruct w; [done|]. done. }
    by rewrite Hbad.
Qed.

Lemma findDependencies_words value :
  findDependencies value
  = List.filter (fun t => upperSnake t && Nat.leb 2 (String.length t))
                (wordsOf value).
Proof.
  unfold findDependencies, matchAll, wordsOf.
  apply (scan_words (String.length value)); done.
Qed.
End DependencyFacts.


(** * Facts about the constants document *)

Section EmitFacts.
Import Emit.

Lemma categorizeConstant_groupOrder name : categorizeConstant name ∈ groupOrder.
Proof.
  unfold categorizeConstant.
  repeat match goal with
         | |- context [if ?b then _ else _] => destruct b
         end;
    apply list_elem_of_In; simpl; tauto.
Qed.

Lemma groupOrder_NoDup : NoDup groupOrder.
Proof. apply (bool_decide_unpack _). by vm_compute. Qed.

Lemma split_app {X} (l1 l2 pre : list X) x post :
  l1 ++ l2 = pre ++ x :: post ->
  (exists post1, l1 = pre ++ x :: post1)
  \/ (exists pre2, pre = l1 ++ pre2 /\ l2 = pre2 ++ x :: post).
Proof.
  intros H. apply app_eq_app in H as [l [[-> H]|[-> H]]].
  - destruct l as [|y l]; simpl in H.
    + right. exists []. by rewrite !app_nil_r.
    + injection H as <- ->. left. by exists l.
  - right. by exists l.
Qed.

(** The position of the first occurrence of [g] in [l] (the length of
    [l] when there is none). *)
Fixpoint rankIn (g : string) (l : list string) : nat :=
  match l with
  | [] => 0
  | x :: l' => if String.eqb x g then 0 else S (rankIn g l')
  end.

(** The position in [groupOrder] of the category of the constant
    [name]: the groups of the document are written in this order. *)
Definition groupRank (name : string) : nat :=
  rankIn (categorizeConstant name) groupOrder.

Definition inGroup (g : string) (c : Constant) : Prop :=
  categorizeConstant (c_name c) = g.

#[local] Instance inGroup_dec g c : Decision (inGroup g c).
Proof. unfold inGroup. apply _. Defined.

Lemma groupConstants_lookup sorted g :
  default [] (groupConstants sorted !! g) = filter (inGroup g) sorted.
Proof.
  induction sorted as [|x l IH] using rev_ind.
  - unfold groupConstants. simpl. by rewrite lookup_empty.
  - unfold groupConstants in *. rewrite foldl_snoc, filter_app. cbv zeta.
    destruct (decide (categorizeConstant (c_name x) = g)) as [E|E].
    + rewrite E, lookup_insert_eq. simpl. rewrite IH.
      rewrite filter_cons_True by done. done.
    + rewrite lookup_insert_ne by done. rewrite IH.
      rewrite filter_cons_False by done. by rewrite app_nil_r.
Qed.

Lemma emittedGroups_flat sorted :
  flat_map snd (emittedGroups sorted)
  = flat_map (fun g => filter (inGroup g) sorted) groupOrder.
Proof.
  unfold emittedGroups. cbv zeta. induction groupOrder as [|g gs IH]; [done|].
  cbn [flat_map]. rewrite flat_map_app, IH. f_equal.
  rewrite <- groupConstants_lookup.
  destruct (groupConstants sorted !! g) as [[|c l]|]; simpl; try done.
  by rewrite app_nil_r.
Qed.

Lemma emitted_elem_of sorted c :
  c ∈ flat_map snd (emittedGroups sorted) <-> c ∈ sorted.
Proof.
  rewrite emittedGroups_flat, list_elem_of_In, in_flat_map. split.
  - intros (g & _ & Hc). apply list_elem_of_In, list_elem_of_filter in Hc. tauto.
  - intros Hc. exists (categorizeConstant (c_name c)). split.
    + apply list_elem_of_In, categorizeConstant_groupOrder.
    + apply list_elem_of_In, list_elem_of_filter. by split.
Qed.





End EmitFacts.
(** * Facts about the scan of a text and the parameters of a routine *)

Section ScanFacts.
Import Regex.

Lemma iterate_last step g fuel st : iterate step g fuel st <> [].
Proof.
  destruct fuel as [|fuel]; [done|]. cbn [iterate]. destruct g; [|done].
  intros H. by apply app_eq_nil in H as [_ ?].
Qed.

(** A match never ends before the position at which it began. *)
Lemma iterate_le step :
  (forall st st', st' ∈ step st ->
                  String.length (rest st') <= String.length (rest st)) ->
  forall g fuel st st',
    st' ∈ iterate step g fuel st ->
    String.length (rest st') <= String.length (rest st).
Proof.
  intros Hstep g fuel. induction fuel as [|fuel IH]; intros st st' H.
  - apply list_elem_of_singleton in H as ->. done.
  - cbn [iterate] in H.
    assert (Hmore : forall x,
      x ∈ flat_map (iterate step g fuel)
            (List.filter (fun st' => Nat.ltb (String.length (rest st'))
                                             (String.length (rest st))) (step st)) ->
      String.length (rest x) <= String.length (rest st)).
    { intros x Hx. apply list_elem_of_In, in_flat_map in Hx as (mid & Hmid & Hx).
      apply filter_In in Hmid as [Hmid _].
      apply list_elem_of_In in Hmid, Hx. apply Hstep in Hmid. apply IH in Hx. lia. }
    destruct g.
    + apply elem_of_app in H as [H|H]; [by apply Hmore|].
      apply list_elem_of_singleton in H as ->. done.
    + apply elem_of_cons in H as [->|H]; [done|by apply Hmore].
Qed.

Lemma matches_le r : forall st st',
  st' ∈ matches r st -> String.length (rest st') <= String.length (rest st).
Proof.
  induction r as [q| |a IHa b IHb|a IHa b IHb|g a IHa|i a IHa| | |];
    intros st st' H; cbn [matches] in H.
  - destruct (rest st) as [|c s] eqn:E; [by apply elem_of_nil in H|].
    destruct (q c); [|by apply elem_of_nil in H].
    apply list_elem_of_singleton in H as ->. simpl. lia.
  - apply list_elem_of_singleton in H as ->. done.
  - apply list_elem_of_In, in_flat_map in H as (mid & Hmid & H).
    apply list_elem_of_In in Hmid, H. apply IHa in Hmid. apply IHb in H. lia.
  - apply elem_of_app in H as [H|H]; [by apply IHa|by apply IHb].
  - by apply (iterate_le _ IHa) in H.
  - apply list_elem_of_fmap in H as (mid & -> & H). simpl. by apply IHa.
  - destruct (prev st); [by apply elem_of_nil in H|].
    apply list_elem_of_singleton in H as ->. done.
  - destruct (rest st) eqn:E; [|by apply elem_of_nil in H].
    apply list_elem_of_singleton in H as ->. by rewrite E.
  - destruct (xorb _ _); [|by apply elem_of_nil in H].
    apply list_elem_of_singleton in H as ->. done.
Qed.

Lemma substring_length (s : string) : forall n,
  n <= String.length s -> String.length (String.substring 0 n s) = n.
Proof.
  induction s as [|c s IH]; intros n Hn.
  - simpl in Hn. by replace n with 0 by lia.
  - destruct n as [|n]; [done|]. simpl in *. rewrite IH; lia.
Qed.

Lemma consumed_length st st' :
  String.length (rest st') <= String.length (rest st) ->
  String.length (consumed st st')
  = String.length (rest st) - String.length (rest st').
Proof. intros H. unfold consumed. apply substring_length. lia. Qed.

(** The head of a list of successes is one of them. *)
Lemma matchAt_found r p s m :
  matchAt r p s = Some m ->
  exists st', st' ∈ matches r (mkState p s []) /\ m_text m = consumed (mkState p s []) st'.
Proof.
  unfold matchAt. destruct (matches r (mkState p s [])) as [|st' l] eqn:E; [done|].
  intros [= <-]. exists st'. split; [by left|done].
Qed.

(** The characters that a pass leaves between the matches are
    characters of the text. *)
Lemma scan_inl_chars r (Q : ascii -> bool) s : forall p skip,
  allOf Q s = true ->
  Forall (fun t => match t with inl c => Q c = true | inr _ => True end)
         (scan r p skip s).
Proof.
  induction s as [|c s IH]; intros p skip Hs.
  - simpl. destruct skip; [|done]. destruct (matchAt r p ""); by repeat constructor.
  - simpl in Hs. apply andb_true_iff in Hs as [Hc Hs]. cbn [scan].
    destruct skip as [|k]; [|by apply IH].
    destruct (matchAt r p (String c s)) as [m|].
    + destruct (String.length (m_text m)); repeat constructor; try done; by apply IH.
    + constructor; [done|by apply IH].
Qed.

(** Where the expression matches some text at every position that
    begins with a character outside [Q], the characters between the
    matches are all in [Q]. *)
Lemma scan_inl_class r (Q : ascii -> bool) :
  (forall p c s, Q c = false ->
     exists m, matchAt r p (String c s) = Some m /\ String.length (m_text m) <> 0) ->
  forall s p skip,
    Forall (fun t => match t with inl c => Q c = true | inr _ => True end)
           (scan r p skip s).
Proof.
  intros Hr. induction s as [|c s IH]; intros p skip.
  - simpl. destruct skip; [|done]. destruct (matchAt r p ""); by repeat constructor.
  - cbn [scan]. destruct skip as [|k]; [|by apply IH].
    destruct (Q c) eqn:Hc.
    + destruct (matchAt r p (String c s)) as [m|].
      * destruct (String.length (m_text m)); repeat constructor; try done; by apply IH.
      * constructor; [done|by apply IH].
    + destruct (Hr p c s Hc) as (m & -> & Hlen).
      destruct (String.length (m_text m)); [done|]. constructor; [done|by apply IH].
Qed.

(** The pieces between the matches are made of those characters. *)
Lemma pieces_all (Q : ascii -> bool) l : forall cur,
  Forall (fun t => match t with inl c => Q c = true | inr _ => True end) l ->
  allOf Q cur = true ->
  Forall (fun piece => allOf Q piece = true) (pieces cur l).
Proof.
  assert (Hsnoc : forall cur c, allOf Q cur = true -> Q c = true ->
                                allOf Q (cur +:+ String c "") = true).
  { intros cur c. induction cur as [|d cur IH]; simpl.
    - by intros _ ->.
    - intros H Hc. apply andb_true_iff in H as [-> H]. by apply IH. }
  induction l as [|t l IH]; intros cur Hl Hcur; cbn [pieces].
  - by constructor.
  - apply Forall_cons in Hl as [Ht Hl]. destruct t as [c|m].
    + apply IH; [done|by apply Hsnoc].
    + constructor; [done|]. by apply IH.
Qed.

Lemma allOf_app (Q : ascii -> bool) (a b : string) :
  allOf Q (a +:+ b) = allOf Q a && allOf Q b.
Proof.
  induction a as [|c a IH]; [done|].
  rewrite append_cons. simpl. by rewrite IH, andb_assoc.
Qed.

Lemma allOf_concat (Q : ascii -> bool) sep (l : list string) :
  allOf Q sep = true ->
  Forall (fun t => allOf Q t = true) l ->
  allOf Q (String.concat sep l) = true.
Proof.
  intros Hsep. induction 1 as [|x l Hx Hl IH]; [done|].
  destruct l as [|y l]; [done|].
  change (String.concat sep (x :: y :: l))
    with (x +:+ sep +:+ String.concat sep (y :: l)).
  by rewrite !allOf_app, Hx, Hsep, IH.
Qed.
End ScanFacts.

Section ParamFacts.
Import Regex Extract.

Definition noStar (c : ascii) : bool := negb (Ascii.eqb c "*").
Definition notSpace (c : ascii) : bool := negb (JS.isSpace c).
(** Neither a star nor white space. *)
Definition plain (c : ascii) : bool := noStar c && notSpace c.

Lemma matches_space p c s cs :
  matches space (mkState p (String c s) cs)
  = if JS.isSpace c then [mkState (Some c) s cs] else [].
Proof. reflexivity. Qed.

Lemma matches_chr a p c s cs :
  matches (Chr a) (mkState p (String c s) cs)
  = if Ascii.eqb a c then [mkState (Some c) s cs] else [].
Proof. reflexivity. Qed.

Lemma starRe_matches p c s :
  noStar c = false ->
  exists m, matchAt starRe p (String c s) = Some m /\ String.length (m_text m) <> 0.
Proof.
  intros Hc. apply negb_false_iff, Ascii.eqb_eq in Hc as ->.
  unfold matchAt, starRe. cbn [seq].
  rewrite matches_seq, matches_star. cbn [rest String.length iterate].
  rewrite matches_space. change (JS.isSpace "*") with false. cbn [List.filter flat_map app].
  rewrite matches_seq, matches_chr. change (Ascii.eqb "*" "*") with true.
  cbv iota. rewrite flat_map_one, app_nil_r, matches_star. cbn [rest].
  set (st1 := mkState (Some "*"%char) s []).
  destruct (iterate (matches space) true (String.length s) st1) as [|st' l] eqn:E.
  { by apply iterate_last in E. }
  eexists. split; [done|]. cbn [m_text].
  assert (Hle : String.length (rest st') <= String.length (rest st1)).
  { apply (iterate_le (matches space) (matches_le space) true (String.length s)).
    rewrite E. by left. }
  rewrite consumed_length; simpl in *; lia.
Qed.

Lemma spacesRe_matches p c s :
  notSpace c = false ->
  exists m, matchAt spacesRe p (String c s) = Some m /\ String.length (m_text m) <> 0.
Proof.
  intros Hc. apply negb_false_iff in Hc.
  unfold matchAt, spacesRe, Plus.
  rewrite matches_seq, matches_space, Hc, flat_map_one.
  rewrite matches_star. cbn [rest].
  set (st1 := mkState (Some c) s []).
  destruct (iterate (matches space) true (String.length s) st1) as [|st' l] eqn:E.
  { by apply iterate_last in E. }
  eexists. split; [done|]. cbn [m_text].
  assert (Hle : String.length (rest st') <= String.length (rest st1)).
  { apply (iterate_le (matches space) (matches_le space) true (String.length s)).
    rewrite E. by left. }
  rewrite consumed_length; simpl in *; lia.
Qed.

(** The text in which every star, with the white space around it, is
    replaced by a space holds no star. *)
Lemma replace_stars_noStar (s : string) :
  allOf noStar (replaceAll starRe (fun _ => " ") s) = true.
Proof.
  unfold replaceAll. apply allOf_concat; [done|].
  apply Forall_fmap.
  eapply Forall_impl; [apply (scan_inl_class starRe noStar starRe_matches)|].
  intros [c|m] H; simpl; [by rewrite H|done].
Qed.

(** The words of a parameter hold neither a star nor white space and
    are not empty. *)
Lemma partsOf_plain (param : string) :
  Forall (fun part => allOf plain part = true /\ part <> "") (partsOf param).
Proof.
  unfold partsOf. apply Forall_forall. intros part Hpart.
  apply list_elem_of_In, filter_In in Hpart as [Hpart Hne].
  split; [|by intros ->]. clear Hne. apply list_elem_of_In in Hpart.
  revert part Hpart. apply (proj1 (Forall_forall _ _)). unfold splitRe.
  apply pieces_all; [|done].
  set (text := replaceAll starRe (fun _ => " ") (dropConst param)).
  pose proof (scan_inl_chars spacesRe noStar text None 0
                (replace_stars_noStar (dropConst param))) as H1.
  pose proof (scan_inl_class spacesRe notSpace spacesRe_matches text None 0) as H2.
  apply Forall_forall. intros t Ht.
  apply (proj1 (Forall_forall _ _) H1) in Ht as Ht1.
  apply (proj1 (Forall_forall _ _) H2) in Ht as Ht2.
  destruct t as [c|m]; [|done]. unfold plain. by rewrite Ht1, Ht2.
Qed.

Lemma allOf_impl (P Q : ascii -> bool) (s : string) :
  (forall c, P c = true -> Q c = true) -> allOf P s = true -> allOf Q s = true.
Proof.
  intros HPQ. induction s as [|c s IH]; [done|]. simpl. intros H.
  apply andb_true_iff in H as [Hc Hs]. rewrite (HPQ c Hc). by apply IH.
Qed.

Lemma removelast_elem_of {A} (l : list A) x : x ∈ removelast l -> x ∈ l.
Proof.
  induction l as [|a l IH]; [done|]. simpl.
  destruct l as [|b l]; [intros H; by apply elem_of_nil in H|].
  intros H. apply elem_of_cons in H as [->|H]; [by left|right; by apply IH].
Qed.

Lemma last_elem_of {A} (l : list A) d : l <> [] -> List.last l d ∈ l.
Proof.
  induction l as [|a l IH]; [done|]. intros _. destruct l as [|b l]; [by left|].
  right. by apply IH.
Qed.
(** Every class of the expression accepts characters of [Q] only. *)
Fixpoint classes (Q : ascii -> bool) (r : re) : Prop :=
  match r with
  | Cls q => forall c, q c = true -> Q c = true
  | Seq a b | Alt a b => classes Q a /\ classes Q b
  | Star _ a | Group _ a => classes Q a
  | Eps | Bos | Eos | WordB => True
  end.

Definition reads (Q : ascii -> bool) (st st' : state) : Prop :=
  exists w, rest st = w +:+ rest st' /\ allOf Q w = true.

Lemma reads_refl Q st : reads Q st st.
Proof. by exists "". Qed.

Lemma reads_trans Q st1 st2 st3 :
  reads Q st1 st2 -> reads Q st2 st3 -> reads Q st1 st3.
Proof.
  intros (w1 & E1 & H1) (w2 & E2 & H2). exists (w1 +:+ w2).
  split; [by rewrite E1, E2, append_assoc|]. by rewrite allOf_app, H1, H2.
Qed.

Lemma iterate_reads Q step :
  (forall st st', st' ∈ step st -> reads Q st st') ->
  forall g fuel st st', st' ∈ iterate step g fuel st -> reads Q st st'.
Proof.
  intros Hstep g fuel. induction fuel as [|fuel IH]; intros st st' H.
  - apply list_elem_of_singleton in H as ->. apply reads_refl.
  - cbn [iterate] in H.
    assert (Hmore : forall x,
      x ∈ flat_map (iterate step g fuel)
            (List.filter (fun st' => Nat.ltb (String.length (rest st'))
                                             (String.length (rest st))) (step st)) ->
      reads Q st x).
    { intros x Hx. apply list_elem_of_In, in_flat_map in Hx as (mid & Hmid & Hx).
      apply filter_In in Hmid as [Hmid _].
      apply list_elem_of_In in Hmid, Hx.
      eapply reads_trans; [by apply Hstep|by apply IH]. }
    destruct g.
    + apply elem_of_app in H as [H|H]; [by apply Hmore|].
      apply list_elem_of_singleton in H as ->. apply reads_refl.
    + apply elem_of_cons in H as [->|H]; [apply reads_refl|by apply Hmore].
Qed.

(** The text that a match consumes is made of characters that the
    classes of the expression accept. *)
Lemma matches_reads Q r : classes Q r ->
  forall st st', st' ∈ matches r st -> reads Q st st'.
Proof.
  induction r as [q| |a IHa b IHb|a IHa b IHb|g a IHa|i a IHa| | |];
    intros Hr st st' H; cbn [matches classes] in *.
  - destruct (rest st) as [|c s] eqn:E; [by apply elem_of_nil in H|].
    destruct (q c) eqn:Hc; [|by apply elem_of_nil in H].
    apply list_elem_of_singleton in H as ->. exists (String c "").
    split; [by rewrite E|]. simpl. by rewrite (Hr c Hc).
  - apply list_elem_of_singleton in H as ->. apply reads_refl.
  - destruct Hr as [Ha Hb].
    apply list_elem_of_In, in_flat_map in H as (mid & Hmid & H).
    apply list_elem_of_In in Hmid, H.
    eapply reads_trans; [by apply IHa|by apply IHb].
  - destruct Hr as [Ha Hb].
    apply elem_of_app in H as [H|H]; [by apply IHa|by apply IHb].
  - by apply (iterate_reads Q _ (IHa Hr)) in H.
  - apply list_elem_of_fmap in H as (mid & -> & H).
    destruct (IHa Hr st mid H) as (w & E & Hw). by exists w.
  - destruct (prev st); [by apply elem_of_nil in H|].
    apply list_elem_of_singleton in H as ->. apply reads_refl.
  - destruct (rest st) eqn:E; [|by apply elem_of_nil in H].
    apply list_elem_of_singleton in H as ->. apply reads_refl.
  - destruct (xorb _ _); [|by apply elem_of_nil in H].
    apply list_elem_of_singleton in H as ->. apply reads_refl.
Qed.

Lemma substring_suffix (w t : string) :
  String.substring (String.length w) (String.length (w +:+ t) - String.length w)
                   (w +:+ t) = t.
Proof.
  rewrite length_append.
  replace (String.length w + String.length t - String.length w)
    with (String.length t) by lia.
  induction w as [|c w IH].
  - rewrite append_nil. simpl. clear. induction t as [|c t IH]; [done|].
    simpl. by rewrite IH.
  - exact IH.
Qed.

Lemma includes_star (s : string) : JS.includes s "*" = negb (allOf noStar s).
Proof.
  induction s as [|c s IH]; [done|].
  cbn [JS.includes allOf]. rewrite IH.
  change (noStar c) with (negb (Ascii.eqb c "*")).
  destruct (Ascii.eqb_spec c "*") as [->|Hc].
  - by destruct s.
  - cbn [negb andb String.prefix]. by destruct (ascii_dec "*" c) as [<-|_].
Qed.

Lemma isSpace_noStar c : JS.isSpace c = true -> noStar c = true.
Proof.
  unfold noStar. destruct (Ascii.eqb_spec c "*") as [->|_]; [|done].
  by vm_compute.
Qed.

Lemma constRe_classes : classes noStar constRe.
Proof.
  unfold constRe. cbn [seq Lit classes Plus Chr].
  repeat split; try exact isSpace_noStar;
    intros c Hc; apply Ascii.eqb_eq in Hc as <-; done.
Qed.

Lemma constRe_inside c s : matchAt constRe (Some c) s = None.
Proof. reflexivity. Qed.

Lemma replaceFirst_inside rep (s : string) : forall c,
  replaceFirst_ constRe rep (Some c) s = s.
Proof.
  induction s as [|d s IH]; intros c; cbn [replaceFirst_];
    rewrite constRe_inside; [done|]. by rewrite IH.
Qed.

Lemma replaceFirst_found r rep p s m :
  matchAt r p s = Some m ->
  replaceFirst_ r rep p s
  = rep +:+ String.substring (String.length (m_text m))
                             (String.length s - String.length (m_text m)) s.
Proof. intros H. destruct s; cbn [replaceFirst_]; by rewrite H. Qed.

(** Taking a leading [const] away neither adds nor removes a star. *)
Lemma dropConst_star (param : string) :
  JS.includes (dropConst param) "*" = JS.includes param "*".
Proof.
  unfold dropConst, replaceFirst.
  destruct (matchAt constRe None param) as [m|] eqn:E.
  - rewrite (replaceFirst_found _ _ _ _ _ E).
    apply matchAt_found in E as (st' & Hst' & Htext).
    destruct (matches_reads noStar constRe constRe_classes _ _ Hst')
      as (w & Hw & Hplain). cbn [rest] in Hw.
    unfold consumed in Htext. cbn [rest] in Htext. subst param.
    rewrite substring_prefix in Htext. rewrite Htext.
    by rewrite substring_suffix, append_nil, !includes_star, allOf_app, Hplain.
  - destruct param as [|c s]; cbn [replaceFirst_]; rewrite E; [done|].
    by rewrite replaceFirst_inside.
Qed.
End ParamFacts.


(** * The program and the text agree *)

Section RenderFacts.
Import Cfg Synth Wrapper.

Lemma num_literals :
  JS.num 0 = "0" /\ JS.num 1 = "1" /\ JS.num 2 = "2" /\ JS.num 3 = "3"
  /\ JS.num 4 = "4" /\ JS.num 5 = "5" /\ JS.num 6 = "6" /\ JS.num 7 = "7"
  /\ JS.num 8 = "8" /\ JS.num 10 = "10" /\ JS.num 13 = "13"
  /\ JS.num 20 = "20" /\ JS.num 50 = "50".
Proof. by vm_compute. Qed.

(** Both sides become right-nested appends whose literal parts are
    spelled out character by character. *)
Ltac norm_text :=
  repeat match goal with
         | |- context [JS.num (Npos ?p)] =>
             let H := fresh in
             assert (H : JS.num (Npos p) = ltac:(let v := eval vm_compute in (JS.num (Npos p)) in exact v))
               by (vm_compute; reflexivity);
             rewrite H; clear H
         | |- context [JS.num 0%N] => change (JS.num 0%N) with "0"
         end;
  rewrite ?append_assoc; lazy beta iota delta [String.append].

Lemma getOutputSize_render t : getOutputSize t = renderSize (outputSize t).
Proof. destruct t; simpl; try done; by norm_text. Qed.

Lemma renderBlock_app indent a b :
  renderBlock indent (a ++ b) = renderBlock indent a ++ renderBlock indent b.
Proof. unfold renderBlock. by rewrite flat_map_app, map_app. Qed.

Lemma allocPlan_render outputs inputStrings :
  allocations (allocPlan outputs inputStrings)
    = flat_map renderStmt (allocStmts (allocProgram outputs inputStrings))
  /\ frees (allocPlan outputs inputStrings)
    = flat_map renderStmt (freeStmts (allocProgram outputs inputStrings))
  /\ outputReads (allocPlan outputs inputStrings)
    = reads (allocProgram outputs inputStrings).
Proof.
  unfold allocPlan, allocProgram.
  set (R := fun (P : AllocPlan) (A : AllocStmts) =>
              allocations P = flat_map renderStmt (allocStmts A)
              /\ frees P = flat_map renderStmt (freeStmts A)
              /\ outputReads P = reads A).
  assert (H0 : R (mkPlan [] [] []) (mkAllocStmts [] [] [])) by done.
  assert (H1 : forall l P A, R P A -> R (foldl planOutput P l) (foldl stmtsOutput A l)).
  { induction l as [|[n t] l IH]; intros P A (Ha & Hf & Hr); [done|].
    simpl. apply IH. unfold R; simpl.
    rewrite !flat_map_app, Ha, Hf, Hr. simpl.
    rewrite getOutputSize_render. done. }
  assert (H2 : forall l P A, R P A ->
              R (foldl planInputString P l) (foldl stmtsInputString A l)).
  { induction l as [|n l IH]; intros P A (Ha & Hf & Hr); [done|].
    simpl. apply IH. unfold R; simpl.
    rewrite !flat_map_app, Ha, Hf, Hr. done. }
  apply H2, H1, H0.
Qed.

Lemma firstSome_map {A B} (f : A -> B) (l : list (option A)) (d : A) :
  firstSome (map (option_map f) l) (f d) = f (firstSome l d).
Proof. induction l as [|[a|] l IH]; simpl; done. Qed.

Lemma componentLines_render indent l :
  componentLines indent l = renderBlock indent [SReturnObject (componentFields l)].
Proof.
  unfold componentLines, renderBlock, componentFields. simpl.
  rewrite app_nil_r, map_app, !map_map. simpl. f_equal. f_equal.
  apply map_ext. intros o. unfold readFn.
  destruct (String.eqb (tag (r_type o)) "int32"); simpl; by norm_text.
Qed.

Ltac shape_case :=
  repeat match goal with
         | |- context [resultIs ?c ?r] => destruct (resultIs c r)
         | |- context [List.find ?f ?l] => destruct (List.find f l)
         | |- context [findRead ?p ?l] => destruct (findRead p l)
         end;
  simpl; try reflexivity;
  rewrite ?componentLines_render; try reflexivity;
  unfold renderBlock; simpl; norm_text; reflexivity.

Lemma shapeLines_render reads nonErr config indent :
  shapeLines reads nonErr config indent
  = map (option_map (renderBlock indent)) (shapeStmts reads nonErr config).
Proof.
  unfold shapeLines, shapeStmts. cbn [map].
  repeat (apply (f_equal2 cons); [shape_case|]). reflexivity.
Qed.

Lemma fieldLine_render indent l :
  flat_map (fieldLine indent) l
  = map (fun f => indent +:+ "  " +:+ fst (fst f) +:+ ": "
                  +:+ renderExpr (snd (fst f)) +:+ "," +:+ snd f)
        (flat_map fieldOf l).
Proof.
  induction l as [|o l IH]; [done|].
  cbn [flat_map]. rewrite map_app, IH. f_equal.
  unfold fieldLine, fieldOf. destruct (r_type o); simpl; try done;
    f_equal; by norm_text.
Qed.

Lemma buildReturnValue_render reads config returnType indent :
  buildReturnValue reads config returnType indent
  = renderBlock indent (buildReturnStmts reads config returnType).
Proof.
  unfold buildReturnValue, buildReturnStmts. cbv zeta.
  set (nonErr := List.filter (fun o => negb (isError (r_type o))) reads).
  destruct nonErr as [|o [|o' l]]; cbn [isEmpty].
  - destruct returnType; unfold renderBlock; simpl; try done; by norm_text.
  - rewrite shapeLines_render.
    rewrite <- (firstSome_map (renderBlock indent) _ (singleStmts o)).
    apply (f_equal (firstSome _)).
    unfold singleLines, singleStmts, renderBlock.
    destruct (r_type o); simpl; try done; by norm_text.
  - rewrite shapeLines_render.
    rewrite <- (firstSome_map (renderBlock indent) _
                  [SReturnObject (flat_map fieldOf (o :: o' :: l))]).
    apply (f_equal (firstSome _)).
    generalize (o :: o' :: l). intros l'.
    unfold renderBlock. cbn [flat_map renderStmt].
    rewrite app_nil_r, !map_app, map_map, fieldLine_render.
    reflexivity.
Qed.

Definition isAllocStmt (s : stmt) : bool :=
  match s with SMalloc _ _ | SAllocString _ _ => true | _ => false end.

Definition isFreeStmt (s : stmt) : bool :=
  match s with SFree _ => true | _ => false end.

Lemma allocProgram_shape outputs inputStrings :
  Forall (fun s => isAllocStmt s = true)
         (allocStmts (allocProgram outputs inputStrings))
  /\ Forall (fun s => isFreeStmt s = true)
            (freeStmts (allocProgram outputs inputStrings)).
Proof.
  unfold allocProgram.
  set (R := fun A : AllocStmts =>
              Forall (fun s => isAllocStmt s = true) (allocStmts A)
              /\ Forall (fun s => isFreeStmt s = true) (freeStmts A)).
  assert (H0 : R (mkAllocStmts [] [] [])) by (split; constructor).
  assert (H1 : forall l A, R A -> R (foldl stmtsOutput A l)).
  { induction l as [|[n t] l IH]; intros A [Ha Hf]; [done|].
    simpl. apply IH. split; simpl; apply Forall_app; split; try done;
      by repeat constructor. }
  assert (H2 : forall l A, R A -> R (foldl stmtsInputString A l)).
  { induction l as [|n l IH]; intros A [Ha Hf]; [done|].
    simpl. apply IH. split; simpl; apply Forall_app; split; try done;
      by repeat constructor. }
  apply H2, H1, H0.
Qed.

Lemma isEmpty_render_allocs l :
  Forall (fun s => isAllocStmt s = true) l ->
  isEmpty (flat_map renderStmt l) = isEmpty l.
Proof.
  intros H. destruct H as [|s l Hs _]; [done|].
  by destruct s.
Qed.

Lemma callArg_render outputs inputStrings p :
  callArg outputs inputStrings p = renderArg (callArgOf outputs inputStrings p).
Proof.
  unfold callArg, callArgOf.
  destruct (hasOutput outputs (p_name p)); [done|].
  destruct (isInputString inputStrings (p_name p)); [done|].
  by destruct (String.eqb (p_name p) "hsys").
Qed.

(** Printing the program built by [wrapperProgram] gives the lines that
    [generateWrapperFunction] emits. *)
Theorem render_wrapperProgram fn config :
  render (wrapperProgram fn config) = generateWrapperFunction fn config.
Proof.
  unfold render, wrapperProgram, generateWrapperFunction. cbv zeta.
  cbn [prog_head prog_params prog_allocs prog_guarded prog_body prog_frees].
  destruct (allocPlan_render (outputsOf config) (inputStringsOf config))
    as (Ha & Hf & Hr).
  destruct (allocProgram_shape (outputsOf config) (inputStringsOf config))
    as (Sa & Sf).
  rewrite Ha, Hf, Hr, (isEmpty_render_allocs _ Sa).
  set (A := allocProgram (outputsOf config) (inputStringsOf config)).
  rewrite <- !app_assoc. f_equal. f_equal. f_equal.
  assert (Hbody : forall indent,
    renderBlock indent
      ([SCall match returnTypeOf config with RVoid => false | _ => true end
              (fd_name fn)
              (map (callArgOf (outputsOf config) (inputStringsOf config))
                   (fd_params fn))]
       ++ match returnTypeOf config with
          | RCheckNegative | RCheckError =>
              match List.find (fun o => isError (r_type o)) (reads A) with
              | Some errorRead => [SCheckNegative (r_varName errorRead)]
              | None => []
              end
          | _ => []
          end
       ++ buildReturnStmts (reads A) config (returnTypeOf config))
    = [match returnTypeOf config with
       | RVoid => indent +:+ "raw." +:+ fd_name fn +:+ "("
                  +:+ JS.join ", " (map (callArg (outputsOf config) (inputStringsOf config))
                                        (fd_params fn)) +:+ ");"
       | _ => indent +:+ "const ret = raw." +:+ fd_name fn +:+ "("
              +:+ JS.join ", " (map (callArg (outputsOf config) (inputStringsOf config))
                                    (fd_params fn)) +:+ ");"
       end]
      ++ match returnTypeOf config with
         | RCheckNegative | RCheckError =>
             match List.find (fun o => isError (r_type o)) (reads A) with
             | Some errorRead =>
                 [indent +:+ "if (ret < 0) {";
                  indent +:+ "  const errMsg = mem.getString(" +:+ r_varName errorRead +:+ ");";
                  indent +:+ "  throw new Error(errMsg || " +:+ Wrapper.quote
                         +:+ Wrapper.fallbackMessage +:+ Wrapper.quote +:+ ");";
                  indent +:+ "}"]
             | None => []
             end
         | _ => []
         end
      ++ buildReturnValue (reads A) config (returnTypeOf config) indent).
  { intros indent. rewrite !renderBlock_app, buildReturnValue_render.
    f_equal; [|f_equal].
    - unfold renderBlock. simpl. rewrite map_map.
      rewrite (map_ext _ _ (callArg_render (outputsOf config) (inputStringsOf config))).
      destruct (returnTypeOf config); f_equal; by norm_text.
    - destruct (returnTypeOf config); try done;
        destruct (List.find _ (reads A)); try done;
        unfold renderBlock; simpl; by norm_text. }
  destruct (isEmpty (allocStmts A)); cbn [negb]; rewrite Hbody.
  - by rewrite <- !app_assoc.
  - by rewrite <- !app_assoc.
Qed.
End RenderFacts.

(** * Facts about the execution of wrappers *)

Section ExecFacts.
Import Cfg Synth Wrapper.
Context {W : Type} (rt : Runtime W).

#[local] Abbreviation M := (@Wrapper.M W).

(** [emits P m]: whatever [m] adds to the trace satisfies [P]. *)
Definition emits (P : event -> Prop) {A} (m : M A) : Prop :=
  forall st r st', m st = (r, st') ->
    exists evs, snd st' = snd st ++ evs /\ Forall P evs.

Lemma emits_ret P {A} (a : A) : emits P (ret a).
Proof.
  intros st r st' [= <- <-]. exists []. by rewrite app_nil_r.
Qed.

Lemma emits_raise P {A} e : emits P (@raise W A e).
Proof.
  intros st r st' [= <- <-]. exists []. by rewrite app_nil_r.
Qed.

Lemma emits_lift P {A} (r : answer A) : emits P (@lift W A r).
Proof.
  intros st r' st' [= <- <-]. exists []. by rewrite app_nil_r.
Qed.

Lemma emits_world P : emits P (@world W).
Proof.
  intros st r st' [= <- <-]. exists []. by rewrite app_nil_r.
Qed.

Lemma emits_setWorld P w : emits P (@setWorld W w).
Proof.
  intros st r st' [= <- <-]. exists []. by rewrite app_nil_r.
Qed.

Lemma emits_emit (P : event -> Prop) ev : P ev -> emits P (@emit W ev).
Proof.
  intros H st r st' [= <- <-]. exists [ev]. split; [done|]. by constructor.
Qed.

Lemma emits_bind P {A B} (m : M A) (k : A -> M B) :
  emits P m -> (forall a, emits P (k a)) -> emits P (bind m k).
Proof.
  intros Hm Hk st r st' H. unfold bind in H.
  destruct (m st) as [[a|e|] st1] eqn:E; destruct (Hm _ _ _ E) as (ev1 & E1 & F1).
  - destruct (Hk a _ _ _ H) as (ev2 & E2 & F2).
    exists (ev1 ++ ev2). split; [by rewrite E2, E1, app_assoc|].
    by apply Forall_app.
  - injection H as <- <-. by exists ev1.
  - injection H as <- <-. by exists ev1.
Qed.

Ltac emits_step :=
  first
    [ apply emits_ret | apply emits_raise | apply emits_lift
    | apply emits_world | apply emits_setWorld
    | apply emits_emit; done
    | apply emits_bind; [|intros ?]
    | match goal with
      | |- emits _ (match ?x with _ => _ end) => destruct x
      | |- emits _ (if ?x then _ else _) => destruct x
      | |- emits _ (let '(_, _) := ?x in _) => destruct x
      end ].

(** An event that is neither an allocation, done or attempted, nor a
    release. *)
Definition quietEvent (ev : event) : Prop :=
  match ev with
  | EvMalloc _ _ | EvAllocString _ _ | EvAllocStringTrap _ _ | EvFree _ => False
  | _ => True
  end.

Definition allocEvent (ev : event) : Prop :=
  match ev with EvMalloc _ _ | EvAllocString _ _ => True | _ => False end.

Definition freeEvent (ev : event) : Prop :=
  match ev with EvFree _ => True | _ => False end.




Lemma getVar_quiet x ρ : emits quietEvent (getVar x ρ).
Proof. unfold getVar, unbound. repeat emits_step. Qed.

Lemma getPtr_quiet v ρ : emits quietEvent (getPtr v ρ).
Proof. unfold getPtr. emits_step; [apply getVar_quiet|]. repeat emits_step. Qed.

Lemma getArr_quiet x ρ : emits quietEvent (getArr x ρ).
Proof. unfold getArr. emits_step; [apply getVar_quiet|]. repeat emits_step. Qed.

Lemma evalArgs_quiet ρ l : emits quietEvent (evalArgs ρ l).
Proof.
  induction l as [|a l IH]; simpl; [apply emits_ret|].
  emits_step.
  - destruct a; simpl; [apply getVar_quiet|].
    emits_step; [apply getVar_quiet|]. repeat emits_step.
  - emits_step; [apply IH|apply emits_ret].
Qed.

Lemma evalExpr_quiet ρ e : emits quietEvent (evalExpr rt ρ e).
Proof.
  destruct e; simpl;
    try (apply getVar_quiet);
    try (emits_step; [apply getArr_quiet|apply emits_ret]);
    (emits_step; [apply getPtr_quiet|]);
    unfold getInt32, getFloat64, getString, getFloat64Array;
    repeat emits_step.
Qed.

Lemma evalFields_quiet {T} ρ (name : T -> string) (e : T -> expr) l :
  emits quietEvent (evalFields rt ρ name e l).
Proof.
  induction l as [|f l IH]; simpl; [apply emits_ret|].
  emits_step; [apply evalExpr_quiet|].
  emits_step; [apply IH|apply emits_ret].
Qed.

Lemma readInt32s_quiet p n : emits quietEvent (readInt32s rt p n).
Proof.
  revert p. induction n as [|n IH]; intros p; simpl; [apply emits_ret|].
  emits_step; [unfold getInt32; repeat emits_step|].
  emits_step; [apply IH|apply emits_ret].
Qed.

Definition isMemStmt (s : stmt) : bool := isAllocStmt s || isFreeStmt s.

Lemma execStmt_quiet ρ s :
  isMemStmt s = false -> emits quietEvent (execStmt rt ρ s).
Proof.
  destruct s; simpl; try discriminate; intros _.
  - emits_step; [apply evalArgs_quiet|].
    emits_step; [unfold call; repeat emits_step|apply emits_ret].
  - emits_step; [apply getVar_quiet|].
    destruct a; try apply emits_ret.
    destruct (PrimFloat.ltb x 0); [|apply emits_ret].
    emits_step; [apply getPtr_quiet|].
    emits_step; [unfold getString; repeat emits_step|apply emits_raise].
  - emits_step; [apply evalExpr_quiet|apply emits_ret].
  - apply emits_ret.
  - emits_step; [apply getPtr_quiet|].
    emits_step; [apply readInt32s_quiet|apply emits_ret].
  - emits_step; [apply evalExpr_quiet|apply emits_ret].
  - emits_step; [apply evalFields_quiet|apply emits_ret].
  - emits_step; [apply evalFields_quiet|apply emits_ret].
Qed.

Lemma execStmts_quiet l : forall ρ,
  forallb (fun s => negb (isMemStmt s)) l = true ->
  emits quietEvent (execStmts rt ρ l).
Proof.
  induction l as [|s l IH]; intros ρ H; simpl; [apply emits_ret|].
  simpl in H. apply andb_true_iff in H as [Hs Hl].
  apply negb_true_iff in Hs.
  emits_step; [by apply execStmt_quiet|].
  destruct a; [by apply IH|apply emits_ret].
Qed.

(** ** The allocation plan in closed form *)

Definition ptrVar (n : string) : string := n +:+ "Ptr".

Definition mallocOf (e : string * OutputType) : stmt :=
  SMalloc (ptrVar (fst e)) (outputSize (snd e)).

Definition allocStringOf (n : string) : stmt := SAllocString (ptrVar n) n.

Definition readOf (e : string * OutputType) : OutputRead :=
  mkRead (fst e) (snd e) (ptrVar (fst e)).

(** The names whose pointer constants the wrapper declares, in order. *)
Definition allocNames (config : FunctionConfig) : list string :=
  map fst (outputsOf config) ++ inputStringsOf config.

Lemma allocProgram_eq outputs inputStrings :
  allocProgram outputs inputStrings
  = mkAllocStmts (map mallocOf outputs ++ map allocStringOf inputStrings)
                 (map (fun n => SFree (ptrVar n)) (map fst outputs ++ inputStrings))
                 (map readOf outputs).
Proof.
  unfold allocProgram.
  assert (H1 : forall l A,
    foldl stmtsOutput A l
    = mkAllocStmts (allocStmts A ++ map mallocOf l)
                   (freeStmts A ++ map (fun n => SFree (ptrVar n)) (map fst l))
                   (reads A ++ map readOf l)).
  { induction l as [|[n t] l IH]; intros A; simpl.
    - rewrite !app_nil_r. by destruct A.
    - rewrite IH. simpl. by rewrite <- !app_assoc. }
  assert (H2 : forall l A,
    foldl stmtsInputString A l
    = mkAllocStmts (allocStmts A ++ map allocStringOf l)
                   (freeStmts A ++ map (fun n => SFree (ptrVar n)) l)
                   (reads A)).
  { induction l as [|n l IH]; intros A; simpl.
    - rewrite !app_nil_r. by destruct A.
    - rewrite IH. simpl. by rewrite <- !app_assoc. }
  rewrite H2, H1. simpl. by rewrite map_app.
Qed.

(** ** Environments *)

Lemma lookup_cons x y v (ρ : env) :
  lookup x ((y, v) :: ρ) = if String.eqb y x then Some v else lookup x ρ.
Proof. unfold lookup. simpl. by destruct (String.eqb y x). Qed.

Lemma lookup_bindParams x params args :
  x ∈ params -> is_Some (lookup x (bindParams params args)).
Proof.
  revert args. induction params as [|y params IH]; intros args Hx.
  - by apply elem_of_nil in Hx.
  - simpl. rewrite lookup_cons. destruct (String.eqb y x) eqn:E; [by eexists|].
    apply IH. apply elem_of_cons in Hx as [->|Hx]; [|done].
    by rewrite String.eqb_refl in E.
Qed.

(** The environment after the allocations: the constants [vars] hold the
    addresses [ps], the latest declaration first. *)
Definition bindPtrs (ρ : env) (vars : list string) (ps : list N) : env :=
  rev (zip vars (VPtr <$> ps)) ++ ρ.

Lemma bindPtrs_cons ρ v vars p ps :
  bindPtrs ρ (v :: vars) (p :: ps) = bindPtrs ((v, VPtr p) :: ρ) vars ps.
Proof. unfold bindPtrs. simpl. by rewrite <- app_assoc. Qed.

Lemma lookup_bindPtrs_other ρ vars : forall ps x,
  x ∉ vars -> lookup x (bindPtrs ρ vars ps) = lookup x ρ.
Proof.
  revert ρ. induction vars as [|v vars IH]; intros ρ ps x Hx; [done|].
  destruct ps as [|p ps]; [done|].
  rewrite bindPtrs_cons, IH by set_solver. rewrite lookup_cons.
  destruct (String.eqb v x) eqn:E; [|done].
  apply String.eqb_eq in E. set_solver.
Qed.

Lemma lookup_bindPtrs ρ vars : forall ps i v p,
  NoDup vars -> vars !! i = Some v -> ps !! i = Some p ->
  lookup v (bindPtrs ρ vars ps) = Some (VPtr p).
Proof.
  revert ρ. induction vars as [|v0 vars IH]; intros ρ ps i v p Hnd Hv Hp; [done|].
  destruct ps as [|p0 ps]; [by destruct i|].
  rewrite bindPtrs_cons. apply NoDup_cons in Hnd as [Hn Hnd].
  destruct i as [|i]; simpl in *.
  - injection Hv as ->. injection Hp as ->.
    rewrite lookup_bindPtrs_other by done.
    by rewrite lookup_cons, String.eqb_refl.
  - by eapply IH.
Qed.

Lemma lookup_bindPtrs_some ρ vars ps x :
  is_Some (lookup x ρ) -> is_Some (lookup x (bindPtrs ρ vars ps)).
Proof.
  revert ρ ps. induction vars as [|v vars IH]; intros ρ ps Hx; [done|].
  destruct ps as [|p ps]; [done|].
  rewrite bindPtrs_cons. apply IH. rewrite lookup_cons.
  by destruct (String.eqb v x).
Qed.

(** ** The allocation phase *)

Definition allocVar (s : stmt) : string :=
  match s with
  | SMalloc v _ | SAllocString v _ => v
  | _ => ""
  end.

(** The events of the allocation statements [l] run from [ρ], when the
    allocator answers with the addresses [ps]. *)
Fixpoint allocEvents (ρ : env) (l : list stmt) (ps : list N) : list event :=
  match l, ps with
  | SMalloc v size :: l', p :: ps' =>
      EvMalloc (evalSize size) p :: allocEvents ((v, VPtr p) :: ρ) l' ps'
  | SAllocString v param :: l', p :: ps' =>
      EvAllocString (default VUndef (lookup param ρ)) p
      :: allocEvents ((v, VPtr p) :: ρ) l' ps'
  | _, _ => []
  end.

Lemma allocEvents_spec l : forall ρ ps,
  Forall (fun s => isAllocStmt s = true) l ->
  length ps = length l ->
  allocated (allocEvents ρ l ps) = ps
  /\ freed (allocEvents ρ l ps) = []
  /\ Forall allocEvent (allocEvents ρ l ps)
  /\ length (allocEvents ρ l ps) = length l.
Proof.
  induction l as [|s l IH]; intros ρ ps Hl Hlen.
  - by destruct ps.
  - destruct ps as [|p ps]; [done|]. apply Forall_cons in Hl as [Hs Hl].
    injection Hlen as Hlen.
    destruct s; try discriminate; simpl;
      destruct (IH ((v, VPtr p) :: ρ) ps Hl Hlen) as (A & F & E & L);
      unfold allocated, freed in *; simpl; rewrite A, F, L;
      (split; [done|split; [done|split; [by constructor|done]]]).
Qed.

(** The allocation statements either all answer, or stop at the first
    [mem.allocString] that throws or does not come back: the [k]
    statements before it have answered, nothing is released. *)
Lemma exec_allocs l : forall ρ w tr,
  Forall (fun s => isAllocStmt s = true) l ->
  (forall v param, SAllocString v param ∈ l -> is_Some (lookup param ρ)) ->
  (exists ps w',
    length ps = length l
    /\ execStmts rt ρ l (w, tr)
       = (Val (Next (bindPtrs ρ (map allocVar l) ps)),
          (w', tr ++ allocEvents ρ l ps)))
  \/ (exists k v param ps a w',
        l !! k = Some (SAllocString v param) /\ length ps = k
        /\ ((exists msg,
               execStmts rt ρ l (w, tr)
               = (Raise (RuntimeError msg),
                  (w', tr ++ allocEvents ρ (take k l) ps
                          ++ [EvAllocStringTrap a msg])))
            \/ execStmts rt ρ l (w, tr)
               = (Hang, (w', tr ++ allocEvents ρ (take k l) ps)))).
Proof.
  induction l as [|s l IH]; intros ρ w tr Hl Hpar.
  - left. exists [], w. split; [done|]. simpl. by rewrite app_nil_r.
  - apply Forall_cons in Hl as [Hs Hl]. destruct s; try discriminate.
    + cbn [execStmts execStmt]. unfold bind at 1.
      unfold malloc, bind, world, setWorld, emit, ret. simpl.
      destruct (rt_malloc rt (evalSize size) w) as [p w1] eqn:E. simpl.
      destruct (IH ((v, VPtr p) :: ρ) w1 (tr ++ [EvMalloc (evalSize size) p]))
        as [(ps & w' & Hlen & Hrun)
           |(k & v' & param & ps & a & w' & Hk & Hlen & Hrun)]; [done| | |].
      { intros v' param Hin. rewrite lookup_cons.
        destruct (String.eqb v param); [by eexists|].
        eapply Hpar. by right. }
      * left. exists (p :: ps), w'. split; [by simpl; rewrite Hlen|].
        rewrite Hrun, bindPtrs_cons. simpl. by rewrite <- app_assoc.
      * right. exists (S k), v', param, (p :: ps), a, w'.
        split; [done|]. split; [by simpl; rewrite Hlen|].
        destruct Hrun as [[msg Hrun]|Hrun]; [left; exists msg|right];
          rewrite Hrun; simpl; by rewrite <- !app_assoc.
    + cbn [execStmts execStmt]. unfold bind at 1. unfold bind at 1.
      destruct (Hpar v param) as [a Ha]; [by left|].
      unfold getVar. rewrite Ha. unfold ret at 1.
      unfold allocString, bind, world, setWorld, emit, lift, raise, ret. simpl.
      destruct (rt_allocString rt a w) as [[p|msg|] w1] eqn:E; simpl.
      * destruct (IH ((v, VPtr p) :: ρ) w1 (tr ++ [EvAllocString a p]))
          as [(ps & w' & Hlen & Hrun)
             |(k & v' & param' & ps & a' & w' & Hk & Hlen & Hrun)]; [done| | |].
        { intros v' param' Hin. rewrite lookup_cons.
          destruct (String.eqb v param'); [by eexists|].
          eapply Hpar. by right. }
        -- left. exists (p :: ps), w'. split; [by simpl; rewrite Hlen|].
           rewrite Hrun, bindPtrs_cons. simpl. rewrite Ha. simpl.
           by rewrite <- app_assoc.
        -- right. exists (S k), v', param', (p :: ps), a', w'.
           split; [done|]. split; [by simpl; rewrite Hlen|].
           destruct Hrun as [[msg Hrun]|Hrun]; [left; exists msg|right];
             rewrite Hrun; simpl; rewrite Ha; simpl; by rewrite <- !app_assoc.
      * right. exists 0%nat, v, param, [], a, w1. split; [done|]. split; [done|].
        left. by exists msg.
      * right. exists 0%nat, v, param, [], a, w1. split; [done|]. split; [done|].
        right. simpl. by rewrite app_nil_r.
Qed.

(** ** The release phase *)

Lemma exec_frees ρ vs : forall ps w tr,
  Forall2 (fun v p => lookup v ρ = Some (VPtr p)) vs ps ->
  execStmts rt ρ (map SFree vs) (w, tr)
  = (Val (Next ρ),
     (foldl (fun w p => rt_free rt p w) w ps, tr ++ map EvFree ps)).
Proof.
  induction vs as [|v vs IH]; intros ps w tr H.
  - apply Forall2_nil_inv_l in H as ->. simpl. by rewrite app_nil_r.
  - apply Forall2_cons_inv_l in H as (p & ps' & Hp & Hps & ->).
    simpl. unfold bind at 1. unfold bind at 1. unfold getPtr, bind, getVar.
    rewrite Hp. unfold ret at 1. unfold ret at 1.
    unfold free, bind, world, setWorld, emit, ret. simpl.
    rewrite (IH ps' _ _ Hps). simpl. by rewrite <- app_assoc.
Qed.

(** ** One invocation, phase by phase *)

(** The generated function is well formed: its pointer constants have
    distinct names, and every input string it encodes is one of the
    routine's parameters.  (A wrapper that declares a constant twice is
    rejected when the module is loaded; one that mentions a name that is
    not a parameter does not type-check.) *)
Definition wellScoped (fn : FunctionDecl) (config : FunctionConfig) : Prop :=
  NoDup (allocNames config)
  /\ forall s, s ∈ inputStringsOf config -> s ∈ map p_name (fd_params fn).

Lemma ptrVar_inj a b : ptrVar a = ptrVar b -> a = b.
Proof.
  unfold ptrVar. revert b. induction a as [|x a IH]; intros [|y b] H.
  - done.
  - apply (f_equal String.length) in H. rewrite !length_append in H.
    simpl in H. lia.
  - apply (f_equal String.length) in H. rewrite !length_append in H.
    simpl in H. lia.
  - change (String x (a +:+ "Ptr") = String y (b +:+ "Ptr")) in H.
    injection H as -> H. f_equal. by apply IH.
Qed.

Lemma NoDup_ptrVar l : NoDup l -> NoDup (map ptrVar l).
Proof.
  intros H. apply NoDup_fmap_2_strong; [|done].
  intros a b _ _. apply ptrVar_inj.
Qed.

Definition finish (c : result completion) : result jsval :=
  match c with
  | Val (Return v) => Val v
  | Val (Next _) => Val VUndef
  | Raise e => Raise e
  | Hang => Hang
  end.

Lemma hasOutput_false outputs x :
  x ∉ map fst outputs -> hasOutput outputs x = false.
Proof.
  intros H. unfold hasOutput. apply not_true_is_false. intros E.
  apply existsb_elem_of in E as (e & He & Hx). apply String.eqb_eq in Hx.
  apply H. apply list_elem_of_fmap. by exists e.
Qed.

Lemma wellScoped_params fn config s :
  wellScoped fn config -> s ∈ inputStringsOf config ->
  s ∈ prog_params (wrapperProgram fn config).
Proof.
  intros [Hnd Hin] Hs. simpl.
  apply list_elem_of_fmap. specialize (Hin s Hs).
  apply list_elem_of_fmap in Hin as (p & -> & Hp). exists p. split; [done|].
  apply list_elem_of_In, filter_In. split; [by apply list_elem_of_In|].
  rewrite hasOutput_false; [done|].
  unfold allocNames in Hnd. apply NoDup_app in Hnd as (_ & Hdis & _).
  intros Ho. by apply (Hdis _ Ho).
Qed.

(** An invocation that ends in the allocation phase: an input string
    could not be allocated.  All output buffers and possibly some input
    strings have been obtained before, [pre]; the error of
    [mem.allocString] is the result, or there is none when the call
    does not come back. *)
Definition allocationThrows {A} (config : FunctionConfig) (r : result A)
    (tr : list event) : Prop :=
  exists pre a,
    Forall allocEvent pre
    /\ length (outputsOf config) <= length pre
       < length (outputsOf config) + length (inputStringsOf config)
    /\ ((exists msg, r = Raise (RuntimeError msg)
                     /\ tr = pre ++ [EvAllocStringTrap a msg])
        \/ (r = Hang /\ tr = pre)).

Lemma allocationThrows_events {A} config (r : result A) tr ev :
  allocationThrows config r tr -> ev ∈ tr ->
  allocEvent ev \/ exists a msg, ev = EvAllocStringTrap a msg.
Proof.
  intros (pre & a & Hpre & _ & [(msg & _ & ->)|[_ ->]]) Hev.
  - apply elem_of_app in Hev as [Hev|Hev].
    + left. by apply (proj1 (Forall_forall _ _) Hpre).
    + apply list_elem_of_singleton in Hev as ->. right. by eexists _, _.
  - left. by apply (proj1 (Forall_forall _ _) Hpre).
Qed.

Lemma allocationThrows_no_call {A} config (r : result A) tr f a x :
  allocationThrows config r tr -> EvCall f a x ∉ tr.
Proof.
  intros H Hin. by destruct (allocationThrows_events _ _ _ _ H Hin) as [?|(? & ? & ?)].
Qed.

Lemma allocationThrows_result {A} config (r : result A) tr :
  allocationThrows config r tr ->
  (exists msg, r = Raise (RuntimeError msg)) \/ r = Hang.
Proof.
  intros (pre & a & _ & _ & [(msg & -> & _)|[-> _]]); [left; by exists msg|by right].
Qed.


Lemma invoke_run fn config args w :
  wellScoped fn config ->
  (exists r w1 tr,
     invoke rt (wrapperProgram fn config) args w = (r, (w1, tr))
     /\ allocationThrows config r tr)
  \/ exists ps w1,
    length ps = length (allocNames config)
    /\ invoke rt (wrapperProgram fn config) args w
       = match execStmts rt
                 (bindPtrs (bindParams (prog_params (wrapperProgram fn config)) args)
                           (map ptrVar (allocNames config)) ps)
                 (prog_body (wrapperProgram fn config))
                 (w1, allocEvents
                        (bindParams (prog_params (wrapperProgram fn config)) args)
                        (prog_allocs (wrapperProgram fn config)) ps) with
         | (Hang, st2) => (Hang, st2)
         | (c, (w2, tr2)) =>
             (finish c,
              (foldl (fun w p => rt_free rt p w) w2 ps, tr2 ++ map EvFree ps))
         end.
Proof.
  intros Hws. pose proof Hws as [Hnd Hin].
  set (prog := wrapperProgram fn config).
  set (ρ0 := bindParams (prog_params prog) args).
  assert (Hallocs : prog_allocs prog
                    = map mallocOf (outputsOf config)
                      ++ map allocStringOf (inputStringsOf config)).
  { unfold prog, wrapperProgram. cbv zeta. cbn [prog_allocs].
    by rewrite allocProgram_eq. }
  assert (Hfrees : prog_frees prog = map SFree (map ptrVar (allocNames config))).
  { unfold prog, wrapperProgram. cbv zeta. cbn [prog_frees].
    rewrite allocProgram_eq. cbn [freeStmts]. by rewrite map_map. }
  assert (Hvars : map allocVar (prog_allocs prog) = map ptrVar (allocNames config)).
  { rewrite Hallocs. unfold allocNames. rewrite !map_app, !map_map. done. }
  assert (Hshape : Forall (fun s => isAllocStmt s = true) (prog_allocs prog)).
  { rewrite Hallocs. apply Forall_app. split; apply Forall_forall;
      intros s Hs; apply list_elem_of_fmap in Hs as (? & -> & _); done. }
  assert (Hguard : prog_guarded prog = negb (isEmpty (prog_allocs prog))) by done.
  assert (Hpar : forall s, s ∈ inputStringsOf config -> s ∈ prog_params prog).
  { intros s Hs. by apply wellScoped_params. }
  clearbody prog.
  destruct (exec_allocs (prog_allocs prog) ρ0 w [] Hshape)
    as [(ps & w1 & Hlen & Hrun)
       |(k & v & param & ps & a & w1 & Hk & Hlen & Hrun)].
  { intros v param Hp. rewrite Hallocs in Hp. apply elem_of_app in Hp as [Hp|Hp];
      apply list_elem_of_fmap in Hp as (x & Hx & Hx'); [discriminate|].
    injection Hx as -> ->. apply lookup_bindParams. by apply Hpar. }
  2:{ (* an input string could not be allocated *)
    left.
    assert (Hshape' : Forall (fun s => isAllocStmt s = true) (take k (prog_allocs prog)))
      by by apply Forall_take.
    assert (Hklt : k < length (prog_allocs prog)) by by eapply lookup_lt_Some.
    destruct (allocEvents_spec _ ρ0 ps Hshape') as (_ & _ & Hpre & Hprelen).
    { rewrite length_take. lia. }
    rewrite length_take in Hprelen.
    assert (Hbounds : length (outputsOf config)
                      <= length (allocEvents ρ0 (take k (prog_allocs prog)) ps)
                      < length (outputsOf config) + length (inputStringsOf config)).
    { rewrite Hprelen.
      assert (Htot : length (prog_allocs prog)
                     = length (outputsOf config) + length (inputStringsOf config))
        by by rewrite Hallocs, length_app, !length_map.
      split; [|lia].
      destruct (decide (k < length (outputsOf config))) as [Hlt|]; [|lia].
      rewrite Hallocs, lookup_app_l in Hk by by rewrite length_map.
      apply list_lookup_fmap_Some in Hk as (? & ? & ?). discriminate. }
    unfold invoke, bind. fold ρ0.
    destruct Hrun as [[msg Hrun]|Hrun]; rewrite Hrun; cbn [app].
    - eexists _, _, _. split; [done|]. eexists _, a. split; [exact Hpre|].
      split; [exact Hbounds|]. left. by exists msg.
    - eexists _, _, _. split; [done|]. eexists _, a. split; [exact Hpre|].
      split; [exact Hbounds|]. by right. }
  right. exists ps, w1. split.
  { rewrite Hlen, <- (length_map allocVar), Hvars. by rewrite length_map. }
  rewrite Hvars in Hrun. cbn [app] in Hrun.
  unfold invoke, bind. fold ρ0. rewrite Hrun, Hguard.
  destruct (prog_allocs prog) as [|s l] eqn:Ea; cbn [isEmpty negb].
  - destruct ps; [|done]. simpl.
    match goal with
    | |- context [execStmts rt ?ρ (prog_body prog) ?st] =>
        destruct (execStmts rt ρ (prog_body prog) st) as [[[ρ'|v]|e|] [w2 tr2]]
    end; simpl; by rewrite ?app_nil_r.
  - rewrite <- Ea. unfold tryFinally. rewrite Hfrees.
    match goal with
    | |- context [execStmts rt ?ρ (prog_body prog) ?st] =>
        destruct (execStmts rt ρ (prog_body prog) st) as [c [w2 tr2]]
    end.
    rewrite (exec_frees _ _ ps).
    + by destruct c as [[ρ'|v]|e|].
    + apply Forall2_same_length_lookup_2.
      * rewrite length_map. rewrite Hlen, <- (length_map allocVar), Hvars.
        by rewrite length_map.
      * intros i v p Hv Hp. eapply lookup_bindPtrs; [|done|done].
        by apply NoDup_ptrVar.
Qed.

(** ** The body of a wrapper neither allocates nor releases *)

Lemma firstSome_forallb {A} (P : A -> bool) (l : list (option (list A))) d :
  Forall (fun o => forall a, o = Some a -> forallb P a = true) l ->
  forallb P d = true ->
  forallb P (firstSome l d) = true.
Proof.
  intros Hl Hd. induction Hl as [|o l Ho _ IH]; [done|].
  destruct o as [a|]; simpl; [by apply Ho|done].
Qed.

Ltac shape_forall :=
  repeat match goal with
         | |- context [resultIs ?c ?r] => destruct (resultIs c r)
         | |- context [List.find ?f ?l] => destruct (List.find f l)
         | |- context [findRead ?p ?l] => destruct (findRead p l)
         end;
  intros a [= <-]; reflexivity.

Lemma shapeStmts_forallb (P : stmt -> bool) reads nonErr config :
  (forall x e, P (SConst x e) = true) ->
  (forall f, P (SReturnObject f) = true) ->
  (forall f, P (SReturnInline f) = true) ->
  P SDefToPos = true ->
  Forall (fun o => forall a, o = Some a -> forallb P a = true)
         (shapeStmts reads nonErr config).
Proof.
  intros H1 H2 H3 H4. unfold shapeStmts.
  repeat (apply Forall_cons; split;
          [repeat match goal with
                  | |- context [resultIs ?c ?r] => destruct (resultIs c r)
                  | |- context [List.find ?f ?l] => destruct (List.find f l)
                  | |- context [findRead ?p ?l] => destruct (findRead p l)
                  end;
           intros a [= <-]; simpl; rewrite ?H1, ?H2, ?H3, ?H4; reflexivity|]).
  apply Forall_nil_2.
Qed.

Lemma buildReturnStmts_forallb (P : stmt -> bool) reads config returnType :
  (forall x e, P (SConst x e) = true) ->
  (forall f, P (SReturnObject f) = true) ->
  (forall f, P (SReturnInline f) = true) ->
  (forall e, P (SReturn e) = true) ->
  (forall v n, P (SInt32Array v n) = true) ->
  P SDefToPos = true ->
  forallb P (buildReturnStmts reads config returnType) = true.
Proof.
  intros H1 H2 H3 H4 H5 H6. unfold buildReturnStmts. cbv zeta.
  destruct (isEmpty _).
  { destruct returnType; simpl; by rewrite ?H4. }
  apply firstSome_forallb; [by apply shapeStmts_forallb|].
  destruct (List.filter _ reads) as [|o [|o' l]]; simpl; rewrite ?H2; try done.
  unfold singleStmts. destruct (r_type o); simpl; by rewrite ?H4, ?H5.
Qed.

Lemma wrapper_body_quiet fn config :
  forallb (fun s => negb (isMemStmt s)) (prog_body (wrapperProgram fn config)) = true.
Proof.
  unfold wrapperProgram. cbv zeta. cbn [prog_body].
  rewrite !forallb_app. apply andb_true_iff. split; [done|].
  apply andb_true_iff. split.
  - destruct (returnTypeOf config); try done; by destruct (List.find _ _).
  - by apply buildReturnStmts_forallb.
Qed.


Lemma wrapper_allocs_shape fn config :
  Forall (fun s => isAllocStmt s = true) (prog_allocs (wrapperProgram fn config))
  /\ length (prog_allocs (wrapperProgram fn config)) = length (allocNames config).
Proof.
  unfold wrapperProgram. cbv zeta. cbn [prog_allocs].
  split; [apply allocProgram_shape|].
  rewrite allocProgram_eq. cbn [allocStmts]. unfold allocNames.
  by rewrite !length_app, !length_map.
Qed.

(** ** The native call and the error check, step by step *)

Lemma getVar_pure x ρ (st : W * list event) :
  exists r, getVar x ρ st = (r, st) /\ r <> Hang.
Proof.
  unfold getVar, unbound, ret, raise. destruct (lookup x ρ); by eexists.
Qed.

Lemma evalArg_pure ρ a (st : W * list event) :
  exists r, evalArg ρ a st = (r, st) /\ r <> Hang.
Proof.
  destruct a; simpl; [apply getVar_pure|].
  unfold bind. destruct (getVar_pure "hsys" ρ st) as (r & -> & Hr).
  destruct r as [v|e|]; [|by eexists|done].
  destruct v; by eexists.
Qed.

Lemma evalArgs_pure ρ l (st : W * list event) :
  exists r, evalArgs ρ l st = (r, st) /\ r <> Hang.
Proof.
  induction l as [|a l (r & IH & Hr)]; simpl; [by eexists|].
  unfold bind. destruct (evalArg_pure ρ a st) as (ra & -> & Hra).
  destruct ra as [v|e|]; [|by eexists|done].
  rewrite IH. destruct r as [vs|e|]; [|by eexists|done]. by eexists.
Qed.

(** How the statement [[const ret =] raw.f(args);] and what follows it
    run. *)
Definition afterCall (ρ : env) (bind : bool) (f : string) (vs : list jsval)
    (rest : list stmt) (w : W) (tr : list event)
  : result completion * (W * list event) :=
  let '(a, w') := rt_call rt f vs w in
  match a with
  | Ans x => execStmts rt (if bind then ("ret", VNum x) :: ρ else ρ) rest
                       (w', tr ++ [EvCall f vs a])
  | Trap msg => (Raise (RuntimeError msg), (w', tr ++ [EvCall f vs a]))
  | Never => (Hang, (w', tr ++ [EvCall f vs a]))
  end.

Lemma exec_call ρ bind f args rest w tr :
  (exists vs, evalArgs ρ args (w, tr) = (Val vs, (w, tr))
              /\ execStmts rt ρ (SCall bind f args :: rest) (w, tr)
                 = afterCall ρ bind f vs rest w tr)
  \/ (exists e, execStmts rt ρ (SCall bind f args :: rest) (w, tr)
                = (Raise (ScriptError e), (w, tr))).
Proof.
  destruct (evalArgs_pure ρ args (w, tr)) as (r & Hr & Hn).
  destruct r as [vs|e|]; [left|right|done].
  - exists vs. split; [done|]. cbn [execStmts execStmt]. unfold Wrapper.bind at 1.
    unfold Wrapper.bind at 1. rewrite Hr. unfold afterCall.
    unfold Wrapper.bind at 1. unfold call, Wrapper.bind, world, setWorld, emit, lift, ret.
    simpl. destruct (rt_call rt f vs w) as [[x|msg|] w']; simpl; done.
  - assert (He : exists m, e = ScriptError m).
    { clear -Hr. revert e Hr. induction args as [|a args IH]; intros e Hr; [done|].
      simpl in Hr. unfold Wrapper.bind in Hr.
      destruct (evalArg ρ a (w, tr)) as [[v|e'|] st'] eqn:Ea.
      - destruct (evalArgs ρ args st') as [[vs|e'|] st''] eqn:Eas; simplify_eq/=.
        destruct (evalArg_pure ρ a (w, tr)) as (? & E' & _).
        rewrite Ea in E'. simplify_eq. by eapply IH.
      - simplify_eq. destruct a; simpl in Ea.
        + unfold getVar, unbound, raise, ret in Ea.
          destruct (lookup x ρ); simplify_eq. by eexists.
        + unfold Wrapper.bind, getVar, unbound, raise, ret in Ea.
          destruct (lookup "hsys" ρ) as [[]|]; simplify_eq. by eexists.
      - simplify_eq. }
    destruct He as [m ->]. exists m.
    cbn [execStmts execStmt]. unfold Wrapper.bind at 1. unfold Wrapper.bind at 1.
    by rewrite Hr.
Qed.

Definition checkOutcome (ans : answer string) : result completion :=
  match ans with
  | Ans msg => Raise (Failure (JS.orElse msg fallbackMessage))
  | Trap msg => Raise (RuntimeError msg)
  | Never => Hang
  end.

Lemma exec_check_negative ρ v rest x pe w tr :
  lookup "ret" ρ = Some (VNum x) ->
  PrimFloat.ltb x 0 = true ->
  lookup v ρ = Some (VPtr pe) ->
  execStmts rt ρ (SCheckNegative v :: rest) (w, tr)
  = (checkOutcome (rt_getString rt pe w),
     (w, tr ++ [EvGetString pe (rt_getString rt pe w)])).
Proof.
  intros Hret Hneg Hv. cbn [execStmts execStmt].
  unfold Wrapper.bind at 1. unfold Wrapper.bind at 1. unfold getVar. rewrite Hret.
  unfold ret at 1. rewrite Hneg.
  unfold Wrapper.bind at 1. unfold getPtr, Wrapper.bind, getVar. rewrite Hv.
  unfold ret at 1. unfold ret at 1.
  unfold getString, Wrapper.bind, world, emit, lift, raise, ret. simpl.
  by destruct (rt_getString rt pe w).
Qed.

Lemma allocEvents_lookup l : forall ρ ps k v size p,
  l !! k = Some (SMalloc v size) -> ps !! k = Some p ->
  (forall j s, l !! j = Some s -> isAllocStmt s = true) ->
  allocEvents ρ l ps !! k = Some (EvMalloc (evalSize size) p).
Proof.
  induction l as [|s l IH]; intros ρ ps k v size p Hl Hp Hshape; [done|].
  destruct ps as [|p0 ps]; [done|].
  destruct k as [|k]; simpl in *.
  - by simplify_eq.
  - assert (Hs : isAllocStmt s = true) by apply (Hshape 0 s eq_refl).
    destruct s; try discriminate; simpl; eapply IH; try done;
      intros j s' Hj; apply (Hshape (S j) s' Hj).
Qed.

(** ** Only the call statement talks to the native routine *)

Definition isCallStmt (s : stmt) : bool :=
  match s with SCall _ _ _ => true | _ => false end.

Definition noCallEvent (ev : event) : Prop :=
  match ev with
  | EvCall _ _ _ | EvMalloc _ _ | EvAllocString _ _ | EvAllocStringTrap _ _
  | EvFree _ => False
  | _ => True
  end.

Lemma getVar_reads x ρ : emits noCallEvent (getVar x ρ).
Proof. unfold getVar, unbound. repeat emits_step. Qed.

Lemma getPtr_reads v ρ : emits noCallEvent (getPtr v ρ).
Proof. unfold getPtr. emits_step; [apply getVar_reads|]. repeat emits_step. Qed.

Lemma getArr_reads x ρ : emits noCallEvent (getArr x ρ).
Proof. unfold getArr. emits_step; [apply getVar_reads|]. repeat emits_step. Qed.

Lemma evalExpr_reads ρ e : emits noCallEvent (evalExpr rt ρ e).
Proof.
  destruct e; simpl;
    try (apply getVar_reads);
    try (emits_step; [apply getArr_reads|apply emits_ret]);
    (emits_step; [apply getPtr_reads|]);
    unfold getInt32, getFloat64, getString, getFloat64Array;
    repeat emits_step.
Qed.

Lemma evalFields_reads {T} ρ (name : T -> string) (e : T -> expr) l :
  emits noCallEvent (evalFields rt ρ name e l).
Proof.
  induction l as [|f l IH]; simpl; [apply emits_ret|].
  emits_step; [apply evalExpr_reads|].
  emits_step; [apply IH|apply emits_ret].
Qed.

Lemma readInt32s_reads p n : emits noCallEvent (readInt32s rt p n).
Proof.
  revert p. induction n as [|n IH]; intros p; simpl; [apply emits_ret|].
  emits_step; [unfold getInt32; repeat emits_step|].
  emits_step; [apply IH|apply emits_ret].
Qed.

Lemma execStmt_reads ρ s :
  isMemStmt s = false -> isCallStmt s = false ->
  emits noCallEvent (execStmt rt ρ s).
Proof.
  destruct s; simpl; try discriminate; intros _ _.
  - emits_step; [apply getVar_reads|].
    destruct a; try apply emits_ret.
    destruct (PrimFloat.ltb x 0); [|apply emits_ret].
    emits_step; [apply getPtr_reads|].
    emits_step; [unfold getString; repeat emits_step|apply emits_raise].
  - emits_step; [apply evalExpr_reads|apply emits_ret].
  - apply emits_ret.
  - emits_step; [apply getPtr_reads|].
    emits_step; [apply readInt32s_reads|apply emits_ret].
  - emits_step; [apply evalExpr_reads|apply emits_ret].
  - emits_step; [apply evalFields_reads|apply emits_ret].
  - emits_step; [apply evalFields_reads|apply emits_ret].
Qed.

Lemma execStmts_reads l : forall ρ,
  forallb (fun s => negb (isMemStmt s) && negb (isCallStmt s)) l = true ->
  emits noCallEvent (execStmts rt ρ l).
Proof.
  induction l as [|s l IH]; intros ρ H; simpl; [apply emits_ret|].
  simpl in H. apply andb_true_iff in H as [Hs Hl].
  apply andb_true_iff in Hs as [Hs1 Hs2].
  apply negb_true_iff in Hs1, Hs2.
  emits_step; [by apply execStmt_reads|].
  destruct a; [by apply IH|apply emits_ret].
Qed.

(** ** The shape of the body of a wrapper *)

Definition quietStmt (s : stmt) : bool :=
  negb (isMemStmt s) && negb (isCallStmt s).

Lemma find_first_error o1 name sz o2 :
  Forall (fun e => isError (snd e) = false) o1 ->
  List.find (fun o => isError (r_type o))
            (map readOf (o1 ++ (name, TError sz) :: o2))
  = Some (readOf (name, TError sz)).
Proof.
  induction 1 as [|e o1 He _ IH]; [done|].
  simpl. by rewrite He.
Qed.

Lemma find_no_error outputs :
  Forall (fun e => isError (snd e) = false) outputs ->
  List.find (fun o => isError (r_type o)) (map readOf outputs) = None.
Proof.
  induction 1 as [|e o1 He _ IH]; [done|].
  simpl. by rewrite He.
Qed.

Lemma wrapper_body_eq fn config :
  prog_body (wrapperProgram fn config)
  = SCall (match returnTypeOf config with RVoid => false | _ => true end)
          (fd_name fn)
          (map (callArgOf (outputsOf config) (inputStringsOf config)) (fd_params fn))
    :: (match returnTypeOf config with
        | RCheckNegative | RCheckError =>
            match List.find (fun o => isError (r_type o))
                            (map readOf (outputsOf config)) with
            | Some errorRead => [SCheckNegative (r_varName errorRead)]
            | None => []
            end
        | _ => []
        end)
       ++ buildReturnStmts (map readOf (outputsOf config)) config (returnTypeOf config).
Proof.
  unfold wrapperProgram. cbv zeta. cbn [prog_body].
  by rewrite allocProgram_eq.
Qed.

Lemma buildReturnStmts_quietStmt reads config returnType :
  forallb quietStmt (buildReturnStmts reads config returnType) = true.
Proof. by apply buildReturnStmts_forallb. Qed.

Lemma ret_not_ptrVar n : String.eqb "ret" (ptrVar n) = false.
Proof.
  apply String.eqb_neq. unfold ptrVar. intros H.
  pose proof (f_equal String.length H) as Hlen.
  rewrite length_append in Hlen.
  destruct n; [change ("ret" = "Ptr") in H; discriminate H|].
  simpl in Hlen. lia.
Qed.

Lemma alloc_not_call evs f a r :
  Forall allocEvent evs -> EvCall f a r ∉ evs.
Proof. intros H Hin. by apply (proj1 (Forall_forall _ _) H) in Hin. Qed.

Lemma free_not_call ps f a r : EvCall f a r ∉ map EvFree ps.
Proof. intros Hin. by apply list_elem_of_fmap in Hin as (? & ? & _). Qed.

Lemma reads_not_call evs f a r :
  Forall noCallEvent evs -> EvCall f a r ∉ evs.
Proof. intros H Hin. by apply (proj1 (Forall_forall _ _) H) in Hin. Qed.

Lemma Forall_free ps : Forall freeEvent (map EvFree ps).
Proof. apply Forall_forall. intros ev Hin. by apply list_elem_of_fmap in Hin as (? & -> & _). Qed.

(** ** Only the error check raises a failure of the wrapper's own *)

Definition isFailure {A} (r : result A) : Prop :=
  match r with Raise (Failure _) => True | _ => False end.

Definition noFail {A} (m : M A) : Prop :=
  forall st r st', m st = (r, st') -> ~ isFailure r.

Lemma noFail_ret {A} (a : A) : noFail (ret a).
Proof. intros st r st' [= <- <-] H. exact H. Qed.

Lemma noFail_script {A} msg : noFail (@raise W A (ScriptError msg)).
Proof. intros st r st' [= <- <-] H. exact H. Qed.

Lemma noFail_runtime {A} msg : noFail (@raise W A (RuntimeError msg)).
Proof. intros st r st' [= <- <-] H. exact H. Qed.

Lemma noFail_lift {A} (r : answer A) : noFail (@lift W A r).
Proof. intros st r' st' [= <- <-] H. by destruct r. Qed.

Lemma noFail_world : noFail (@world W).
Proof. intros st r st' [= <- <-] H. exact H. Qed.

Lemma noFail_setWorld w : noFail (@setWorld W w).
Proof. intros st r st' [= <- <-] H. exact H. Qed.

Lemma noFail_emit ev : noFail (@emit W ev).
Proof. intros st r st' [= <- <-] H. exact H. Qed.

Lemma noFail_bind {A B} (m : M A) (k : A -> M B) :
  noFail m -> (forall a, noFail (k a)) -> noFail (bind m k).
Proof.
  intros Hm Hk st r st' H. unfold bind in H.
  destruct (m st) as [[a|e|] st1] eqn:E.
  - by eapply Hk.
  - injection H as <- <-. intros F. apply (Hm _ _ _ E). exact F.
  - injection H as <- <-. intros F. exact F.
Qed.

Ltac nofail_step :=
  first
    [ apply noFail_ret | apply noFail_script | apply noFail_runtime | apply noFail_lift
    | apply noFail_world | apply noFail_setWorld | apply noFail_emit
    | apply noFail_bind; [|intros ?]
    | match goal with
      | |- noFail (match ?x with _ => _ end) => destruct x
      | |- noFail (if ?x then _ else _) => destruct x
      | |- noFail (let '(_, _) := ?x in _) => destruct x
      end ].

Lemma getVar_noFail x ρ : noFail (@getVar W x ρ).
Proof. unfold getVar, unbound. repeat nofail_step. Qed.

Lemma getPtr_noFail v ρ : noFail (@getPtr W v ρ).
Proof. unfold getPtr. nofail_step; [apply getVar_noFail|]. repeat nofail_step. Qed.

Lemma getArr_noFail x ρ : noFail (@getArr W x ρ).
Proof. unfold getArr. nofail_step; [apply getVar_noFail|]. repeat nofail_step. Qed.

Lemma evalArgs_noFail ρ l : noFail (@evalArgs W ρ l).
Proof.
  induction l as [|a l IH]; simpl; [apply noFail_ret|].
  nofail_step.
  - destruct a; simpl; [apply getVar_noFail|].
    nofail_step; [apply getVar_noFail|]. repeat nofail_step.
  - nofail_step; [apply IH|apply noFail_ret].
Qed.

Lemma evalExpr_noFail ρ e : noFail (evalExpr rt ρ e).
Proof.
  destruct e; simpl;
    try (apply getVar_noFail);
    try (nofail_step; [apply getArr_noFail|apply noFail_ret]);
    (nofail_step; [apply getPtr_noFail|]);
    unfold getInt32, getFloat64, getString, getFloat64Array;
    repeat nofail_step.
Qed.

Lemma evalFields_noFail {T} ρ (name : T -> string) (e : T -> expr) l :
  noFail (evalFields rt ρ name e l).
Proof.
  induction l as [|f l IH]; simpl; [apply noFail_ret|].
  nofail_step; [apply evalExpr_noFail|].
  nofail_step; [apply IH|apply noFail_ret].
Qed.

Lemma readInt32s_noFail p n : noFail (readInt32s rt p n).
Proof.
  revert p. induction n as [|n IH]; intros p; simpl; [apply noFail_ret|].
  nofail_step; [unfold getInt32; repeat nofail_step|].
  nofail_step; [apply IH|apply noFail_ret].
Qed.

Definition isCheckStmt (s : stmt) : bool :=
  match s with SCheckNegative _ => true | _ => false end.

Lemma execStmt_noFail ρ s :
  isCheckStmt s = false -> noFail (execStmt rt ρ s).
Proof.
  destruct s; simpl; try discriminate; intros _.
  - unfold malloc. repeat nofail_step.
  - nofail_step; [apply getVar_noFail|]. unfold allocString. repeat nofail_step.
  - nofail_step; [apply getPtr_noFail|]. unfold free. repeat nofail_step.
  - nofail_step; [apply evalArgs_noFail|]. unfold call. repeat nofail_step.
  - nofail_step; [apply evalExpr_noFail|apply noFail_ret].
  - apply noFail_ret.
  - nofail_step; [apply getPtr_noFail|].
    nofail_step; [apply readInt32s_noFail|apply noFail_ret].
  - nofail_step; [apply evalExpr_noFail|apply noFail_ret].
  - nofail_step; [apply evalFields_noFail|apply noFail_ret].
  - nofail_step; [apply evalFields_noFail|apply noFail_ret].
Qed.

Lemma execStmts_noFail l : forall ρ,
  forallb (fun s => negb (isCheckStmt s)) l = true ->
  noFail (execStmts rt ρ l).
Proof.
  induction l as [|s l IH]; intros ρ H; simpl; [apply noFail_ret|].
  simpl in H. apply andb_true_iff in H as [Hs Hl].
  apply negb_true_iff in Hs.
  nofail_step; [by apply execStmt_noFail|].
  destruct a; [by apply IH|apply noFail_ret].
Qed.

(** A program without an error check never raises a failure of its own. *)
Lemma invoke_noFail p args w :
  forallb (fun s => negb (isCheckStmt s))
          (prog_allocs p ++ prog_body p ++ prog_frees p) = true ->
  ~ isFailure (fst (invoke rt p args w)).
Proof.
  rewrite !forallb_app. intros H.
  apply andb_true_iff in H as [Ha H]. apply andb_true_iff in H as [Hb Hf].
  unfold invoke.
  match goal with
  | |- context [bind ?m ?k (w, [])] =>
      assert (Hrun : noFail (bind m k)); [|
        destruct (bind m k (w, [])) as [c st] eqn:E;
        specialize (Hrun _ _ _ E); by destruct c as [[|]|[]|]]
  end.
  apply noFail_bind; [by apply execStmts_noFail|].
  intros [ρ|v]; [|apply noFail_ret].
  destruct (prog_guarded p); [|by apply execStmts_noFail].
  intros st r st' Hr. unfold tryFinally in Hr.
  destruct (execStmts rt ρ (prog_body p) st) as [c st1] eqn:Eb.
  pose proof (execStmts_noFail _ ρ Hb _ _ _ Eb) as Hc.
  destruct (execStmts rt ρ (prog_frees p) st1) as [c' st2] eqn:Ef.
  pose proof (execStmts_noFail _ ρ Hf _ _ _ Ef) as Hc'.
  destruct c as [[|]|[]|], c' as [[|]|[]|]; simplify_eq/=; done.
Qed.

(** ** The house result shape *)

Definition houseStmts : list stmt :=
  [SConst "cusps" (EGetFloat64Array "cuspsPtr" 13);
   SConst "ascmc" (EGetFloat64Array "ascmcPtr" 10);
   SReturnObject (("cusps", ESlice1 "cusps", " // cusps[0] is unused") :: ascmcFields)].

(** The object a [HouseResult] wrapper returns for the two buffers. *)
Definition houseObject (cusps ascmc : list float) : jsval :=
  VObj [("cusps", VArr (VNum <$> drop 1 cusps));
        ("ascendant", index (VNum <$> ascmc) 0);
        ("mc", index (VNum <$> ascmc) 1);
        ("armc", index (VNum <$> ascmc) 2);
        ("vertex", index (VNum <$> ascmc) 3);
        ("equatorialAscendant", index (VNum <$> ascmc) 4);
        ("coAscendantKoch", index (VNum <$> ascmc) 5);
        ("coAscendantMunkasey", index (VNum <$> ascmc) 6);
        ("polarAscendant", index (VNum <$> ascmc) 7)].

Lemma exec_const_array ρ x v p n rest w tr :
  lookup v ρ = Some (VPtr p) ->
  execStmts rt ρ (SConst x (EGetFloat64Array v n) :: rest) (w, tr)
  = match rt_getFloat64Array rt p n w with
    | Ans l => execStmts rt ((x, VArr (VNum <$> l)) :: ρ) rest
                         (w, tr ++ [EvGetFloat64Array p n (Ans l)])
    | Trap msg =>
        (Raise (RuntimeError msg), (w, tr ++ [EvGetFloat64Array p n (Trap msg)]))
    | Never => (Hang, (w, tr ++ [EvGetFloat64Array p n Never]))
    end.
Proof.
  intros Hv. cbn [execStmts execStmt evalExpr].
  unfold Wrapper.bind at 1. unfold Wrapper.bind at 1. unfold Wrapper.bind at 1.
  unfold getPtr at 1. unfold Wrapper.bind at 1. unfold getVar at 1. rewrite Hv.
  unfold ret at 1. unfold ret at 1.
  unfold getFloat64Array, Wrapper.bind, world, emit, lift, ret.
  cbn [fst snd].
  by destruct (rt_getFloat64Array rt p n w).
Qed.

Lemma exec_house ρ pc pa w tr :
  lookup "cuspsPtr" ρ = Some (VPtr pc) ->
  lookup "ascmcPtr" ρ = Some (VPtr pa) ->
  execStmts rt ρ houseStmts (w, tr)
  = match rt_getFloat64Array rt pc 13 w with
    | Ans cusps =>
        match rt_getFloat64Array rt pa 10 w with
        | Ans ascmc =>
            (Val (Return (houseObject cusps ascmc)),
             (w, tr ++ [EvGetFloat64Array pc 13 (Ans cusps);
                        EvGetFloat64Array pa 10 (Ans ascmc)]))
        | Trap msg =>
            (Raise (RuntimeError msg),
             (w, tr ++ [EvGetFloat64Array pc 13 (Ans cusps);
                        EvGetFloat64Array pa 10 (Trap msg)]))
        | Never =>
            (Hang,
             (w, tr ++ [EvGetFloat64Array pc 13 (Ans cusps);
                        EvGetFloat64Array pa 10 Never]))
        end
    | Trap msg =>
        (Raise (RuntimeError msg), (w, tr ++ [EvGetFloat64Array pc 13 (Trap msg)]))
    | Never => (Hang, (w, tr ++ [EvGetFloat64Array pc 13 Never]))
    end.
Proof.
  intros Hc Ha. unfold houseStmts.
  rewrite (exec_const_array _ _ _ pc) by done.
  destruct (rt_getFloat64Array rt pc 13 w) as [cusps|msg|]; [|done|done].
  rewrite (exec_const_array _ _ _ pa) by (by rewrite lookup_cons).
  destruct (rt_getFloat64Array rt pa 10 w) as [ascmc|msg|];
    [|by rewrite <- app_assoc|by rewrite <- app_assoc].
  rewrite <- app_assoc. unfold houseObject. rewrite fmap_drop. reflexivity.
Qed.
(** The whole run of a wrapper of the house shape that returns a value:
    two buffers are obtained, the native routine is called, both buffers
    are read and released, and the value is [houseObject]. *)
Lemma house_run fn config args w w' v tr :
  cfg_resultType config = Some "HouseResult" ->
  outputsOf config
  = [("cusps", TFloat64Array 13 None); ("ascmc", TFloat64Array 10 None)] ->
  inputStringsOf config = [] ->
  invoke rt (wrapperProgram fn config) args w = (Val v, (w', tr)) ->
  exists pc pa vs x cusps ascmc,
    tr = [EvMalloc 104 pc; EvMalloc 80 pa; EvCall (fd_name fn) vs (Ans x);
          EvGetFloat64Array pc 13 (Ans cusps); EvGetFloat64Array pa 10 (Ans ascmc);
          EvFree pc; EvFree pa]
    /\ v = houseObject cusps ascmc.
Proof.
  intros Hres Hout Hin Hrun.
  assert (Hws : wellScoped fn config).
  { split.
    - unfold allocNames. rewrite Hout, Hin.
      apply (bool_decide_unpack _). by vm_compute.
    - rewrite Hin. intros s Hs. by apply elem_of_nil in Hs. }
  destruct (invoke_run fn config args w Hws)
    as [(r0 & w0 & tr0 & E & Hthrow)|(ps & w1 & Hlen & Hinv)].
  { rewrite E in Hrun. injection Hrun as -> _ _.
    by destruct (allocationThrows_result _ _ _ Hthrow) as [[? ?]|?]. }
  rewrite Hinv in Hrun. clear Hinv.
  rewrite wrapper_body_eq in Hrun.
  assert (Hnoerr : Forall (fun e => isError (snd e) = false) (outputsOf config)).
  { rewrite Hout. by repeat constructor. }
  rewrite (find_no_error _ Hnoerr) in Hrun.
  assert (Hcheck : match returnTypeOf config with
                   | RCheckNegative | RCheckError => @nil stmt
                   | _ => []
                   end = []) by by destruct (returnTypeOf config).
  rewrite Hcheck in Hrun. clear Hcheck. cbn [app] in Hrun.
  assert (Hret : buildReturnStmts (map readOf (outputsOf config)) config
                                  (returnTypeOf config) = houseStmts).
  { rewrite Hout. unfold buildReturnStmts, shapeStmts, resultIs. rewrite Hres.
    reflexivity. }
  rewrite Hret in Hrun. clear Hret.
  assert (Hallocs : prog_allocs (wrapperProgram fn config)
                    = [SMalloc "cuspsPtr" (outputSize (TFloat64Array 13 None));
                       SMalloc "ascmcPtr" (outputSize (TFloat64Array 10 None))]).
  { unfold wrapperProgram. cbv zeta. cbn [prog_allocs].
    rewrite allocProgram_eq. cbn [allocStmts]. by rewrite Hout, Hin. }
  rewrite Hallocs in Hrun. clear Hallocs.
  unfold allocNames in Hlen, Hrun. rewrite Hout, Hin in Hlen, Hrun.
  destruct ps as [|pc [|pa [|? ?]]]; try discriminate Hlen.
  set (ρ0 := bindParams (prog_params (wrapperProgram fn config)) args) in *.
  cbn [allocEvents map fst app] in Hrun.
  change (evalSize (outputSize (TFloat64Array 13 None))) with 104%N in Hrun.
  change (evalSize (outputSize (TFloat64Array 10 None))) with 80%N in Hrun.
  change (ptrVar "cusps") with "cuspsPtr" in Hrun.
  change (ptrVar "ascmc") with "ascmcPtr" in Hrun.
  set (ρ := bindPtrs ρ0 ["cuspsPtr"; "ascmcPtr"] [pc; pa]) in *.
  assert (Hc : lookup "cuspsPtr" ρ = Some (VPtr pc)) by reflexivity.
  assert (Ha : lookup "ascmcPtr" ρ = Some (VPtr pa)) by reflexivity.
  clearbody ρ.
  match type of Hrun with
  | context [execStmts rt ρ (SCall ?b ?f ?a :: ?rest) (?w0, ?evs)] =>
      destruct (exec_call ρ b f a rest w0 evs)
        as [(vs & _ & Hexec) | (e & Hexec)];
      rewrite Hexec in Hrun; clear Hexec; [|discriminate Hrun]
  end.
  unfold afterCall in Hrun.
  destruct (rt_call rt (fd_name fn) vs w1) as [[x|msg|] w2];
    [|discriminate Hrun|discriminate Hrun].
  rewrite (exec_house _ pc pa) in Hrun.
  2:{ destruct (returnTypeOf config); by rewrite ?lookup_cons. }
  2:{ destruct (returnTypeOf config); by rewrite ?lookup_cons. }
  destruct (rt_getFloat64Array rt pc 13 w2) as [cusps|msg|];
    [|discriminate Hrun|discriminate Hrun].
  destruct (rt_getFloat64Array rt pa 10 w2) as [ascmc|msg|];
    [|discriminate Hrun|discriminate Hrun].
  exists pc, pa, vs, x, cusps, ascmc.
  injection Hrun as <- _ <-. done.
Qed.
End ExecFacts.

(** * Dependency order and exclusion closure *)

Section ResolverClaims.
Import Resolver Emit.

(** A constant with the given name and dependencies (value [0], no
    comment), for examples. *)
Definition K (n : string) (deps : list string) : Constant :=
  mkConstant n "0" None deps.

Example topo_ex1 :
  topologicalSort [K "CC" ["AA"; "BB"]; K "AA" []; K "BB" ["AA"]]
  = Some [K "AA" []; K "BB" ["AA"]; K "CC" ["AA"; "BB"]].
Proof. vm_compute. reflexivity. Qed.

Example generateConstants_ex :
  generateConstants
    [mkConstant "SE_GREG_CAL" "1" None [];
     mkConstant "SE_NALL_NAT_POINTS" "(SE_NPLANETS + SE_NFICT_ELEM)" None
                ["SE_NPLANETS"; "SE_NFICT_ELEM"];
     mkConstant "SE_NPLANETS" "23" None [];
     mkConstant "SE_NFICT_ELEM" "15" None [];
     mkConstant "SE_MAX_STNAME" "256" (Some "maximum size of fixstar name;") []]
  = Some "/**
 * Swiss Ephemeris Constants
 * Auto-generated from swephexp.h - DO NOT EDIT
 */

// CALENDAR
export const SE_GREG_CAL = 1;

// PLANETS
export const SE_NPLANETS = 23;

// OFFSETS
export const SE_NFICT_ELEM = 15;
export const SE_NALL_NAT_POINTS = (SE_NPLANETS + SE_NFICT_ELEM);

// FIXSTAR
export const SE_MAX_STNAME = 256; // maximum size of fixstar name;
".
Proof. vm_compute. reflexivity. Qed.

(** The dependency-order property as the specification words it, for one
    input: in the constants document every emitted dependency of an
    emitted constant is defined before it. *)
Definition dependencyOrder (cs : list Constant) : Prop :=
  forall doc, emittedConstants cs = Some doc ->
  forall c d, c ∈ doc -> d ∈ c_dependencies c -> d ∈ names doc ->
              definedBefore d c doc.

Lemma definedBefore_head d c x :
  c <> x -> ~ definedBefore d c [c; x].
Proof.
  intros Hx (l1 & l2 & Heq & Hd).
  destruct l1 as [|a [|b l1]]; simplify_eq/=.
  - by apply elem_of_nil in Hd.
  - by destruct l1.
Qed.


(** The grouping by category can also move a dependency behind the
    constant that uses it: [SE_JUL_CAL] is written in the first group
    and [BASE_CAL] in the last one. *)
Lemma dependency_order_across_groups :
  ~ dependencyOrder [K "BASE_CAL" []; K "SE_JUL_CAL" ["BASE_CAL"]].
Proof.
  intros H.
  assert (Hdoc : emittedConstants [K "BASE_CAL" []; K "SE_JUL_CAL" ["BASE_CAL"]]
                 = Some [K "SE_JUL_CAL" ["BASE_CAL"]; K "BASE_CAL" []])
    by by vm_compute.
  specialize (H _ Hdoc (K "SE_JUL_CAL" ["BASE_CAL"]) "BASE_CAL").
  apply (definedBefore_head "BASE_CAL" (K "SE_JUL_CAL" ["BASE_CAL"])
                            (K "BASE_CAL" [])); [intros [=]|].
  apply H; [in_list|in_list|]. simpl. in_list.
Qed.


(** The real pair of [swephexp.h] that falls into two categories:
    [SE_NALL_NAT_POINTS] (offsets) mentions [SE_NPLANETS] (planets),
    and the group of the planets is written first. *)
Example groupRank_real_pair :
  groupRank "SE_NPLANETS" = 1 /\ groupRank "SE_NALL_NAT_POINTS" = 3.
Proof. by vm_compute. Qed.


(** C4: a constant that mentions a name absent from the input, and every
    constant that depends on it directly or through other constants, is
    missing from the output of [topologicalSort] and from the constants
    document. *)
Theorem exclusion_closure (cs : list Constant) (x : Constant) (dep : string) :
  x ∈ cs ->
  dep ∈ c_dependencies x ->
  dep ∉ names cs ->
  exists out doc,
    topologicalSort cs = Some out
    /\ emittedConstants cs = Some doc
    /\ forall y, y = c_name x \/ dependsTransitively cs y (c_name x) ->
                 y ∉ names out /\ y ∉ names doc.
Proof.
  intros Hx Hdep Hmissing.
  destruct (topologicalSort_run cs) as (sk & out & R).
  exists out, (flat_map snd (emittedGroups out)).
  split; [apply (run_result _ _ _ R)|].
  split; [unfold emittedConstants; by rewrite (run_result _ _ _ R)|].
  assert (Hxs : c_name x ∈ sk).
  { apply (run_first _ _ _ R), firstPass_spec. exists x. split; [done|].
    split; [done|]. apply existsb_elem_of. exists dep. split; [done|].
    apply bool_decide_eq_true.
    destruct (byNameOf cs !! dep) eqn:E; [|done].
    exfalso. apply Hmissing, byNameOf_defined. by eexists. }
  intros y Hy.
  assert (Hys : y ∈ sk).
  { destruct Hy as [->|Hy]; [done|].
    by eapply skipped_upward; [apply (run_closed _ _ _ R)| |]. }
  assert (Hout : y ∉ names out).
  { intros Hin. unfold names in Hin.
    apply list_elem_of_fmap in Hin as (c & -> & Hc).
    by destruct (run_members _ _ _ R c Hc). }
  split; [done|]. intros Hin. apply Hout. unfold names in *.
  apply list_elem_of_fmap in Hin as (c & -> & Hc).
  apply list_elem_of_fmap. exists c. split; [done|].
  by apply (proj1 (emitted_elem_of _ _)).
Qed.

Definition exclusionExample : list Constant :=
  [K "AA" ["ZZ"]; K "BB" ["AA"]; K "CC" ["BB"]; K "DD" []].

Lemma exclusion_closure_witness :
  exists out doc,
    topologicalSort exclusionExample = Some out
    /\ emittedConstants exclusionExample = Some doc
    /\ forall y, y = "AA" \/ dependsTransitively exclusionExample y "AA" ->
                 y ∉ names out /\ y ∉ names doc.
Proof.
  apply (exclusion_closure exclusionExample (K "AA" ["ZZ"]) "ZZ").
  - unfold exclusionExample. in_list.
  - simpl. in_list.
  - apply (bool_decide_unpack _). by vm_compute.
Defined.

Example exclusion_closure_runs :
  topologicalSort exclusionExample = Some [K "DD" []].
Proof. by vm_compute. Qed.
End ResolverClaims.
(** * The dependencies recorded for a constant *)

Section ExtractClaims.
Import Regex Extract.

Lemma parseLine_dependencies line c :
  parseLine line = Some c -> c_dependencies c = findDependencies (c_value c).
Proof.
  unfold parseLine. intros H.
  repeat match type of H with
         | match ?x with _ => _ end = _ => destruct x eqn:?; try discriminate H
         | (if ?x then _ else _) = _ => destruct x eqn:?; try discriminate H
         | (let (_, _) := ?x in _) = _ => destruct x eqn:?
         end.
  by injection H as <-.
Qed.

Lemma parseConstants_dependencies headerContent c :
  c ∈ parseConstants headerContent ->
  c_dependencies c = findDependencies (c_value c).
Proof.
  unfold parseConstants. intros Hc.
  apply list_elem_of_omap in Hc as (line & _ & Hline).
  by apply (parseLine_dependencies line).
Qed.

(** The dependencies as the specification words them: the upper-case
    tokens of the value other than the name of the constant itself. *)
Definition tokensWithoutOwnName (c : Constant) : Prop :=
  forall t, t ∈ c_dependencies c
            <-> t ∈ wordsOf (c_value c) /\ upperSnake t = true /\ t <> c_name c.

Example parseConstants_self :
  parseConstants "#define SE_SELF (SE_SELF | 1)"
  = [mkConstant "SE_SELF" "(SE_SELF | 1)" None ["SE_SELF"]].
Proof. by vm_compute. Qed.

(** C5 (counterexample): the extractor records the name of the constant
    itself when the value mentions it. *)
Lemma dependencies_own_name_counterexample :
  ~ (forall headerContent c,
       c ∈ parseConstants headerContent -> tokensWithoutOwnName c).
Proof.
  intros H.
  specialize (H "#define SE_SELF (SE_SELF | 1)"
                (mkConstant "SE_SELF" "(SE_SELF | 1)" None ["SE_SELF"])).
  rewrite parseConstants_self in H.
  destruct (proj1 (H ltac:(in_list) "SE_SELF") ltac:(in_list)) as (_ & _ & Hne).
  by apply Hne.
Qed.

(** A token of one letter is not recorded, although such a name can be
    defined. *)
Example parseConstants_one_letter :
  parseConstants ("#define X 1" +:+ String "010" "#define SE_Y (X | 2)")
  = [mkConstant "X" "1" None []; mkConstant "SE_Y" "(X | 2)" None []].
Proof. by vm_compute. Qed.

(** X6: every dependency recorded for a constant is an
    upper-case token present in its value, and every such token of two
    characters or more is recorded, the name of the constant itself
    included. *)
Theorem dependencies_are_tokens (headerContent : string) (c : Constant) :
  c ∈ parseConstants headerContent ->
  (forall t, t ∈ c_dependencies c ->
             t ∈ wordsOf (c_value c) /\ upperSnake t = true)
  /\ (forall t, t ∈ wordsOf (c_value c) -> upperSnake t = true ->
                2 <= String.length t -> t ∈ c_dependencies c).
Proof.
  intros Hc. rewrite (parseConstants_dependencies _ _ Hc), findDependencies_words.
  split.
  - intros t Ht. apply list_elem_of_In, filter_In in Ht as [Ht Hgood].
    apply andb_true_iff in Hgood as [Hshape _]. split; [by apply list_elem_of_In|done].
  - intros t Ht Hshape Hlong. apply list_elem_of_In, filter_In.
    split; [by apply list_elem_of_In|]. rewrite Hshape. by apply Nat.leb_le.
Qed.

Lemma dependencies_are_tokens_witness :
  (forall t, t ∈ ["SE_SELF"] ->
             t ∈ wordsOf "(SE_SELF | 1)" /\ upperSnake t = true)
  /\ (forall t, t ∈ wordsOf "(SE_SELF | 1)" -> upperSnake t = true ->
                2 <= String.length t -> t ∈ ["SE_SELF"]).
Proof.
  apply (dependencies_are_tokens "#define SE_SELF (SE_SELF | 1)"
           (mkConstant "SE_SELF" "(SE_SELF | 1)" None ["SE_SELF"])).
  rewrite parseConstants_self. in_list.
Defined.
End ExtractClaims.


(** * Allocation and release, error interpretation, result shapes *)

Section WrapperClaims.
Import Cfg Synth Wrapper.
Context {W : Type} (rt : Runtime W).


(** What the wrapper does with the answer to [mem.getString] on the
    error buffer. *)
Definition failureOf (ans : answer string) : result jsval :=
  match ans with
  | Ans msg => Raise (Failure (JS.orElse msg fallbackMessage))
  | Trap msg => Raise (RuntimeError msg)
  | Never => Hang
  end.

(** C1 (amended): for a routine configured with [check-negative] or
    [check-error] one of whose outputs is an error buffer, an invocation
    in which the native routine returns a negative value reads the first
    error buffer as a string and raises a failure with that string, or
    with the fallback message when the string is empty; between the
    native call and the releases nothing else is read, so no result is
    constructed. *)
Theorem negative_return_raises
    (fn : FunctionDecl) (config : FunctionConfig) (args : list jsval)
    (w w' : W) (r : result jsval) (tr : list event)
    (o1 o2 : list (string * OutputType)) (name : string) (size : N)
    (f : string) (a : list jsval) (x : float) :
  wellScoped fn config ->
  returnTypeOf config = RCheckNegative \/ returnTypeOf config = RCheckError ->
  outputsOf config = o1 ++ (name, TError size) :: o2 ->
  Forall (fun e => isError (snd e) = false) o1 ->
  invoke rt (wrapperProgram fn config) args w = (r, (w', tr)) ->
  EvCall f a (Ans x) ∈ tr ->
  PrimFloat.ltb x 0 = true ->
  exists pre pe ans post,
    tr = pre ++ [EvCall f a (Ans x); EvGetString pe ans] ++ post
    /\ Forall allocEvent pre
    /\ pre !! length o1 = Some (EvMalloc size pe)
    /\ Forall freeEvent post
    /\ r = failureOf ans.
Proof.
  intros Hws Hmode Hout Hfirst Hrun Hcall Hneg.
  destruct (invoke_run rt fn config args w Hws)
    as [(r0 & w0 & tr0 & E & Hthrow)|(ps & w1 & Hlen & Hinv)].
  { (* no native call in a run that ends in the allocations *)
    rewrite E in Hrun. injection Hrun as -> -> ->.
    by apply (allocationThrows_no_call _ _ _ f a (Ans x)) in Hthrow. }
  rewrite Hinv in Hrun. clear Hinv.
  destruct (wrapper_allocs_shape fn config) as [Hshape Hlen'].
  rewrite wrapper_body_eq in Hrun.
  assert (Hcheck : match returnTypeOf config with
                   | RCheckNegative | RCheckError =>
                       match List.find (fun o => isError (r_type o))
                                       (map readOf (outputsOf config)) with
                       | Some errorRead => [SCheckNegative (r_varName errorRead)]
                       | None => []
                       end
                   | _ => []
                   end = [SCheckNegative (ptrVar name)]).
  { rewrite Hout, find_first_error by done. by destruct Hmode as [-> | ->]. }
  rewrite Hcheck in Hrun. clear Hcheck.
  assert (Hbind : match returnTypeOf config with RVoid => false | _ => true end = true)
    by by destruct Hmode as [-> | ->].
  rewrite Hbind in Hrun. clear Hbind.
  set (ρ0 := bindParams (prog_params (wrapperProgram fn config)) args) in *.
  set (vars := map ptrVar (allocNames config)) in *.
  set (evs := allocEvents ρ0 (prog_allocs (wrapperProgram fn config)) ps) in *.
  set (rest := buildReturnStmts (map readOf (outputsOf config)) config
                                (returnTypeOf config)) in *.
  destruct (allocEvents_spec (prog_allocs (wrapperProgram fn config)) ρ0 ps Hshape)
    as (_ & _ & Hevs & Hevlen); [by rewrite Hlen, Hlen'|].
  fold evs in Hevs, Hevlen.
  (* the address of the error buffer *)
  assert (Hk : length o1 < length ps).
  { rewrite Hlen. unfold allocNames. rewrite Hout, length_app, length_map, length_app.
    simpl. lia. }
  destruct (lookup_lt_is_Some_2 ps (length o1) Hk) as [pe Hpe].
  assert (Hvar : vars !! length o1 = Some (ptrVar name)).
  { unfold vars, allocNames. rewrite Hout, list_lookup_fmap, lookup_app_l.
    - rewrite list_lookup_fmap, list_lookup_middle; done.
    - rewrite length_map, length_app. simpl. lia. }
  assert (Hlook : lookup (ptrVar name) (bindPtrs ρ0 vars ps) = Some (VPtr pe)).
  { eapply lookup_bindPtrs; [|done|done]. apply NoDup_ptrVar, Hws. }
  assert (Hev : evs !! length o1 = Some (EvMalloc size pe)).
  { change size with (evalSize (SzLit size)).
    eapply (allocEvents_lookup _ _ _ _ (ptrVar name)); [|done|].
    - unfold wrapperProgram. cbv zeta. cbn [prog_allocs].
      rewrite allocProgram_eq. cbn [allocStmts]. rewrite Hout, lookup_app_l.
      + by rewrite list_lookup_fmap, list_lookup_middle.
      + rewrite length_map, length_app. simpl. lia.
    - intros j s Hj. apply (proj1 (Forall_lookup _ _) Hshape j s Hj). }
  destruct (exec_call rt (bindPtrs ρ0 vars ps) true (fd_name fn)
              (map (callArgOf (outputsOf config) (inputStringsOf config)) (fd_params fn))
              (SCheckNegative (ptrVar name) :: rest) w1 evs)
    as [(vs & _ & Hexec) | (e & Hexec)];
    cbn [app] in Hrun; rewrite Hexec in Hrun; clear Hexec.
  2:{ (* the arguments could not be evaluated: no call in the trace *)
      simplify_eq/=. apply elem_of_app in Hcall as [Hc|Hc].
      - by apply alloc_not_call in Hc.
      - by apply free_not_call in Hc. }
  unfold afterCall in Hrun.
  destruct (rt_call rt (fd_name fn) vs w1) as [[y|msg|] w2].
  - destruct (PrimFloat.ltb y 0) eqn:Hy.
    + (* the check raises *)
      rewrite (exec_check_negative rt _ _ _ y pe) in Hrun; [|
        by rewrite lookup_cons, String.eqb_refl|done|
        by rewrite lookup_cons, ret_not_ptrVar].
      set (ans := rt_getString rt pe w2) in *.
      assert (Hin : EvCall f a (Ans x) ∈ [EvCall (fd_name fn) vs (Ans y)]).
      { destruct ans; simplify_eq/=;
          repeat (apply elem_of_app in Hcall as [Hcall|Hcall]);
          try (by apply alloc_not_call in Hcall);
          try (by apply free_not_call in Hcall);
          try done;
          apply list_elem_of_singleton in Hcall; discriminate. }
      apply list_elem_of_singleton in Hin. injection Hin as -> -> ->.
      exists evs, pe, ans.
      destruct ans as [m|m|]; simplify_eq/=.
      * exists (map EvFree ps). rewrite <- !app_assoc. simpl.
        split; [done|]. split; [done|]. split; [done|].
        split; [apply Forall_free|done].
      * exists (map EvFree ps). rewrite <- !app_assoc. simpl.
        split; [done|]. split; [done|]. split; [done|].
        split; [apply Forall_free|done].
      * exists []. rewrite <- !app_assoc. simpl.
        split; [done|]. split; [done|]. split; [done|]. split; [constructor|done].
    + (* a return value that is not negative: the call in the trace is
         this one, which contradicts the hypothesis *)
      exfalso.
      match type of Hrun with
      | context [execStmts rt ?ρ ?b ?st] =>
          destruct (execStmts rt ρ b st) as [c [w3 tr3]] eqn:Erest
      end.
      assert (Hq : forallb quietStmt (SCheckNegative (ptrVar name) :: rest) = true).
      { simpl. apply buildReturnStmts_quietStmt. }
      apply (execStmts_reads rt _ _ Hq) in Erest as (revs & Htr3 & Hreads).
      cbn [snd] in Htr3. subst tr3.
      assert (Hin : EvCall f a (Ans x) ∈ [EvCall (fd_name fn) vs (Ans y)]).
      { destruct c as [[ρ'|v]|e|]; simplify_eq/=;
          repeat (apply elem_of_app in Hcall as [Hcall|Hcall]);
          try (by apply alloc_not_call in Hcall);
          try (by apply free_not_call in Hcall);
          try (by apply reads_not_call in Hcall);
          done. }
      apply list_elem_of_singleton in Hin. injection Hin as -> -> ->.
      congruence.
  - exfalso. simplify_eq/=.
    repeat (apply elem_of_app in Hcall as [Hcall|Hcall]);
      try (by apply alloc_not_call in Hcall);
      try (by apply free_not_call in Hcall).
    apply list_elem_of_singleton in Hcall. discriminate.
  - exfalso. simplify_eq/=.
    repeat (apply elem_of_app in Hcall as [Hcall|Hcall]);
      try (by apply alloc_not_call in Hcall);
      try (by apply free_not_call in Hcall).
    apply list_elem_of_singleton in Hcall. discriminate.
Qed.

(** C9: a routine configured with [check-negative] or [check-error] none
    of whose outputs is an error buffer gets a wrapper without any check
    of the return value: the statements after the native call are those
    that construct the result, and no invocation raises a failure of the
    wrapper's own, whatever the native routine returns. *)
Theorem no_check_without_error_buffer
    (fn : FunctionDecl) (config : FunctionConfig) (args : list jsval) (w : W) :
  returnTypeOf config = RCheckNegative \/ returnTypeOf config = RCheckError ->
  Forall (fun e => isError (snd e) = false) (outputsOf config) ->
  prog_body (wrapperProgram fn config)
  = SCall true (fd_name fn)
          (map (callArgOf (outputsOf config) (inputStringsOf config)) (fd_params fn))
    :: buildReturnStmts (map readOf (outputsOf config)) config (returnTypeOf config)
  /\ forallb (fun s => negb (isCheckStmt s))
             (prog_allocs (wrapperProgram fn config)
              ++ prog_body (wrapperProgram fn config)
              ++ prog_frees (wrapperProgram fn config)) = true
  /\ ~ isFailure (fst (invoke rt (wrapperProgram fn config) args w)).
Proof.
  intros Hmode Hout.
  assert (Hbody : prog_body (wrapperProgram fn config)
    = SCall true (fd_name fn)
            (map (callArgOf (outputsOf config) (inputStringsOf config)) (fd_params fn))
      :: buildReturnStmts (map readOf (outputsOf config)) config (returnTypeOf config)).
  { rewrite wrapper_body_eq, find_no_error by done.
    by destruct Hmode as [-> | ->]. }
  assert (Hall : forallb (fun s => negb (isCheckStmt s))
             (prog_allocs (wrapperProgram fn config)
              ++ prog_body (wrapperProgram fn config)
              ++ prog_frees (wrapperProgram fn config)) = true).
  { rewrite Hbody, !forallb_app. apply andb_true_iff. split; [|apply andb_true_iff; split].
    - apply forallb_forall. intros s Hs.
      destruct (wrapper_allocs_shape fn config) as [Hshape _].
      apply list_elem_of_In in Hs. apply (proj1 (Forall_forall _ _) Hshape) in Hs.
      by destruct s.
    - simpl. by apply buildReturnStmts_forallb.
    - unfold wrapperProgram. cbv zeta. cbn [prog_frees].
      apply forallb_forall. intros s Hs.
      destruct (allocProgram_shape (outputsOf config) (inputStringsOf config)) as [_ Hf].
      apply list_elem_of_In in Hs. apply (proj1 (Forall_forall _ _) Hf) in Hs.
      by destruct s. }
  split; [done|]. split; [done|]. by apply invoke_noFail.
Qed.
(** The field [cusps] of an object. *)
Definition cuspsOf (v : jsval) : option jsval :=
  match v with
  | VObj fields => snd <$> List.find (fun f => String.eqb (fst f) "cusps") fields
  | _ => None
  end.

(** Every routine of the table with the house shape has the two buffers
    [cusps] (13 numbers) and [ascmc] (10 numbers) and no input string. *)
Lemma house_configs name config :
  (name, config) ∈ functionConfig ->
  cfg_resultType config = Some "HouseResult" ->
  outputsOf config
  = [("cusps", TFloat64Array 13 None); ("ascmc", TFloat64Array 10 None)]
  /\ inputStringsOf config = [].
Proof.
  intros Hin Hres. unfold functionConfig in Hin.
  repeat (apply elem_of_cons in Hin as [Hin|Hin];
          [injection Hin as -> ->; first [discriminate Hres | by split]|]).
  by apply elem_of_nil in Hin.
Qed.

(** C7: for every routine of the configuration table with result type
    [HouseResult], an invocation of its wrapper that returns a value has
    obtained a buffer of 13 * 8 bytes first, has read 13 numbers [buf]
    from it, and the field [cusps] of the value is [buf] without its
    first element: 12 numbers when [buf] holds 13, the [i]-th of which is
    the [i+1]-th of [buf], so the first one is the second of the buffer. *)
Theorem house_cusps_trimmed
    (name : string) (config : FunctionConfig) (fn : FunctionDecl)
    (args : list jsval) (w w' : W) (v : jsval) (tr : list event) :
  (name, config) ∈ functionConfig ->
  cfg_resultType config = Some "HouseResult" ->
  invoke rt (wrapperProgram fn config) args w = (Val v, (w', tr)) ->
  exists pc buf,
    tr !! 0%nat = Some (EvMalloc 104 pc)
    /\ EvGetFloat64Array pc 13 (Ans buf) ∈ tr
    /\ cuspsOf v = Some (VArr (VNum <$> drop 1 buf))
    /\ (length buf = 13%nat -> length (drop 1 buf) = 12%nat)
    /\ (forall i, drop 1 buf !! i = buf !! S i).
Proof.
  intros Hin Hres Hrun.
  destruct (house_configs name config Hin Hres) as [Hout Hstr].
  destruct (house_run rt fn config args w w' v tr Hres Hout Hstr Hrun)
    as (pc & pa & vs & x & cusps & ascmc & -> & ->).
  exists pc, cusps. split; [done|]. split; [in_list|]. split; [done|].
  split.
  - intros Hlen. rewrite length_drop, Hlen. done.
  - intros i. by rewrite lookup_drop.
Qed.
End WrapperClaims.

(** ** A scripted runtime for examples: a bump allocator, a native
    routine and reads with fixed answers. *)

Definition scripted (callAnswer : Wrapper.answer float)
    (text : Wrapper.answer string)
    (numbers : list float) : Wrapper.Runtime N :=
  {| Wrapper.rt_malloc := fun size w => (w, (w + size)%N);
     Wrapper.rt_allocString := fun _ w => (Wrapper.Ans w, (w + 16)%N);
     Wrapper.rt_free := fun _ w => w;
     Wrapper.rt_call := fun _ _ w => (callAnswer, w);
     Wrapper.rt_getString := fun _ _ => text;
     Wrapper.rt_getFloat64 := fun _ _ => Wrapper.Ans (List.hd 0%float numbers);
     Wrapper.rt_getInt32 := fun _ _ => Wrapper.Ans (List.hd 0%float numbers);
     Wrapper.rt_getFloat64Array :=
       fun _ count _ => Wrapper.Ans (take (N.to_nat count) numbers) |}.


Definition configOf (name : string) : FunctionConfig :=
  default (mkConfig (Some (JS.replaceFirst name "swe_" "")) None None None None None None)
          (lookupConfig name).

Definition swe_fixstar_mag : FunctionDecl :=
  mkDecl "int32" "swe_fixstar_mag"
         [mkParam "char" "star" true; mkParam "double" "mag" true;
          mkParam "char" "serr" true].

Definition swe_date_conversion : FunctionDecl :=
  mkDecl "int" "swe_date_conversion"
         [mkParam "int" "y" false; mkParam "int" "m" false; mkParam "int" "d" false;
          mkParam "double" "utime" false; mkParam "char" "c" false;
          mkParam "double" "tjd" true].

Definition swe_houses : FunctionDecl :=
  mkDecl "int" "swe_houses"
         [mkParam "double" "tjd_ut" false; mkParam "double" "geolat" false;
          mkParam "double" "geolon" false; mkParam "int" "hsys" false;
          mkParam "double" "cusps" true; mkParam "double" "ascmc" true].

(** A cusp buffer whose first slot is unused. *)
Definition cuspBuffer : list float :=
  [0; 15; 45; 75; 105; 135; 165; 195; 225; 255; 285; 315; 345]%float.

Section WrapperExamples.
Import Cfg Synth Wrapper.

Example fixstar_mag_text :
  generateWrapperFunction swe_fixstar_mag (configOf "swe_fixstar_mag")
  = ["/** Get fixed star magnitude */";
     "fixedStarMagnitude: (star: string): number => {";
     "  const magPtr = raw.malloc(8);";
     "  const serrPtr = raw.malloc(256);";
     "  const starPtr = mem.allocString(star);";
     "  try {";
     "    const ret = raw.swe_fixstar_mag(starPtr, magPtr, serrPtr);";
     "    if (ret < 0) {";
     "      const errMsg = mem.getString(serrPtr);";
     "      throw new Error(errMsg || " +:+ quote +:+ "Swiss Ephemeris error" +:+ quote +:+ ");";
     "    }";
     "    return mem.getFloat64(magPtr);";
     "  } finally {";
     "    raw.free(magPtr);";
     "    raw.free(serrPtr);";
     "    raw.free(starPtr);";
     "  }";
     "},"].
Proof. by vm_compute. Qed.

Example fixstar_mag_failure :
  invoke (scripted (Ans (-1)%float) (Ans "star not found") [])
         (wrapperProgram swe_fixstar_mag (configOf "swe_fixstar_mag"))
         [VStr "Sirius"] 1024%N
  = (Raise (Failure "star not found"),
     (1304%N,
      [EvMalloc 8 1024; EvMalloc 256 1032; EvAllocString (VStr "Sirius") 1288;
       EvCall "swe_fixstar_mag" [VPtr 1288; VPtr 1024; VPtr 1032] (Ans (-1)%float);
       EvGetString 1032 (Ans "star not found");
       EvFree 1024; EvFree 1032; EvFree 1288])).
Proof. by vm_compute. Qed.

Example fixstar_mag_trap :
  invoke (scripted (Trap "unreachable") (Ans "") [])
         (wrapperProgram swe_fixstar_mag (configOf "swe_fixstar_mag"))
         [VStr "Sirius"] 1024%N
  = (Raise (RuntimeError "unreachable"),
     (1304%N,
      [EvMalloc 8 1024; EvMalloc 256 1032; EvAllocString (VStr "Sirius") 1288;
       EvCall "swe_fixstar_mag" [VPtr 1288; VPtr 1024; VPtr 1032] (Trap "unreachable");
       EvFree 1024; EvFree 1032; EvFree 1288])).
Proof. by vm_compute. Qed.

Lemma fixstar_mag_wellScoped :
  wellScoped swe_fixstar_mag (configOf "swe_fixstar_mag").
Proof.
  split.
  - apply (bool_decide_unpack _). by vm_compute.
  - intros s Hs. vm_compute in Hs. apply list_elem_of_singleton in Hs as ->.
    simpl. in_list.
Qed.





Lemma negative_return_raises_witness :
  exists pre pe ans post,
    [EvMalloc 8 1024; EvMalloc 256 1032; EvAllocString (VStr "Sirius") 1288;
     EvCall "swe_fixstar_mag" [VPtr 1288; VPtr 1024; VPtr 1032] (Ans (-1)%float);
     EvGetString 1032 (Ans "star not found");
     EvFree 1024; EvFree 1032; EvFree 1288]
    = pre ++ [EvCall "swe_fixstar_mag" [VPtr 1288; VPtr 1024; VPtr 1032] (Ans (-1)%float);
              EvGetString pe ans] ++ post
    /\ Forall allocEvent pre
    /\ pre !! 1 = Some (EvMalloc 256 pe)
    /\ Forall freeEvent post
    /\ Raise (Failure "star not found") = failureOf ans.
Proof.
  apply (negative_return_raises
           (scripted (Ans (-1)%float) (Ans "star not found") [])
           swe_fixstar_mag (configOf "swe_fixstar_mag") [VStr "Sirius"]
           1024%N 1304%N _ _ [("mag", TFloat64 None)] [] "serr" 256%N
           "swe_fixstar_mag" [VPtr 1288; VPtr 1024; VPtr 1032] (-1)%float).
  - apply fixstar_mag_wellScoped.
  - by left.
  - reflexivity.
  - by repeat constructor.
  - apply fixstar_mag_failure.
  - in_list.
  - reflexivity.
Defined.

Example date_conversion_text :
  generateWrapperFunction swe_date_conversion (configOf "swe_date_conversion")
  = ["/** Convert date with calendar check */";
     "dateConversion: (y: number, m: number, d: number, utime: number, c: number): number => {";
     "  const tjdPtr = raw.malloc(8);";
     "  try {";
     "    const ret = raw.swe_date_conversion(y, m, d, utime, c, tjdPtr);";
     "    return mem.getFloat64(tjdPtr);";
     "  } finally {";
     "    raw.free(tjdPtr);";
     "  }";
     "},"].
Proof. by vm_compute. Qed.

(** The native routine answers [-1] (an illegal date) and the wrapper
    returns what stands in the output buffer. *)
Example date_conversion_negative :
  invoke (scripted (Ans (-1)%float) (Ans "") [2460311.0%float])
         (wrapperProgram swe_date_conversion (configOf "swe_date_conversion"))
         [VNum 2024; VNum 2; VNum 30; VNum 12; VNum 103] 1024%N
  = (Val (VNum 2460311.0),
     (1032%N,
      [EvMalloc 8 1024;
       EvCall "swe_date_conversion"
              [VNum 2024; VNum 2; VNum 30; VNum 12; VNum 103; VPtr 1024]
              (Ans (-1)%float);
       EvGetFloat64 1024 (Ans 2460311.0%float);
       EvFree 1024])).
Proof. by vm_compute. Qed.

(** The error-path property as the specification words it, for one
    routine: whenever the native routine returns a negative value, the
    invocation does not return a result. *)
Definition errorPath (fn : FunctionDecl) (config : FunctionConfig) : Prop :=
  returnTypeOf config = RCheckNegative \/ returnTypeOf config = RCheckError ->
  forall (rt : Runtime N) args w r w' tr f a x,
    invoke rt (wrapperProgram fn config) args w = (r, (w', tr)) ->
    EvCall f a (Ans x) ∈ tr ->
    PrimFloat.ltb x 0 = true ->
    forall v, r <> Val v.

(** C1 (counterexample): [swe_date_conversion] is configured with
    [check-negative] and has no error buffer; its wrapper returns a
    number when the native routine returns [-1]. *)
Lemma negative_return_counterexample :
  ~ errorPath swe_date_conversion (configOf "swe_date_conversion").
Proof.
  intros H.
  eapply (H (or_introl eq_refl) _ _ _ _ _ _ _ _ _ date_conversion_negative);
    [in_list|reflexivity|reflexivity].
Qed.

Lemma no_check_without_error_buffer_witness :
  prog_body (wrapperProgram swe_date_conversion (configOf "swe_date_conversion"))
  = [SCall true "swe_date_conversion"
           [AVar "y"; AVar "m"; AVar "d"; AVar "utime"; AVar "c"; AVar "tjdPtr"];
     SReturn (EGetFloat64 "tjdPtr")]
  /\ ~ isFailure (fst (invoke (scripted (Ans (-1)%float) (Ans "") [2460311.0%float])
                              (wrapperProgram swe_date_conversion
                                              (configOf "swe_date_conversion"))
                              [VNum 2024; VNum 2; VNum 30; VNum 12; VNum 103] 1024%N)).
Proof.
  destruct (no_check_without_error_buffer
              (scripted (Ans (-1)%float) (Ans "") [2460311.0%float])
              swe_date_conversion (configOf "swe_date_conversion")
              [VNum 2024; VNum 2; VNum 30; VNum 12; VNum 103] 1024%N)
    as (Hbody & _ & Hno).
  - by left.
  - by repeat constructor.
  - split; [exact Hbody|exact Hno].
Defined.
Example houses_text :
  generateWrapperFunction swe_houses (configOf "swe_houses")
  = ["/** Calculate house cusps (simple) */";
     "housesSimple: (tjd_ut: number, geolat: number, geolon: number, hsys: number | string): HouseResult => {";
     "  const cuspsPtr = raw.malloc(13 * 8);";
     "  const ascmcPtr = raw.malloc(10 * 8);";
     "  try {";
     "    const ret = raw.swe_houses(tjd_ut, geolat, geolon, (typeof hsys === " +:+ Wrapper.quote +:+ "string" +:+ Wrapper.quote +:+ " ? hsys.charCodeAt(0) : hsys), cuspsPtr, ascmcPtr);";
     "    const cusps = mem.getFloat64Array(cuspsPtr, 13);";
     "    const ascmc = mem.getFloat64Array(ascmcPtr, 10);";
     "    return {";
     "      cusps: cusps.slice(1), // cusps[0] is unused";
     "      ascendant: ascmc[0],";
     "      mc: ascmc[1],";
     "      armc: ascmc[2],";
     "      vertex: ascmc[3],";
     "      equatorialAscendant: ascmc[4],";
     "      coAscendantKoch: ascmc[5],";
     "      coAscendantMunkasey: ascmc[6],";
     "      polarAscendant: ascmc[7],";
     "    };";
     "  } finally {";
     "    raw.free(cuspsPtr);";
     "    raw.free(ascmcPtr);";
     "  }";
     "},"].
Proof. by vm_compute. Qed.

(** The wrapper of [swe_houses] run on a memory whose reads answer with
    [cuspBuffer]. *)
Example houses_run :
  invoke (scripted (Ans 0%float) (Ans "") cuspBuffer)
         (wrapperProgram swe_houses (configOf "swe_houses"))
         [VNum 2451545; VNum 52; VNum 13; VStr "P"] 1024%N
  = (Val (VObj [("cusps", VArr (VNum <$> [15; 45; 75; 105; 135; 165; 195; 225;
                                          255; 285; 315; 345]%float));
                ("ascendant", VNum 0); ("mc", VNum 15); ("armc", VNum 45);
                ("vertex", VNum 75); ("equatorialAscendant", VNum 105);
                ("coAscendantKoch", VNum 135); ("coAscendantMunkasey", VNum 165);
                ("polarAscendant", VNum 195)]),
     (1208%N,
      [EvMalloc 104 1024; EvMalloc 80 1128;
       EvCall "swe_houses"
              [VNum 2451545; VNum 52; VNum 13; VNum 80; VPtr 1024; VPtr 1128]
              (Ans 0%float);
       EvGetFloat64Array 1024 13 (Ans cuspBuffer);
       EvGetFloat64Array 1128 10 (Ans (take 10 cuspBuffer));
       EvFree 1024; EvFree 1128])).
Proof. by vm_compute. Qed.

Lemma house_cusps_trimmed_witness :
  exists pc buf,
    [EvMalloc 104 1024; EvMalloc 80 1128;
     EvCall "swe_houses"
            [VNum 2451545; VNum 52; VNum 13; VNum 80; VPtr 1024; VPtr 1128]
            (Ans 0%float);
     EvGetFloat64Array 1024 13 (Ans cuspBuffer);
     EvGetFloat64Array 1128 10 (Ans (take 10 cuspBuffer));
     EvFree 1024; EvFree 1128] !! 0%nat = Some (EvMalloc 104 pc)
    /\ EvGetFloat64Array pc 13 (Ans buf)
       ∈ [EvMalloc 104 1024; EvMalloc 80 1128;
          EvCall "swe_houses"
                 [VNum 2451545; VNum 52; VNum 13; VNum 80; VPtr 1024; VPtr 1128]
                 (Ans 0%float);
          EvGetFloat64Array 1024 13 (Ans cuspBuffer);
          EvGetFloat64Array 1128 10 (Ans (take 10 cuspBuffer));
          EvFree 1024; EvFree 1128]
    /\ cuspsOf
         (VObj [("cusps", VArr (VNum <$> [15; 45; 75; 105; 135; 165; 195; 225;
                                          255; 285; 315; 345]%float));
                ("ascendant", VNum 0); ("mc", VNum 15); ("armc", VNum 45);
                ("vertex", VNum 75); ("equatorialAscendant", VNum 105);
                ("coAscendantKoch", VNum 135); ("coAscendantMunkasey", VNum 165);
                ("polarAscendant", VNum 195)])
       = Some (VArr (VNum <$> drop 1 buf))
    /\ (length buf = 13%nat -> length (drop 1 buf) = 12%nat)
    /\ (forall i, drop 1 buf !! i = buf !! S i).
Proof.
  apply (house_cusps_trimmed (scripted (Ans 0%float) (Ans "") cuspBuffer)
           "swe_houses" (configOf "swe_houses") swe_houses
           [VNum 2451545; VNum 52; VNum 13; VStr "P"] 1024%N 1208%N).
  - in_list.
  - reflexivity.
  - exact houses_run.
Defined.
End WrapperExamples.
(** * Reading a string from the linear memory *)

Section HelperClaims.
Import Helpers.
Variable decode : list Byte.byte -> string.
Implicit Types (mem : list Byte.byte) (ptr : Z).

Local Open Scope Z_scope.

Lemma isZero_at mem i :
  isZero (at_ mem i) = true <-> 0 <= i /\ mem !! Z.to_nat i = Some x00.
Proof.
  unfold at_. destruct (Z.ltb_spec i 0) as [Hi|Hi]; simpl.
  - split; [done|lia].
  - destruct (mem !! Z.to_nat i) as [b|]; simpl.
    + split.
      * intros Hb. apply Byte.byte_dec_bl in Hb. by subst.
      * intros [_ [= ->]]. done.
    + split; [done|]. by intros [_ ?].
Qed.

(** The scan stops at the first index at which the test fails. *)
Lemma scan_first mem (n : nat) : forall ptr fuel,
  isZero (at_ mem (ptr + Z.of_nat n)) = true ->
  (forall j : nat, (j < n)%nat -> isZero (at_ mem (ptr + Z.of_nat j)) = false) ->
  (n < fuel)%nat ->
  scan fuel mem ptr = Some (ptr + Z.of_nat n).
Proof.
  induction n as [|n IH]; intros ptr fuel Hz Hfirst Hfuel.
  - destruct fuel as [|fuel]; [lia|]. simpl.
    rewrite Z.add_0_r in Hz. rewrite Hz. f_equal. lia.
  - destruct fuel as [|fuel]; [lia|]. simpl.
    assert (H0 := Hfirst 0%nat ltac:(lia)). rewrite Z.add_0_r in H0. rewrite H0.
    replace (ptr + Z.of_nat (S n)) with ((ptr + 1) + Z.of_nat n) in * by lia.
    apply IH; [done| |lia].
    intros j Hj. specialize (Hfirst (S j) ltac:(lia)).
    by replace (ptr + 1 + Z.of_nat j) with (ptr + Z.of_nat (S j)) by lia.
Qed.

(** Without such an index the scan exhausts every bound. *)
Lemma scan_unbounded mem fuel : forall ptr,
  (forall k, ptr <= k -> isZero (at_ mem k) = false) ->
  scan fuel mem ptr = None.
Proof.
  induction fuel as [|fuel IH]; intros ptr Hno; [done|].
  simpl. rewrite (Hno ptr) by lia. apply IH. intros k Hk. apply Hno. lia.
Qed.

(** Below an index at which the test fails there is a first one. *)
Lemma first_zero mem (n : nat) : forall ptr,
  isZero (at_ mem (ptr + Z.of_nat n)) = true ->
  exists m : nat, (m <= n)%nat
    /\ isZero (at_ mem (ptr + Z.of_nat m)) = true
    /\ forall j : nat, (j < m)%nat -> isZero (at_ mem (ptr + Z.of_nat j)) = false.
Proof.
  induction n as [|n IH]; intros ptr Hz.
  - exists 0%nat. split; [done|]. split; [done|]. lia.
  - destruct (isZero (at_ mem ptr)) eqn:H0.
    + exists 0%nat. split; [lia|]. rewrite Z.add_0_r. split; [done|]. lia.
    + destruct (IH (ptr + 1)) as (m & Hm & Hzm & Hfirst).
      { by replace (ptr + 1 + Z.of_nat n) with (ptr + Z.of_nat (S n)) by lia. }
      exists (S m). split; [lia|]. split.
      * by replace (ptr + Z.of_nat (S m)) with (ptr + 1 + Z.of_nat m) by lia.
      * intros [|j] Hj; [by rewrite Z.add_0_r|].
        replace (ptr + Z.of_nat (S j)) with (ptr + 1 + Z.of_nat j) by lia.
        apply Hfirst. lia.
Qed.

Lemma subarray_inside mem ptr end_ :
  0 <= ptr <= end_ -> end_ <= Z.of_nat (length mem) ->
  subarray mem ptr end_
  = take (Z.to_nat (end_ - ptr)) (drop (Z.to_nat ptr) mem).
Proof.
  intros Hp He. unfold subarray, clampIndex. cbv zeta.
  destruct (Z.ltb_spec ptr 0); [lia|]. destruct (Z.ltb_spec end_ 0); [lia|].
  rewrite !Z.min_l by lia. by rewrite Z.max_l by lia.
Qed.

(** X16: for an address [ptr] (a natural number), if the memory holds a
    zero byte at some index at or after [ptr], then [getString] returns,
    for every bound on the scan above the distance to the first such
    index [end_], the decoding of the bytes from [ptr] up to [end_]
    excluded, none of which is zero; if it holds none, the scan exceeds
    every bound: the loop does not terminate. *)
Theorem getString_terminates mem ptr :
  0 <= ptr ->
  ((exists k, ptr <= k /\ at_ mem k = Some x00) ->
   exists end_ : Z,
     ptr <= end_
     /\ at_ mem end_ = Some x00
     /\ (forall j, ptr <= j < end_ -> at_ mem j <> Some x00)
     /\ forall fuel, (Z.to_nat (end_ - ptr) < fuel)%nat ->
          getString decode fuel mem ptr
          = Some (decode (take (Z.to_nat (end_ - ptr)) (drop (Z.to_nat ptr) mem))))
  /\ ((forall k, ptr <= k -> at_ mem k <> Some x00) ->
      forall fuel, getString decode fuel mem ptr = None).
Proof.
  intros Hptr. split.
  - intros (k & Hk & Hzero).
    destruct (first_zero mem (Z.to_nat (k - ptr)) ptr) as (m & Hm & Hzm & Hfirst).
    { replace (ptr + Z.of_nat (Z.to_nat (k - ptr))) with k by lia. by rewrite Hzero. }
    exists (ptr + Z.of_nat m).
    pose proof (proj1 (isZero_at _ _) Hzm) as [_ Hlook].
    split; [lia|]. split; [|split].
    + unfold at_. by destruct (Z.ltb_spec (ptr + Z.of_nat m) 0); [lia|].
    + intros j Hj Hzj.
      specialize (Hfirst (Z.to_nat (j - ptr)) ltac:(lia)).
      replace (ptr + Z.of_nat (Z.to_nat (j - ptr))) with j in Hfirst by lia.
      by rewrite Hzj in Hfirst.
    + intros fuel Hfuel. unfold getString.
      rewrite (scan_first mem m) by (done || lia).
      rewrite subarray_inside; [done|lia|].
      apply lookup_lt_Some in Hlook. lia.
  - intros Hno fuel. unfold getString. rewrite scan_unbounded; [done|].
    intros k Hk. specialize (Hno k Hk).
    destruct (isZero (at_ mem k)) eqn:E; [|done].
    apply isZero_at in E as [Hk0 Hl]. exfalso. apply Hno.
    unfold at_. by destruct (Z.ltb_spec k 0); [lia|].
Qed.
End HelperClaims.

Section HelperExamples.
Import Helpers.
Local Open Scope Z_scope.

(** The bytes of [Sun], a zero byte and two more bytes. *)
Definition sunBytes : list Byte.byte := [x53; x75; x6e; x00; x41; x00]%byte.

Example getString_sun :
  getString string_of_list_byte 4 sunBytes 0 = Some "Sun".
Proof. reflexivity. Qed.

Example getString_out_of_fuel :
  getString string_of_list_byte 3 sunBytes 0 = None.
Proof. reflexivity. Qed.

(** A negative [ptr] is no address: the scan runs up to index 0 and
    [subarray] counts its first index from the end of the memory. *)
Remark getString_negative_pointer :
  getString string_of_list_byte 8 [x41; x00]%byte (-1) = Some "".
Proof. reflexivity. Qed.

Lemma getString_terminates_witness :
  0 <= 0
  /\ ((exists k, 0 <= k /\ at_ sunBytes k = Some x00) ->
      exists end_ : Z,
        0 <= end_
        /\ at_ sunBytes end_ = Some x00
        /\ (forall j, 0 <= j < end_ -> at_ sunBytes j <> Some x00)
        /\ forall fuel, (Z.to_nat (end_ - 0) < fuel)%nat ->
             getString string_of_list_byte fuel sunBytes 0
             = Some (string_of_list_byte
                       (take (Z.to_nat (end_ - 0)) (drop (Z.to_nat 0) sunBytes)))).
Proof.
  split; [lia|].
  apply (getString_terminates string_of_list_byte sunBytes 0). lia.
Defined.
End HelperExamples.
(** * More about the resolver and the constants document *)

Section ResolverProperties.
Import Resolver Emit.






Lemma sort_run cs out :
  topologicalSort cs = Some out -> exists sk, SortRun cs sk out.
Proof.
  intros H. destruct (topologicalSort_run cs) as (sk & out' & R).
  pose proof (run_result _ _ _ R) as H'. rewrite H in H'. injection H' as <-.
  by exists sk.
Qed.

(** The definition that [byName] keeps for a name is the last one of the
    input. *)
Lemma byNameOf_last cs k c :
  byNameOf cs !! k = Some c ->
  exists l1 l2, cs = l1 ++ c :: l2 /\ k ∉ names l2.
Proof.
  induction cs as [|x l IH] using rev_ind.
  - unfold byNameOf. simpl. by rewrite lookup_empty.
  - rewrite byNameOf_snoc. intros H.
    destruct (decide (c_name x = k)) as [<-|Hne].
    + rewrite lookup_insert_eq in H. injection H as <-.
      exists l, []. split; [done|]. apply not_elem_of_nil.
    + rewrite lookup_insert_ne in H by done.
      destruct (IH H) as (l1 & l2 & -> & Hk).
      exists l1, (l2 ++ [x]). split; [by rewrite <- app_assoc|].
      unfold names in *. rewrite map_app, elem_of_app. intros [?|Hx]; [done|].
      apply list_elem_of_singleton in Hx. done.
Qed.

(** X1: the sort returns on every input: the loop over the skipped set and
    the recursion of [visit] end, also when definitions mention each
    other in a cycle or a name is defined more than once. *)
Theorem topologicalSort_terminates (cs : list Constant) :
  exists out, topologicalSort cs = Some out.
Proof.
  destruct (topologicalSort_run cs) as (sk & out & R).
  exists out. exact (run_result _ _ _ R).
Qed.

(** X2: no name occurs twice in the output, and every constant of the output
    is the last definition of its name in the input. *)
Theorem sort_keeps_last_definitions (cs out : list Constant) :
  topologicalSort cs = Some out ->
  NoDup (names out)
  /\ forall c, c ∈ out ->
       exists l1 l2, cs = l1 ++ c :: l2 /\ c_name c ∉ names l2.
Proof.
  intros H. destruct (sort_run cs out H) as (sk & R).
  split; [exact (run_nodup _ _ _ R)|].
  intros c Hc. destruct (run_members _ _ _ R c Hc) as [Hb _].
  by apply byNameOf_last.
Qed.

Lemma sort_keeps_last_definitions_witness :
  NoDup (names [K "AA" []; K "BB" ["AA"]])
  /\ forall c, c ∈ [K "AA" []; K "BB" ["AA"]] ->
       exists l1 l2, [K "BB" []; K "AA" []; K "BB" ["AA"]] = l1 ++ c :: l2
                     /\ c_name c ∉ names l2.
Proof.
  apply (sort_keeps_last_definitions [K "BB" []; K "AA" []; K "BB" ["AA"]]).
  by vm_compute.
Defined.



(** X4: every name mentioned by a constant of the output is defined by a
    constant of the output. *)
Theorem sort_output_closed (cs out : list Constant) (c : Constant) (d : string) :
  topologicalSort cs = Some out ->
  c ∈ out -> d ∈ c_dependencies c -> d ∈ names out.
Proof.
  intros H Hc Hd. destruct (sort_run cs out H) as (sk & R).
  by destruct (run_deps_defined cs sk out c d R Hc Hd) as (_ & _ & ?).
Qed.

Lemma sort_output_closed_witness :
  "AA" ∈ names [K "AA" []; K "BB" ["AA"]; K "CC" ["AA"; "BB"]].
Proof.
  apply (sort_output_closed [K "CC" ["AA"; "BB"]; K "AA" []; K "BB" ["AA"]]
           [K "AA" []; K "BB" ["AA"]; K "CC" ["AA"; "BB"]]
           (K "BB" ["AA"]) "AA").
  - by vm_compute.
  - in_list.
  - simpl. in_list.
Defined.
End ResolverProperties.

Section DocumentProperties.
Import Resolver Emit.
#[local] Existing Instance inGroup_dec.

Definition inGroups (gs : list string) (c : Constant) : Prop :=
  categorizeConstant (c_name c) ∈ gs.

#[local] Instance inGroups_dec gs c : Decision (inGroups gs c).
Proof. unfold inGroups. apply _. Defined.

Lemma filter_groups_cons g gs (l : list Constant) :
  g ∉ gs ->
  filter (inGroups (g :: gs)) l ≡ₚ filter (inGroup g) l ++ filter (inGroups gs) l.
Proof.
  intros Hg. induction l as [|x l IH]; [done|].
  destruct (decide (categorizeConstant (c_name x) = g)) as [E|E].
  - rewrite (filter_cons_True (inGroups (g :: gs))) by (unfold inGroups; set_solver).
    rewrite (filter_cons_True (inGroup g)) by done.
    rewrite (filter_cons_False (inGroups gs)) by (unfold inGroups; set_solver).
    simpl. by rewrite IH.
  - rewrite (filter_cons_False (inGroup g)) by done.
    destruct (decide (categorizeConstant (c_name x) ∈ gs)) as [I|I].
    + rewrite (filter_cons_True (inGroups (g :: gs))) by (unfold inGroups; set_solver).
      rewrite (filter_cons_True (inGroups gs)) by done.
      rewrite IH. apply Permutation_middle.
    + rewrite (filter_cons_False (inGroups (g :: gs))) by (unfold inGroups; set_solver).
      by rewrite (filter_cons_False (inGroups gs)) by done.
Qed.

Lemma flat_map_groups gs (l : list Constant) :
  NoDup gs ->
  flat_map (fun g => filter (inGroup g) l) gs ≡ₚ filter (inGroups gs) l.
Proof.
  induction 1 as [|g gs Hg _ IH]; cbn [flat_map].
  - induction l as [|x l IHl]; [done|].
    by rewrite filter_cons_False by (unfold inGroups; set_solver).
  - by rewrite IH, filter_groups_cons.
Qed.

Lemma filter_all_groups (l : list Constant) : filter (inGroups groupOrder) l = l.
Proof.
  induction l as [|x l IH]; [done|].
  rewrite filter_cons_True by apply categorizeConstant_groupOrder. by rewrite IH.
Qed.

(** A line of the document that defines a constant. *)
Definition exportLine (line : string) : bool := String.prefix "export const " line.

Lemma exportLine_constant c : exportLine (renderConstant c) = true.
Proof. unfold exportLine, renderConstant. by destruct (c_name c). Qed.

Lemma exportLine_group (g : string * list Constant) :
  List.filter exportLine (renderGroup g) = map renderConstant (snd g).
Proof.
  unfold renderGroup. cbn [List.filter].
  change (exportLine ("// " +:+ JS.replaceChar "_" " " (fst g))) with false.
  cbv iota. induction (snd g) as [|c l IH]; [done|].
  cbn [map app List.filter].
  by rewrite exportLine_constant, IH.
Qed.

(** X5: the lines of the constants document that define a constant are the
    renderings of the sorted constants, each once, rearranged by
    category: no constant of the sort is lost by the grouping and none
    is written twice. *)
Theorem document_exports_sorted (sorted : list Constant) :
  List.filter exportLine (constantsLines sorted)
  = map renderConstant (flat_map snd (emittedGroups sorted))
  /\ flat_map snd (emittedGroups sorted) ≡ₚ sorted.
Proof.
  split.
  - unfold constantsLines. rewrite List.filter_app.
    change (List.filter exportLine constantsHeader) with (@nil string).
    cbn [app]. induction (emittedGroups sorted) as [|g gs IH]; [done|].
    cbn [flat_map]. by rewrite List.filter_app, map_app, exportLine_group, IH.
  - rewrite emittedGroups_flat, (flat_map_groups _ _ groupOrder_NoDup).
    by rewrite filter_all_groups.
Qed.
End DocumentProperties.

(** * More about the declaration extractor *)

Section ExtractProperties.
Import Regex Extract.

(** What [parseParams] makes of the text [piece] when it becomes the
    [k]-th parameter of the result. *)
Definition paramOf (k : nat) (piece : string) (p : FunctionParam) : Prop :=
  p_isPointer p = JS.includes piece "*"
  /\ match partsOf piece with
     | [] => False
     | [t] => p_type p = t /\ p_name p = "arg" +:+ JS.num (N.of_nat k)
     | parts => p_type p = JS.join " " (removelast parts)
                /\ p_name p = List.last parts ""
     end.

Lemma parseParam_positions (S : string -> Prop) params param :
  S param ->
  (forall k p, params !! k = Some p -> exists piece, S piece /\ paramOf k piece p) ->
  forall k p, parseParam params param !! k = Some p ->
              exists piece, S piece /\ paramOf k piece p.
Proof.
  intros Hparam Hinv k p. unfold parseParam.
  destruct (String.eqb param ""); [by apply Hinv|]. cbv zeta.
  assert (Hnew : forall q, paramOf (length params) param q ->
            (params ++ [q]) !! k = Some p -> exists piece, S piece /\ paramOf k piece p).
  { intros q Hq Hk. destruct (decide (k < length params)) as [Hlt|Hge].
    - rewrite lookup_app_l in Hk by done. by apply Hinv.
    - rewrite lookup_app_r in Hk by lia.
      destruct (k - length params) as [|n] eqn:E; [|by destruct n].
      injection Hk as <-. exists param. split; [done|].
      by replace k with (length params) by lia. }
  destruct (partsOf param) as [|a [|b parts]] eqn:Hparts; cbn [length Nat.leb Nat.eqb].
  - by apply Hinv.
  - apply Hnew. split; [apply dropConst_star|]. by rewrite Hparts.
  - apply Hnew. split; [apply dropConst_star|]. by rewrite Hparts.
Qed.

Lemma foldl_parseParam_positions (S : string -> Prop) l : forall params,
  (forall x, x ∈ l -> S x) ->
  (forall k p, params !! k = Some p -> exists piece, S piece /\ paramOf k piece p) ->
  forall k p, foldl parseParam params l !! k = Some p ->
              exists piece, S piece /\ paramOf k piece p.
Proof.
  induction l as [|x l IH]; intros params Hl Hinv; [done|].
  cbn [foldl]. apply IH; [intros y Hy; apply Hl; by right|].
  apply parseParam_positions; [apply Hl; by left|done].
Qed.

(** X8: every parameter is made of one of the texts between the commas: a
    text of two words or more gives its last word as the name
    and the words before it as the type, a text of one word gives that
    word as the type and the name [arg] followed by the position of the
    parameter in the result; [isPointer] tells whether the text holds a
    star. *)
Theorem parseParams_positions (paramsStr : string) (k : nat) (p : FunctionParam) :
  parseParams paramsStr !! k = Some p ->
  exists piece, piece ∈ map JS.trim (JS.split "," paramsStr) /\ paramOf k piece p.
Proof.
  unfold parseParams. destruct (_ || _); [done|].
  by apply foldl_parseParam_positions.
Qed.

Example parseParams_unnamed :
  parseParams "const char *star, double, char *"
  = [mkParam "char" "star" true; mkParam "double" "arg1" false;
     mkParam "char" "arg2" true].
Proof. by vm_compute. Qed.

Lemma parseParams_positions_witness :
  exists piece,
    piece ∈ map JS.trim (JS.split "," "const char *star, double, char *")
    /\ paramOf 2 piece (mkParam "char" "arg2" true).
Proof.
  apply (parseParams_positions "const char *star, double, char *" 2).
  by rewrite parseParams_unnamed.
Defined.

(** A type without a star, and a name that is a word of the text (not
    empty, without star or white space) or a positional name. *)
Definition plainParam (p : FunctionParam) : Prop :=
  allOf noStar (p_type p) = true
  /\ ((allOf plain (p_name p) = true /\ p_name p <> "")
      \/ exists k, p_name p = "arg" +:+ JS.num k).

Lemma plain_noStar part : allOf plain part = true -> allOf noStar part = true.
Proof.
  apply allOf_impl. intros c H. unfold plain in H. by apply andb_true_iff in H as [? _].
Qed.

Lemma parseParam_plain params param :
  Forall plainParam params -> Forall plainParam (parseParam params param).
Proof.
  intros Hinv. unfold parseParam. destruct (String.eqb param ""); [done|]. cbv zeta.
  pose proof (partsOf_plain param) as Hparts.
  destruct (partsOf param) as [|a [|b parts]] eqn:E; cbn [length Nat.leb Nat.eqb].
  - done.
  - apply Forall_app. split; [done|]. constructor; [|constructor].
    apply Forall_cons in Hparts as [[Ha _] _]. split; cbn [p_type p_name List.hd].
    + by apply plain_noStar.
    + right. by eexists.
  - apply Forall_app. split; [done|]. constructor; [|constructor].
    split; cbn [p_type p_name].
    + apply allOf_concat; [done|]. apply Forall_forall. intros x Hx.
      apply removelast_elem_of in Hx.
      apply plain_noStar. by apply (proj1 (Forall_forall _ _) Hparts x).
    + left. by apply (proj1 (Forall_forall _ _) Hparts), last_elem_of.
Qed.

Lemma parseParams_all_plain paramsStr : Forall plainParam (parseParams paramsStr).
Proof.
  unfold parseParams. destruct (_ || _); [constructor|].
  generalize (map JS.trim (JS.split "," paramsStr)).
  assert (H : Forall plainParam []) by constructor. revert H.
  generalize (@nil FunctionParam). intros params H l. revert params H.
  induction l as [|x l IH]; intros params H; [done|].
  cbn [foldl]. by apply IH, parseParam_plain.
Qed.

(** X9: no type and no name of a parameter holds a star; a name taken from
    the text is not empty and holds no white space. *)
Theorem parseParams_plain (paramsStr : string) (p : FunctionParam) :
  p ∈ parseParams paramsStr -> plainParam p.
Proof. apply Forall_forall, parseParams_all_plain. Qed.

Lemma parseParams_plain_witness : plainParam (mkParam "char" "star" true).
Proof.
  apply (parseParams_plain "const char *star, double, char *").
  rewrite parseParams_unnamed. in_list.
Defined.

(** X10: no routine of the deny list is extracted, and the parameters of the
    extracted routines are those of [parseParams]: without stars. *)
Theorem parseFunctions_plain (headerContent : string) (fn : FunctionDecl) :
  fn ∈ parseFunctions headerContent ->
  fd_name fn ∉ skipFunctions /\ Forall plainParam (fd_params fn).
Proof.
  unfold parseFunctions. intros H.
  apply list_elem_of_omap in H as (m & _ & H). unfold parseFunction in H.
  cbv zeta in H.
  destruct (existsb _ skipFunctions) eqn:Hskip; [done|].
  injection H as <-. cbn [fd_name fd_params]. split; [|apply parseParams_all_plain].
  intros Hin. assert (Ht : existsb
      (String.eqb (JS.trim (default "" (group 2 m)))) skipFunctions = true);
    [|congruence].
  apply existsb_exists. eexists. split; [by apply list_elem_of_In|].
  apply String.eqb_refl.
Qed.

Definition calcHeader : string :=
  "ext_def(int32) swe_calc_ut(double tjd_ut, int32 ipl, int32 iflag,"
  +:+ String "010" "        double *xx, /* out */ char *serr);"
  +:+ String "010" "ext_def(char *) swe_version(char *);"
  +:+ String "010" "ext_def( void ) swe_close(void);".

Example parseFunctions_calc :
  parseFunctions calcHeader
  = [mkDecl "int32" "swe_calc_ut"
            [mkParam "double" "tjd_ut" false; mkParam "int32" "ipl" false;
             mkParam "int32" "iflag" false; mkParam "double" "xx" true;
             mkParam "char" "serr" true];
     mkDecl "void" "swe_close" []].
Proof. by vm_compute. Qed.

Lemma parseFunctions_plain_witness :
  fd_name (mkDecl "void" "swe_close" []) ∉ skipFunctions
  /\ Forall plainParam (fd_params (mkDecl "void" "swe_close" [])).
Proof.
  apply (parseFunctions_plain calcHeader).
  rewrite parseFunctions_calc. in_list.
Defined.

Lemma parseConstantValue_nonempty value parsed numeric :
  value <> "" -> parseConstantValue value = Some (parsed, numeric) -> parsed <> "".
Proof.
  intros Hne H. unfold parseConstantValue in H. cbv zeta in H.
  repeat match type of H with
         | (if ?b then _ else _) = _ => destruct b
         end;
    try discriminate H; injection H as <- <-; done.
Qed.

(** X7: no constant of the deny list is extracted, and none with an empty
    value. *)
Theorem parseConstants_filters (headerContent : string) (c : Constant) :
  c ∈ parseConstants headerContent ->
  c_name c ∉ skipNames /\ c_value c <> "".
Proof.
  unfold parseConstants. intros H.
  apply list_elem_of_omap in H as (line & _ & H). unfold parseLine in H.
  destruct (exec defineRe line) as [m|]; [|done]. cbv zeta in H.
  destruct (existsb _ skipNames) eqn:Hskip; [done|].
  destruct (match JS.trim (default "" (group 2 m)) with
            | "" => false | String c0 _ => oneOf quoteChars c0 end); [done|].
  destruct (test (Chr "(") _); [done|].
  destruct (String.eqb_spec
              (JS.trim (replaceFirst lineCommentRe ""
                 (JS.trim (replaceAll inlineCommentRe (fun _ => "")
                    (JS.trim (default "" (group 2 m))))))) "") as [|Hne]; [done|].
  destruct (parseConstantValue _) as [[parsed numeric]|] eqn:Hv; [|done].
  injection H as <-. cbn [c_name c_value]. split.
  - intros Hin. assert (Ht : existsb
        (String.eqb (default "" (group 1 m))) skipNames = true); [|congruence].
    apply existsb_exists. eexists. split; [by apply list_elem_of_In|].
    apply String.eqb_refl.
  - by apply (parseConstantValue_nonempty _ _ _ Hne Hv).
Qed.

Lemma parseConstants_filters_witness :
  c_name (mkConstant "SE_SELF" "(SE_SELF | 1)" None ["SE_SELF"]) ∉ skipNames
  /\ c_value (mkConstant "SE_SELF" "(SE_SELF | 1)" None ["SE_SELF"]) <> "".
Proof.
  apply (parseConstants_filters "#define SE_SELF (SE_SELF | 1)").
  rewrite parseConstants_self. in_list.
Defined.
End ExtractProperties.

(** * More about the synthesized wrappers *)

Section WrapperProperties.
Import Cfg Synth Wrapper.
Context {W : Type} (rt : Runtime W).

Lemma exec_check_pass ρ v rest x (st : W * list event) :
  lookup "ret" ρ = Some (VNum x) ->
  PrimFloat.ltb x 0 = false ->
  execStmts rt ρ (SCheckNegative v :: rest) st = execStmts rt ρ rest st.
Proof.
  intros Hret Hpos. cbn [execStmts execStmt].
  unfold Wrapper.bind at 1. unfold Wrapper.bind at 1. unfold getVar. rewrite Hret.
  unfold ret at 1. rewrite Hpos. unfold ret at 1. done.
Qed.

(** The statements between the native call and the releases. *)
Definition checkStmts (config : FunctionConfig) : list stmt :=
  match returnTypeOf config with
  | RCheckNegative | RCheckError =>
      match List.find (fun o => isError (r_type o))
                      (map readOf (outputsOf config)) with
      | Some errorRead => [SCheckNegative (r_varName errorRead)]
      | None => []
      end
  | _ => []
  end.

Lemma checkStmts_quiet config : forallb quietStmt (checkStmts config) = true.
Proof.
  unfold checkStmts. destruct (returnTypeOf config); try done;
    by destruct (List.find _ _).
Qed.

(** One invocation, as far as the native call: the addresses obtained,
    the arguments of the call and what the run does after the call. *)
Lemma invoke_call fn config args w :
  wellScoped fn config ->
  (exists r w1 tr,
     invoke rt (wrapperProgram fn config) args w = (r, (w1, tr))
     /\ allocationThrows config r tr)
  \/ exists ps w1 ρ evs,
    Forall allocEvent evs /\ allocated evs = ps
    /\ length evs = length (outputsOf config) + length (inputStringsOf config)
    /\ invoke rt (wrapperProgram fn config) args w
       = match execStmts rt ρ (prog_body (wrapperProgram fn config)) (w1, evs) with
         | (Hang, st2) => (Hang, st2)
         | (c, (w2, tr2)) =>
             (finish c, (foldl (fun w p => rt_free rt p w) w2 ps, tr2 ++ map EvFree ps))
         end.
Proof.
  intros Hws.
  destruct (invoke_run rt fn config args w Hws) as [Hthrow|(ps & w1 & Hlen & Hinv)];
    [by left|right].
  destruct (wrapper_allocs_shape fn config) as [Hshape Hlen'].
  eexists ps, w1, _, _. split; [|split; [|split; [|exact Hinv]]].
  - by apply allocEvents_spec; [|rewrite Hlen, Hlen'].
  - by apply allocEvents_spec; [|rewrite Hlen, Hlen'].
  - destruct (allocEvents_spec _ (bindParams (prog_params (wrapperProgram fn config)) args)
                ps Hshape) as (_ & _ & _ & ->); [by rewrite Hlen, Hlen'|].
    rewrite Hlen'. unfold allocNames. by rewrite length_app, length_map.
Qed.


(** X12: a native routine that traps makes the wrapper raise the same error,
    after the buffers have been released; nothing is read in between. *)
Theorem native_trap_propagates
    (fn : FunctionDecl) (config : FunctionConfig) (args : list jsval)
    (w w' : W) (r : result jsval) (tr : list event)
    (f : string) (a : list jsval) (msg : string) :
  wellScoped fn config ->
  invoke rt (wrapperProgram fn config) args w = (r, (w', tr)) ->
  EvCall f a (Trap msg) ∈ tr ->
  r = Raise (RuntimeError msg)
  /\ exists pre, Forall allocEvent pre
                 /\ tr = pre ++ EvCall f a (Trap msg) :: map EvFree (allocated pre).
Proof.
  intros Hws Hrun Hcall.
  destruct (invoke_call fn config args w Hws)
    as [(r0 & w0 & tr0 & E & Hthrow)
       |(ps & w1 & ρ & evs & Hevs & Hps & Hlen & Hinv)].
  { rewrite E in Hrun. injection Hrun as -> -> ->.
    by apply (allocationThrows_no_call _ _ _ f a (Trap msg)) in Hthrow. }
  rewrite Hinv in Hrun. clear Hinv. rewrite wrapper_body_eq in Hrun.
  fold (checkStmts config) in Hrun.
  set (rest := checkStmts config ++ buildReturnStmts _ _ _) in Hrun.
  assert (Hq : forallb quietStmt rest = true).
  { unfold rest. rewrite forallb_app, checkStmts_quiet. apply buildReturnStmts_quietStmt. }
  match type of Hrun with
  | context [execStmts rt ρ (SCall ?b ?g ?l :: rest) _] =>
      destruct (exec_call rt ρ b g l rest w1 evs)
        as [(vs & _ & Hexec) | (e & Hexec)];
      rewrite Hexec in Hrun; clear Hexec
  end.
  2:{ exfalso. simplify_eq/=. apply elem_of_app in Hcall as [Hc|Hc].
      - by apply alloc_not_call in Hc.
      - by apply free_not_call in Hc. }
  unfold afterCall in Hrun.
  destruct (rt_call rt (fd_name fn) vs w1) as [[y|m|] w2].
  - exfalso.
    match type of Hrun with
    | context [execStmts rt ?ρ' rest ?st] =>
        destruct (execStmts rt ρ' rest st) as [c [w3 tr3]] eqn:Erest
    end.
    apply (execStmts_reads rt _ _ Hq) in Erest as (revs & Htr3 & Hreads).
    cbn [snd] in Htr3. subst tr3.
    assert (Hin : EvCall f a (Trap msg) ∈ [EvCall (fd_name fn) vs (Ans y)]).
    { destruct c as [[ρ'|v]|e|]; simplify_eq/=;
        repeat (apply elem_of_app in Hcall as [Hcall|Hcall]);
        try (by apply alloc_not_call in Hcall);
        try (by apply free_not_call in Hcall);
        try (by apply reads_not_call in Hcall);
        done. }
    apply list_elem_of_singleton in Hin. discriminate.
  - simplify_eq/=.
    assert (Hin : EvCall f a (Trap msg) ∈ [EvCall (fd_name fn) vs (Trap m)]).
    { repeat (apply elem_of_app in Hcall as [Hcall|Hcall]);
        try (by apply alloc_not_call in Hcall);
        try (by apply free_not_call in Hcall); done. }
    apply list_elem_of_singleton in Hin. injection Hin as -> -> ->.
    split; [done|]. exists evs. split; [done|]. by rewrite <- app_assoc.
  - exfalso. simplify_eq/=.
    repeat (apply elem_of_app in Hcall as [Hcall|Hcall]);
      try (by apply alloc_not_call in Hcall).
    apply list_elem_of_singleton in Hcall. discriminate.
Qed.

(** X13: a wrapper raises a failure of its own only after the native routine
    has returned a negative number; a return value that is zero,
    positive or not a number never does. *)
Theorem failure_needs_negative_return
    (fn : FunctionDecl) (config : FunctionConfig) (args : list jsval)
    (w w' : W) (r : result jsval) (tr : list event) :
  wellScoped fn config ->
  invoke rt (wrapperProgram fn config) args w = (r, (w', tr)) ->
  isFailure r ->
  exists f a x, EvCall f a (Ans x) ∈ tr /\ PrimFloat.ltb x 0 = true.
Proof.
  intros Hws Hrun Hfail.
  destruct (invoke_call fn config args w Hws)
    as [(r0 & w0 & tr0 & E & Hthrow)
       |(ps & w1 & ρ & evs & Hevs & Hps & Hlen & Hinv)].
  { rewrite E in Hrun. injection Hrun as -> -> ->.
    by destruct (allocationThrows_result _ _ _ Hthrow) as [[? ->]| ->]. }
  rewrite Hinv in Hrun. clear Hinv. rewrite wrapper_body_eq in Hrun.
  fold (checkStmts config) in Hrun.
  set (build := buildReturnStmts _ _ _) in Hrun.
  assert (Hbuild : forall ρ', noFail (execStmts rt ρ' build)).
  { intros ρ'. apply execStmts_noFail. apply buildReturnStmts_forallb; done. }
  match type of Hrun with
  | context [execStmts rt ρ (SCall ?b ?g ?l :: ?rest) _] =>
      destruct (exec_call rt ρ b g l rest w1 evs)
        as [(vs & _ & Hexec) | (e & Hexec)];
      rewrite Hexec in Hrun; clear Hexec
  end.
  2:{ exfalso. by simplify_eq/=. }
  unfold afterCall in Hrun.
  destruct (rt_call rt (fd_name fn) vs w1) as [[y|m|] w2];
    [|exfalso; by simplify_eq/=|exfalso; by simplify_eq/=].
  match type of Hrun with
  | context [execStmts rt ?ρ' (checkStmts config ++ build) ?st] =>
      destruct (execStmts rt ρ' (checkStmts config ++ build) st)
        as [c [w3 tr3]] eqn:Erest
  end.
  assert (Hc : isFailure c).
  { destruct c as [[ρ'|v]|e|]; simplify_eq/=; done. }
  destruct (PrimFloat.ltb y 0) eqn:Hy.
  - exists (fd_name fn), vs, y. split; [|done].
    assert (Hq : forallb (fun s => negb (isMemStmt s)) (checkStmts config ++ build) = true).
    { rewrite forallb_app. apply andb_true_iff. split.
      - unfold checkStmts. destruct (returnTypeOf config); try done;
          by destruct (List.find _ _).
      - by apply buildReturnStmts_forallb. }
    apply (execStmts_quiet rt _ _ Hq) in Erest as (bevs & Htr3 & _).
    cbn [snd] in Htr3. subst tr3.
    destruct c as [[ρ'|v]|e|]; simplify_eq/=; try done.
    rewrite !elem_of_app. left. left. right. by left.
  - exfalso. unfold checkStmts in Erest.
    destruct (returnTypeOf config) eqn:Hmode;
      try (cbn [app] in Erest; by apply Hbuild in Erest).
    all: destruct (List.find _ _) as [errorRead|];
      [|cbn [app] in Erest; by apply Hbuild in Erest].
    all: cbn [app] in Erest; rewrite (exec_check_pass _ _ _ y) in Erest;
      [by apply Hbuild in Erest|done|done].
Qed.

(** X14: a wrapper of a routine without outputs that is not configured as
    [void] returns the number that the native routine returns. *)
Theorem result_is_native_return
    (fn : FunctionDecl) (config : FunctionConfig) (args : list jsval)
    (w w' : W) (r : result jsval) (tr : list event)
    (f : string) (a : list jsval) (x : float) :
  wellScoped fn config ->
  outputsOf config = [] ->
  returnTypeOf config <> RVoid ->
  invoke rt (wrapperProgram fn config) args w = (r, (w', tr)) ->
  EvCall f a (Ans x) ∈ tr ->
  r = Val (VNum x).
Proof.
  intros Hws Hout Hmode Hrun Hcall.
  destruct (invoke_call fn config args w Hws)
    as [(r0 & w0 & tr0 & E & Hthrow)
       |(ps & w1 & ρ & evs & Hevs & Hps & Hlen & Hinv)].
  { rewrite E in Hrun. injection Hrun as -> -> ->.
    by apply (allocationThrows_no_call _ _ _ f a (Ans x)) in Hthrow. }
  rewrite Hinv in Hrun. clear Hinv. rewrite wrapper_body_eq in Hrun.
  rewrite Hout in Hrun. cbn [map List.find] in Hrun.
  assert (Hcheck : match returnTypeOf config with
                   | RCheckNegative | RCheckError => @nil stmt
                   | _ => []
                   end = []) by by destruct (returnTypeOf config).
  rewrite Hcheck in Hrun. clear Hcheck. cbn [app] in Hrun.
  assert (Hret : buildReturnStmts [] config (returnTypeOf config)
                 = [SReturn (EVar "ret")]).
  { unfold buildReturnStmts. cbn. by destruct (returnTypeOf config). }
  rewrite Hret in Hrun. clear Hret.
  assert (Hbind : match returnTypeOf config with RVoid => false | _ => true end = true)
    by by destruct (returnTypeOf config).
  rewrite Hbind in Hrun. clear Hbind.
  match type of Hrun with
  | context [execStmts rt ρ (SCall true ?g ?l :: ?rest) _] =>
      destruct (exec_call rt ρ true g l rest w1 evs)
        as [(vs & _ & Hexec) | (e & Hexec)];
      rewrite Hexec in Hrun; clear Hexec
  end.
  2:{ exfalso. simplify_eq/=. apply elem_of_app in Hcall as [Hc|Hc].
      - by apply alloc_not_call in Hc.
      - by apply free_not_call in Hc. }
  unfold afterCall in Hrun.
  destruct (rt_call rt (fd_name fn) vs w1) as [[y|m|] w2].
  - change (execStmts rt (("ret", VNum y) :: ρ) [SReturn (EVar "ret")]
              (w2, evs ++ [EvCall (fd_name fn) vs (Ans y)]))
      with (@Val completion (Return (VNum y)),
            (w2, evs ++ [EvCall (fd_name fn) vs (Ans y)])) in Hrun.
    simplify_eq/=.
    assert (Hin : EvCall f a (Ans x) ∈ [EvCall (fd_name fn) vs (Ans y)]).
    { repeat (apply elem_of_app in Hcall as [Hcall|Hcall]);
        try (by apply alloc_not_call in Hcall);
        try (by apply free_not_call in Hcall); done. }
    apply list_elem_of_singleton in Hin. by injection Hin as -> -> ->.
  - exfalso. simplify_eq/=.
    repeat (apply elem_of_app in Hcall as [Hcall|Hcall]);
      try (by apply alloc_not_call in Hcall);
      try (by apply free_not_call in Hcall).
    apply list_elem_of_singleton in Hcall. discriminate.
  - exfalso. simplify_eq/=.
    repeat (apply elem_of_app in Hcall as [Hcall|Hcall]);
      try (by apply alloc_not_call in Hcall).
    apply list_elem_of_singleton in Hcall. discriminate.
Qed.
End WrapperProperties.

Definition swe_julday : FunctionDecl :=
  mkDecl "double" "swe_julday"
         [mkParam "int" "year" false; mkParam "int" "month" false;
          mkParam "int" "day" false; mkParam "double" "hour" false;
          mkParam "int" "gregflag" false].

Section WrapperPropertyExamples.
Import Cfg Synth Wrapper.

Example julday_text :
  generateWrapperFunction swe_julday (configOf "swe_julday")
  = ["/** Convert date to Julian Day */";
     "julday: (year: number, month: number, day: number, hour: number, gregflag: number): number => {";
     "  const ret = raw.swe_julday(year, month, day, hour, gregflag);";
     "  return ret;";
     "},"].
Proof. by vm_compute. Qed.

Example julday_run :
  invoke (scripted (Ans 2460311)%float (Ans "") [])
         (wrapperProgram swe_julday (configOf "swe_julday"))
         [VNum 2024; VNum 1; VNum 1; VNum 12; VNum 1] 1024%N
  = (Val (VNum 2460311),
     (1024%N,
      [EvCall "swe_julday" [VNum 2024; VNum 1; VNum 1; VNum 12; VNum 1]
              (Ans 2460311%float)])).
Proof. by vm_compute. Qed.

Lemma julday_wellScoped : wellScoped swe_julday (configOf "swe_julday").
Proof.
  split.
  - apply (bool_decide_unpack _). by vm_compute.
  - intros s Hs. vm_compute in Hs. by apply elem_of_nil in Hs.
Qed.


Lemma native_trap_propagates_witness :
  fst (invoke (scripted (Trap "unreachable") (Ans "") [])
              (wrapperProgram swe_fixstar_mag (configOf "swe_fixstar_mag"))
              [VStr "Sirius"] 1024%N)
  = Raise (RuntimeError "unreachable")
  /\ exists pre,
       Forall allocEvent pre
       /\ [EvMalloc 8 1024; EvMalloc 256 1032; EvAllocString (VStr "Sirius") 1288;
           EvCall "swe_fixstar_mag" [VPtr 1288; VPtr 1024; VPtr 1032]
                  (Trap "unreachable");
           EvFree 1024; EvFree 1032; EvFree 1288]
          = pre ++ EvCall "swe_fixstar_mag" [VPtr 1288; VPtr 1024; VPtr 1032]
                          (Trap "unreachable")
                :: map EvFree (allocated pre).
Proof.
  rewrite fixstar_mag_trap. cbn [fst].
  apply (native_trap_propagates
           (scripted (Trap "unreachable") (Ans "") [])
           swe_fixstar_mag (configOf "swe_fixstar_mag") [VStr "Sirius"] 1024%N 1304%N).
  - apply fixstar_mag_wellScoped.
  - apply fixstar_mag_trap.
  - in_list.
Defined.

Lemma failure_needs_negative_return_witness :
  exists f a x,
    EvCall f a (Ans x)
    ∈ [EvMalloc 8 1024; EvMalloc 256 1032; EvAllocString (VStr "Sirius") 1288;
       EvCall "swe_fixstar_mag" [VPtr 1288; VPtr 1024; VPtr 1032] (Ans (-1)%float);
       EvGetString 1032 (Ans "star not found");
       EvFree 1024; EvFree 1032; EvFree 1288]
    /\ PrimFloat.ltb x 0 = true.
Proof.
  apply (failure_needs_negative_return
           (scripted (Ans (-1)%float) (Ans "star not found") [])
           swe_fixstar_mag (configOf "swe_fixstar_mag") [VStr "Sirius"] 1024%N 1304%N
           (Raise (Failure "star not found"))).
  - apply fixstar_mag_wellScoped.
  - apply fixstar_mag_failure.
  - exact I.
Defined.

Lemma result_is_native_return_witness :
  fst (invoke (scripted (Ans 2460311)%float (Ans "") [])
              (wrapperProgram swe_julday (configOf "swe_julday"))
              [VNum 2024; VNum 1; VNum 1; VNum 12; VNum 1] 1024%N)
  = Val (VNum 2460311).
Proof.
  rewrite julday_run. cbn [fst].
  apply (result_is_native_return
           (scripted (Ans 2460311)%float (Ans "") [])
           swe_julday (configOf "swe_julday")
           [VNum 2024; VNum 1; VNum 1; VNum 12; VNum 1] 1024%N 1024%N
           (Val (VNum 2460311))
           [EvCall "swe_julday" [VNum 2024; VNum 1; VNum 1; VNum 12; VNum 1]
                   (Ans 2460311%float)]
           "swe_julday" [VNum 2024; VNum 1; VNum 1; VNum 12; VNum 1]).
  - apply julday_wellScoped.
  - reflexivity.
  - discriminate.
  - apply julday_run.
  - in_list.
Defined.
End WrapperPropertyExamples.

(** * Reads of numbers and the buffers they read *)

(** The address of a read of numbers and the number of bytes it reads. *)
Definition readBytes (ev : Wrapper.event) : option (N * N) :=
  match ev with
  | Wrapper.EvGetFloat64 p _ => Some (p, 8%N)
  | Wrapper.EvGetInt32 p _ => Some (p, 4%N)
  | Wrapper.EvGetFloat64Array p count _ => Some (p, (count * 8)%N)
  | _ => None
  end.

(** The pointer constant that an expression or a statement reads
    numbers from, with the number of bytes read from its address on. *)
Definition exprReads (e : Wrapper.expr) : list (string * N) :=
  match e with
  | Wrapper.EGetInt32 v => [(v, 4%N)]
  | Wrapper.EGetFloat64 v => [(v, 8%N)]
  | Wrapper.EGetFloat64Array v count => [(v, (count * 8)%N)]
  | _ => []
  end.

Definition stmtReads (s : Wrapper.stmt) : list (string * N) :=
  match s with
  | Wrapper.SConst _ e | Wrapper.SReturn e => exprReads e
  | Wrapper.SInt32Array v count => [(v, (count * 4)%N)]
  | Wrapper.SReturnInline fields => flat_map (fun f => exprReads (snd f)) fields
  | Wrapper.SReturnObject fields =>
      flat_map (fun f => exprReads (snd (fst f))) fields
  | _ => []
  end.

(** The constants that a statement declares. *)
Definition bindsOf (s : Wrapper.stmt) : list string :=
  match s with
  | Wrapper.SMalloc v _ | Wrapper.SAllocString v _ => [v]
  | Wrapper.SCall true _ _ => ["ret"]
  | Wrapper.SConst x _ => [x]
  | Wrapper.SInt32Array _ _ => ["arr"]
  | _ => []
  end.

(** The number of bytes obtained for the pointer constant [v]. *)
Definition sizeOf (allocs : list Wrapper.stmt) (v : string) : option N :=
  match List.find (fun s => String.eqb (allocVar s) v) allocs with
  | Some (Wrapper.SMalloc _ size) => Some (Wrapper.evalSize size)
  | _ => None
  end.

(** The statements [body] read no more than [allocs] obtains, and
    declare no constant that [allocs] declares. *)
Definition boundedIn (allocs body : list Wrapper.stmt) : bool :=
  forallb (fun r => match sizeOf allocs (fst r) with
                    | Some size => N.leb (snd r) size
                    | None => false
                    end)
          (flat_map stmtReads body)
  && forallb (fun x => negb (existsb (String.eqb x) (map allocVar allocs)))
             (flat_map bindsOf body).

Definition readsBounded (config : FunctionConfig) : bool :=
  boundedIn (map mallocOf (Cfg.outputsOf config)
             ++ map allocStringOf (Cfg.inputStringsOf config))
            (Wrapper.SCall true "" []
             :: checkStmts config
             ++ Synth.buildReturnStmts (map readOf (Cfg.outputsOf config)) config
                                       (Cfg.returnTypeOf config)).

Section BoundsFacts.
Import Cfg Synth Wrapper.
Context {W : Type} (rt : Runtime W).
Variable allocs : list stmt.
Variable A : list event.

(** The bytes from [a] to [a + n] lie in a buffer obtained in [A]. *)
Definition inside (a n : N) : Prop :=
  exists size p, EvMalloc size p ∈ A /\ (p <= a)%N /\ (a + n <= p + size)%N.

Definition okEv (ev : event) : Prop :=
  forall a n, readBytes ev = Some (a, n) -> inside a n.

(** The pointer constants hold the addresses of their buffers. *)
Definition Inv (ρ : env) : Prop :=
  forall v size, sizeOf allocs v = Some size ->
                 exists p, lookup v ρ = Some (VPtr p) /\ EvMalloc size p ∈ A.

Definition bounded (r : string * N) : Prop :=
  exists size, sizeOf allocs (fst r) = Some size /\ (snd r <= size)%N.

Lemma read_inside ρ v n p (off m : N) :
  Inv ρ -> bounded (v, n) -> lookup v ρ = Some (VPtr p) ->
  (off + m <= n)%N -> inside (p + off) m.
Proof.
  intros HI (size & Hsize & Hle) Hp Hoff. cbn [fst snd] in *.
  destruct (HI v size Hsize) as (p' & Hp' & Hin).
  rewrite Hp in Hp'. injection Hp' as <-.
  exists size, p. split; [done|]. lia.
Qed.

Lemma emits_pure (P : event -> Prop) {B} (m : @Wrapper.M W B) :
  (forall st, exists r, m st = (r, st)) -> emits P m.
Proof.
  intros H st r st' E. destruct (H st) as (r' & E'). rewrite E' in E.
  injection E as <- <-. exists []. by rewrite app_nil_r.
Qed.

Lemma emits_getVar P x ρ : emits P (@getVar W x ρ).
Proof.
  apply emits_pure. intros st. destruct (getVar_pure x ρ st) as (r & E & _).
  by exists r.
Qed.

(** After [getPtr] the computation goes on with the address that the
    constant holds. *)
Lemma emits_getPtr P v ρ {B} (k : N -> @Wrapper.M W B) :
  (forall p, lookup v ρ = Some (VPtr p) -> emits P (k p)) ->
  emits P (Wrapper.bind (getPtr v ρ) k).
Proof.
  intros Hk st r st' H. unfold Wrapper.bind, getPtr, getVar, unbound in H.
  unfold Wrapper.bind, ret, raise in H.
  destruct (lookup v ρ) as [[| | | | |]|] eqn:E;
    try (injection H as <- <-; exists []; by rewrite app_nil_r).
  exact (Hk _ eq_refl st r st' H).
Qed.

Lemma emits_getArr P x ρ {B} (k : list jsval -> @Wrapper.M W B) :
  (forall l, emits P (k l)) -> emits P (Wrapper.bind (getArr x ρ) k).
Proof.
  intros Hk. apply emits_bind; [|done].
  unfold getArr. apply emits_bind; [apply emits_getVar|].
  intros [| | | | |]; first [apply emits_ret | apply emits_raise].
Qed.

Lemma okEv_other ev : readBytes ev = None -> okEv ev.
Proof. intros H a n. by rewrite H. Qed.

Lemma readInt32s_bounded (n : nat) : forall p,
  (forall i : nat, (i < n)%nat -> inside (p + 4 * N.of_nat i) 4) ->
  emits okEv (readInt32s rt p n).
Proof.
  induction n as [|n IH]; intros p Hin; cbn [readInt32s]; [apply emits_ret|].
  apply emits_bind.
  - unfold getInt32. apply emits_bind; [apply emits_world|]. intros w. cbv zeta.
    apply emits_bind; [|intros _; apply emits_lift].
    apply emits_emit. intros a m [= <- <-].
    specialize (Hin 0%nat ltac:(lia)). by rewrite N.mul_0_r, N.add_0_r in Hin.
  - intros x. apply emits_bind; [|intros xs; apply emits_ret].
    apply IH. intros i Hi. specialize (Hin (S i) ltac:(lia)).
    by replace (p + 4 + 4 * N.of_nat i)%N with (p + 4 * N.of_nat (S i))%N by lia.
Qed.

Lemma evalExpr_bounded ρ e :
  Inv ρ -> Forall bounded (exprReads e) -> emits okEv (evalExpr rt ρ e).
Proof.
  intros HI Hb. destruct e; cbn [evalExpr exprReads] in *.
  - apply emits_getVar.
  - apply emits_getArr. intros l. apply emits_ret.
  - apply emits_getArr. intros l. apply emits_ret.
  - apply emits_getArr. intros l. apply emits_ret.
  - apply emits_getArr. intros l. apply emits_ret.
  - apply Forall_cons in Hb as [Hb _].
    apply emits_getPtr. intros p Hp.
    apply emits_bind; [|intros x; apply emits_ret].
    unfold getInt32. apply emits_bind; [apply emits_world|]. intros w. cbv zeta.
    apply emits_bind; [|intros _; apply emits_lift].
    apply emits_emit. intros a m [= <- <-].
    rewrite <- (N.add_0_r p). by apply (read_inside ρ v 4 p 0 4).
  - apply Forall_cons in Hb as [Hb _].
    apply emits_getPtr. intros p Hp.
    apply emits_bind; [|intros x; apply emits_ret].
    unfold getFloat64. apply emits_bind; [apply emits_world|]. intros w. cbv zeta.
    apply emits_bind; [|intros _; apply emits_lift].
    apply emits_emit. intros a m [= <- <-].
    rewrite <- (N.add_0_r p). by apply (read_inside ρ v 8 p 0 8).
  - apply emits_getPtr. intros p Hp.
    apply emits_bind; [|intros x; apply emits_ret].
    unfold getString. apply emits_bind; [apply emits_world|]. intros w. cbv zeta.
    apply emits_bind; [|intros _; apply emits_lift].
    apply emits_emit. by apply okEv_other.
  - apply Forall_cons in Hb as [Hb _].
    apply emits_getPtr. intros p Hp.
    apply emits_bind; [|intros x; apply emits_ret].
    unfold getFloat64Array. apply emits_bind; [apply emits_world|]. intros w. cbv zeta.
    apply emits_bind; [|intros _; apply emits_lift].
    apply emits_emit. intros a m [= <- <-].
    rewrite <- (N.add_0_r p). by apply (read_inside ρ v (count * 8) p 0 (count * 8)).
Qed.

Lemma evalFields_bounded {T} ρ (name : T -> string) (e : T -> expr) l :
  Inv ρ -> Forall bounded (flat_map (fun f => exprReads (e f)) l) ->
  emits okEv (evalFields rt ρ name e l).
Proof.
  intros HI. induction l as [|f l IH]; intros Hb; cbn [evalFields flat_map] in *.
  - apply emits_ret.
  - apply Forall_app in Hb as [Hf Hl].
    apply emits_bind; [by apply evalExpr_bounded|]. intros v.
    apply emits_bind; [by apply IH|]. intros vs. apply emits_ret.
Qed.
Lemma bind_val_inv {B C} (m : @Wrapper.M W B) (k : B -> @Wrapper.M W C) st c st' :
  Wrapper.bind m k st = (Val c, st') ->
  exists b st1, m st = (Val b, st1) /\ k b st1 = (Val c, st').
Proof.
  unfold Wrapper.bind. destruct (m st) as [[b|e|] st1]; [|done|done].
  intros H. by exists b, st1.
Qed.

Lemma ret_val_inv {B} (b c : B) (st st' : W * list event) :
  ret b st = (Val c, st') -> c = b.
Proof. by intros [= <- _]. Qed.

(** The constants after a statement: those before it, and at most one
    that the statement declares. *)
Lemma execStmt_env ρ s st ρ' st' :
  execStmt rt ρ s st = (Val (Next ρ'), st') ->
  ρ' = ρ \/ exists x v, x ∈ bindsOf s /\ ρ' = (x, v) :: ρ.
Proof.
  intros H. destruct s; cbn [execStmt bindsOf] in *.
  - apply bind_val_inv in H as (p & st1 & _ & H). apply ret_val_inv in H as [= ->].
    right. eexists _, _. split; [by left|done].
  - apply bind_val_inv in H as (a & st1 & _ & H).
    apply bind_val_inv in H as (p & st2 & _ & H). apply ret_val_inv in H as [= ->].
    right. eexists _, _. split; [by left|done].
  - apply bind_val_inv in H as (p & st1 & _ & H).
    apply bind_val_inv in H as (u & st2 & _ & H). apply ret_val_inv in H as [= ->].
    by left.
  - apply bind_val_inv in H as (vs & st1 & _ & H).
    apply bind_val_inv in H as (r & st2 & _ & H). apply ret_val_inv in H as [= ->].
    match goal with |- context [if ?b then _ else _] => destruct b end; [|by left]. right. eexists _, _. split; [by left|done].
  - apply bind_val_inv in H as (r & st1 & _ & H).
    destruct r as [x| | | | |]; try (apply ret_val_inv in H as [= ->]; by left).
    destruct (PrimFloat.ltb x 0); [|apply ret_val_inv in H as [= ->]; by left].
    apply bind_val_inv in H as (p & st2 & _ & H).
    apply bind_val_inv in H as (m & st3 & _ & H). done.
  - apply bind_val_inv in H as (v & st1 & _ & H). apply ret_val_inv in H as [= ->].
    right. eexists _, _. split; [by left|done].
  - apply ret_val_inv in H as [= ->]. by left.
  - apply bind_val_inv in H as (p & st1 & _ & H).
    apply bind_val_inv in H as (l & st2 & _ & H). apply ret_val_inv in H as [= ->].
    right. eexists _, _. split; [by left|done].
  - apply bind_val_inv in H as (v & st1 & _ & H). by apply ret_val_inv in H.
  - apply bind_val_inv in H as (v & st1 & _ & H). by apply ret_val_inv in H.
  - apply bind_val_inv in H as (v & st1 & _ & H). by apply ret_val_inv in H.
Qed.

Lemma sizeOf_var v size : sizeOf allocs v = Some size -> v ∈ map allocVar allocs.
Proof.
  unfold sizeOf. destruct (List.find _ allocs) as [s|] eqn:E; [|done].
  apply find_some in E as [Hin Hv]. apply String.eqb_eq in Hv as <-.
  intros _. apply list_elem_of_fmap. exists s. split; [done|by apply list_elem_of_In].
Qed.

Lemma Inv_cons ρ x u :
  x ∉ map allocVar allocs -> Inv ρ -> Inv ((x, u) :: ρ).
Proof.
  intros Hx HI v size Hv. destruct (HI v size Hv) as (p & Hp & Hin).
  exists p. split; [|done]. rewrite lookup_cons.
  destruct (String.eqb_spec x v) as [->|_]; [|done].
  exfalso. apply Hx. by eapply sizeOf_var.
Qed.

Lemma execStmt_bounded ρ s :
  isMemStmt s = false -> Inv ρ -> Forall bounded (stmtReads s) ->
  emits okEv (execStmt rt ρ s).
Proof.
  intros Hmem HI Hb. destruct s; try discriminate Hmem; cbn [execStmt stmtReads] in *.
  - apply emits_bind; [|intros vs].
    { apply emits_pure. intros st. destruct (evalArgs_pure ρ args st) as (r & E & _).
      by exists r. }
    apply emits_bind; [|intros r; apply emits_ret].
    unfold call. apply emits_bind; [apply emits_world|]. intros w.
    destruct (rt_call rt f vs w) as [r w1].
    apply emits_bind; [apply emits_setWorld|]. intros _.
    apply emits_bind; [|intros _; apply emits_lift].
    apply emits_emit. by apply okEv_other.
  - apply emits_bind; [apply emits_getVar|]. intros r.
    destruct r as [x| | | | |]; try apply emits_ret.
    destruct (PrimFloat.ltb x 0); [|apply emits_ret].
    apply emits_getPtr. intros p Hp.
    apply emits_bind; [|intros m; apply emits_raise].
    unfold getString. apply emits_bind; [apply emits_world|]. intros w. cbv zeta.
    apply emits_bind; [|intros _; apply emits_lift].
    apply emits_emit. by apply okEv_other.
  - apply emits_bind; [by apply evalExpr_bounded|]. intros u. apply emits_ret.
  - apply emits_ret.
  - apply Forall_cons in Hb as [Hb _].
    apply emits_getPtr. intros p Hp.
    apply emits_bind; [|intros l; apply emits_ret].
    apply readInt32s_bounded. intros i Hi.
    apply (read_inside ρ v (count * 4) p); try done. lia.
  - apply emits_bind; [by apply evalExpr_bounded|]. intros u. apply emits_ret.
  - apply emits_bind; [by apply evalFields_bounded|]. intros u. apply emits_ret.
  - apply emits_bind; [by apply evalFields_bounded|]. intros u. apply emits_ret.
Qed.

Lemma execStmts_bounded l : forall ρ,
  forallb (fun s => negb (isMemStmt s)) l = true ->
  Inv ρ ->
  Forall bounded (flat_map stmtReads l) ->
  Forall (fun x => x ∉ map allocVar allocs) (flat_map bindsOf l) ->
  emits okEv (execStmts rt ρ l).
Proof.
  induction l as [|s l IH]; intros ρ Hmem HI Hb Hx; cbn [execStmts]; [apply emits_ret|].
  cbn [forallb flat_map] in *. apply andb_true_iff in Hmem as [Hs Hl].
  apply negb_true_iff in Hs. apply Forall_app in Hb as [Hbs Hbl].
  apply Forall_app in Hx as [Hxs Hxl].
  intros st r st' H. unfold Wrapper.bind in H.
  destruct (execStmt rt ρ s st) as [[c|e|] st1] eqn:E.
  - destruct (execStmt_bounded ρ s Hs HI Hbs _ _ _ E) as (ev1 & E1 & F1).
    destruct c as [ρ'|u].
    + assert (HI' : Inv ρ').
      { destruct (execStmt_env _ _ _ _ _ E) as [->|(x & u & Hin & ->)]; [done|].
        apply Inv_cons; [|done]. by apply (proj1 (Forall_forall _ _) Hxs). }
      destruct (IH ρ' Hl HI' Hbl Hxl _ _ _ H) as (ev2 & E2 & F2).
      exists (ev1 ++ ev2). split; [by rewrite E2, E1, app_assoc|by apply Forall_app].
    + injection H as <- <-. by exists ev1.
  - destruct (execStmt_bounded ρ s Hs HI Hbs _ _ _ E) as (ev1 & E1 & F1).
    injection H as <- <-. by exists ev1.
  - destruct (execStmt_bounded ρ s Hs HI Hbs _ _ _ E) as (ev1 & E1 & F1).
    injection H as <- <-. by exists ev1.
Qed.

Lemma boundedIn_spec body :
  boundedIn allocs body = true ->
  Forall bounded (flat_map stmtReads body)
  /\ Forall (fun x => x ∉ map allocVar allocs) (flat_map bindsOf body).
Proof.
  unfold boundedIn. intros H. apply andb_true_iff in H as [H1 H2]. split.
  - apply Forall_forall. intros r Hr.
    apply list_elem_of_In, (proj1 (forallb_forall _ _) H1) in Hr.
    destruct (sizeOf allocs r.1) as [size|] eqn:E; [|done].
    exists size. split; [done|]. by apply N.leb_le.
  - apply Forall_forall. intros x Hx Hin.
    apply list_elem_of_In, (proj1 (forallb_forall _ _) H2) in Hx.
    apply negb_true_iff in Hx.
    assert (existsb (String.eqb x) (map allocVar allocs) = true); [|congruence].
    apply existsb_exists. exists x. split; [by apply list_elem_of_In|].
    apply String.eqb_refl.
Qed.
End BoundsFacts.


Section LiveReads.
Import Cfg Synth Wrapper.
Context {W : Type} (rt : Runtime W).

(** Every read of numbers in [tr] lies in a buffer obtained before it,
    and nothing is released before it. *)
Definition liveReads (tr : list event) : Prop :=
  forall pre ev post a n,
    tr = pre ++ ev :: post -> readBytes ev = Some (a, n) ->
    exists size p,
      EvMalloc size p ∈ pre /\ (forall q, EvFree q ∉ pre)
      /\ (p <= a)%N /\ (a + n <= p + size)%N.

Lemma liveReads_phases A evs F :
  Forall allocEvent A -> Forall (okEv A) evs -> Forall quietEvent evs ->
  Forall freeEvent F -> liveReads (A ++ evs ++ F).
Proof.
  intros HA Hok Hq HF pre ev post a n E Hr.
  apply split_app in E as [[post1 ->]|(pre2 & -> & E)].
  { apply Forall_app in HA as [_ HA]. apply Forall_cons in HA as [HA _].
    by destruct ev. }
  apply split_app in E as [[post1 ->]|(pre3 & -> & ->)].
  - apply Forall_app in Hok as [_ Hok]. apply Forall_cons in Hok as [Hok _].
    destruct (Hok a n Hr) as (size & p & Hin & Hle).
    exists size, p. split; [apply elem_of_app; by left|]. split; [|done].
    intros q Hq'. apply elem_of_app in Hq' as [Hq'|Hq'].
    + by apply (proj1 (Forall_forall _ _) HA) in Hq'.
    + apply Forall_app in Hq as [Hq _].
      by apply (proj1 (Forall_forall _ _) Hq) in Hq'.
  - apply Forall_app in HF as [_ HF]. apply Forall_cons in HF as [HF _].
    by destruct ev.
Qed.

Lemma find_lookup {X} (f : X -> bool) (l : list X) x :
  List.find f l = Some x -> exists k, l !! k = Some x /\ f x = true.
Proof.
  intros H. apply find_some in H as [Hin Hf].
  apply list_elem_of_In, list_elem_of_lookup in Hin as [k Hk]. by exists k.
Qed.

(** After the allocations every pointer constant holds the address of
    its buffer. *)
Lemma Inv_allocs ρ l ps :
  Forall (fun s => isAllocStmt s = true) l ->
  NoDup (map allocVar l) -> length ps = length l ->
  Inv l (allocEvents ρ l ps) (bindPtrs ρ (map allocVar l) ps).
Proof.
  intros Hshape Hnd Hlen v size Hv. unfold sizeOf in Hv.
  destruct (List.find _ l) as [s|] eqn:E; [|done].
  apply find_lookup in E as (k & Hk & Hs). apply String.eqb_eq in Hs.
  destruct s as [v' sz| | | | | | | | | |]; try done.
  simpl in Hs. subst v'. injection Hv as <-.
  destruct (lookup_lt_is_Some_2 ps k) as [p Hp].
  { rewrite Hlen. by eapply lookup_lt_Some. }
  exists p. split.
  - eapply lookup_bindPtrs; [done| |done].
    by rewrite list_lookup_fmap, Hk.
  - eapply list_elem_of_lookup_2. eapply allocEvents_lookup; [done|done|].
    intros j s Hj. by apply (proj1 (Forall_lookup _ _) Hshape j s).
Qed.

Lemma readsBounded_body fn config :
  readsBounded config = true ->
  boundedIn (prog_allocs (wrapperProgram fn config))
            (prog_body (wrapperProgram fn config)) = true.
Proof.
  unfold readsBounded. rewrite wrapper_body_eq. fold (checkStmts config).
  assert (Ha : prog_allocs (wrapperProgram fn config)
               = map mallocOf (outputsOf config)
                 ++ map allocStringOf (inputStringsOf config)).
  { unfold wrapperProgram. cbv zeta. cbn [prog_allocs]. by rewrite allocProgram_eq. }
  rewrite Ha. unfold boundedIn. cbn [flat_map stmtReads bindsOf].
  intros H. apply andb_true_iff in H as [H1 H2]. rewrite H1. cbn [andb].
  destruct (returnTypeOf config); try done;
    cbn [app forallb] in *; by apply andb_true_iff in H2 as [_ H2].
Qed.

Lemma readsBounded_table name config :
  (name, config) ∈ functionConfig -> readsBounded config = true.
Proof.
  intros H.
  assert (Hall : forallb (fun e => readsBounded (snd e)) functionConfig = true)
    by (vm_compute; reflexivity).
  apply list_elem_of_In in H.
  by apply (proj1 (forallb_forall _ _) Hall) in H.
Qed.

Lemma invoke_liveReads fn config args w r w' tr :
  readsBounded config = true -> wellScoped fn config ->
  invoke rt (wrapperProgram fn config) args w = (r, (w', tr)) ->
  liveReads tr.
Proof.
  intros Hb Hws Hrun. pose proof Hws as [Hnd _].
  destruct (invoke_run rt fn config args w Hws)
    as [(r0 & w0 & tr0 & E & Hthrow)|(ps & w1 & Hlen & E)].
  { (* the run ends in the allocations: nothing is read *)
    rewrite E in Hrun. injection Hrun as -> -> ->.
    intros pre ev post a n -> Hread. exfalso.
    destruct (allocationThrows_events _ _ _ ev Hthrow) as [Hev|(? & ? & ->)];
      [apply elem_of_app; right; by left| |done].
    by destruct ev. }
  rewrite E in Hrun. clear E.
  set (prog := wrapperProgram fn config) in *.
  set (ρ0 := bindParams (prog_params prog) args) in *.
  destruct (wrapper_allocs_shape fn config) as [Hshape Hl]. fold prog in Hshape, Hl.
  assert (Hvars : map allocVar (prog_allocs prog) = map ptrVar (allocNames config)).
  { unfold prog, wrapperProgram. cbv zeta. cbn [prog_allocs].
    rewrite allocProgram_eq. cbn [allocStmts]. unfold allocNames.
    by rewrite !map_app, !map_map. }
  set (A := allocEvents ρ0 (prog_allocs prog) ps) in *.
  assert (HI : Inv (prog_allocs prog) A
                   (bindPtrs ρ0 (map ptrVar (allocNames config)) ps)).
  { rewrite <- Hvars. apply Inv_allocs; [done| |congruence].
    rewrite Hvars. by apply NoDup_ptrVar. }
  destruct (allocEvents_spec (prog_allocs prog) ρ0 ps Hshape) as (_ & _ & HA & _);
    [congruence|]. fold A in HA.
  apply (readsBounded_body fn) in Hb. fold prog in Hb.
  apply boundedIn_spec in Hb as [Hb1 Hb2].
  pose proof (wrapper_body_quiet fn config) as Hq. fold prog in Hq.
  destruct (execStmts rt _ (prog_body prog) (w1, A)) as [c [w2 tr2]] eqn:E.
  destruct (execStmts_bounded rt (prog_allocs prog) A _ _ Hq HI Hb1 Hb2 _ _ _ E)
    as (evs & E1 & Hok).
  destruct (execStmts_quiet rt _ _ Hq _ _ _ E) as (evs' & E2 & Hquiet).
  cbn [snd] in E1, E2. rewrite E1 in E2. apply app_inv_head in E2 as <-.
  subst tr2.
  assert (HF : Forall freeEvent (map EvFree ps)).
  { apply Forall_forall. intros ev Hev.
    by apply list_elem_of_fmap in Hev as (q & -> & _). }
  destruct c as [c|e|]; injection Hrun as _ _ <-.
  - rewrite <- app_assoc. by apply liveReads_phases.
  - rewrite <- app_assoc. by apply liveReads_phases.
  - rewrite <- (app_nil_r evs). by apply liveReads_phases.
Qed.
End LiveReads.

Section BoundsProperty.
Import Cfg Synth Wrapper.

(** X15: for every routine of the configuration table, each read of numbers
    that its wrapper performs (a double, a 32-bit integer or an array of
    doubles) reads only bytes of a buffer that the wrapper obtained
    earlier with [raw.malloc], and the wrapper has released nothing
    before the read: no read beyond the end of an output buffer, none
    after its release. *)
Theorem reads_stay_in_buffers {W} (rt : Runtime W) name fn config args
    w r w' pre ev post a n :
  (name, config) ∈ functionConfig ->
  wellScoped fn config ->
  invoke rt (wrapperProgram fn config) args w = (r, (w', pre ++ ev :: post)) ->
  readBytes ev = Some (a, n) ->
  exists size p,
    EvMalloc size p ∈ pre /\ (forall q, EvFree q ∉ pre)
    /\ (p <= a)%N /\ (a + n <= p + size)%N.
Proof.
  intros Hcfg Hws Hrun Hread.
  apply readsBounded_table in Hcfg.
  by apply (invoke_liveReads rt fn config args w r w' _ Hcfg Hws Hrun pre ev post).
Qed.

Lemma houses_wellScoped : wellScoped swe_houses (configOf "swe_houses").
Proof.
  split.
  - apply (bool_decide_unpack _). by vm_compute.
  - intros s Hs. vm_compute in Hs. by apply elem_of_nil in Hs.
Qed.

Lemma reads_stay_in_buffers_witness :
  exists size p,
    EvMalloc size p
      ∈ [EvMalloc 104 1024; EvMalloc 80 1128;
         EvCall "swe_houses"
                [VNum 2451545; VNum 52; VNum 13; VNum 80; VPtr 1024; VPtr 1128]
                (Ans 0%float);
         EvGetFloat64Array 1024 13 (Ans cuspBuffer)]
    /\ (forall q,
          EvFree q
            ∉ [EvMalloc 104 1024; EvMalloc 80 1128;
               EvCall "swe_houses"
                      [VNum 2451545; VNum 52; VNum 13; VNum 80; VPtr 1024; VPtr 1128]
                      (Ans 0%float);
               EvGetFloat64Array 1024 13 (Ans cuspBuffer)])
    /\ (p <= 1128)%N /\ (1128 + 80 <= p + size)%N.
Proof.
  apply (reads_stay_in_buffers (scripted (Ans 0%float) (Ans "") cuspBuffer)
           "swe_houses" swe_houses (configOf "swe_houses")
           [VNum 2451545; VNum 52; VNum 13; VStr "P"] 1024%N
           (Val (VObj [("cusps", VArr (VNum <$> [15; 45; 75; 105; 135; 165; 195; 225;
                                                 255; 285; 315; 345]%float));
                       ("ascendant", VNum 0); ("mc", VNum 15); ("armc", VNum 45);
                       ("vertex", VNum 75); ("equatorialAscendant", VNum 105);
                       ("coAscendantKoch", VNum 135); ("coAscendantMunkasey", VNum 165);
                       ("polarAscendant", VNum 195)]))
           1208%N
           [EvMalloc 104 1024; EvMalloc 80 1128;
            EvCall "swe_houses"
                   [VNum 2451545; VNum 52; VNum 13; VNum 80; VPtr 1024; VPtr 1128]
                   (Ans 0%float);
            EvGetFloat64Array 1024 13 (Ans cuspBuffer)]
           (EvGetFloat64Array 1128 10 (Ans (take 10 cuspBuffer)))
           [EvFree 1024; EvFree 1128]).
  - in_list.
  - apply houses_wellScoped.
  - exact houses_run.
  - reflexivity.
Defined.
End BoundsProperty.
(** * More about the memory helpers *)

Section HelperProperties.
Import Helpers.
Implicit Types (mem : list Byte.byte) (ptr : Z).
Local Open Scope Z_scope.

Lemma setBytes_inside mem ptr bytes mem' :
  setBytes mem ptr bytes = Some mem' ->
  0 <= ptr /\ ptr + Z.of_nat (length bytes) <= Z.of_nat (length mem)
  /\ mem' = take (Z.to_nat ptr) mem ++ bytes
            ++ drop (Z.to_nat ptr + length bytes) mem.
Proof.
  unfold setBytes. destruct (Z.ltb_spec ptr 0); [done|].
  destruct (Z.ltb_spec (Z.of_nat (length mem)) (ptr + Z.of_nat (length bytes)));
    [done|].
  intros [= <-]. done.
Qed.

Lemma setBytes_lookup mem ptr bytes mem' (j : nat) :
  setBytes mem ptr bytes = Some mem' ->
  (j < length bytes)%nat ->
  mem' !! (Z.to_nat ptr + j)%nat = bytes !! j.
Proof.
  intros H Hj. apply setBytes_inside in H as (Hp & Hfit & ->).
  rewrite lookup_app_r by (rewrite length_take; lia).
  rewrite length_take, Nat.min_l by lia.
  replace (Z.to_nat ptr + j - Z.to_nat ptr)%nat with j by lia.
  by rewrite lookup_app_l.
Qed.

Lemma isZero_other mem i b :
  mem !! Z.to_nat i = Some b -> b <> x00 -> isZero (at_ mem i) = false.
Proof.
  intros Hb Hne. destruct (isZero (at_ mem i)) eqn:E; [|done].
  apply isZero_at in E as [_ E]. congruence.
Qed.

(** X17: what [allocString] writes, [getString] reads back: for a string
    whose encoding holds no zero byte and is followed by the zero byte
    of the terminator, the string read at the address returned is the
    string written. *)
Theorem allocString_getString
    (encode : string -> list Byte.byte) (decode : list Byte.byte -> string)
    (malloc : N -> list Byte.byte -> Z * list Byte.byte)
    (str : string) mem ptr mem' (fuel : nat) :
  encode (str +:+ NUL) = encode str ++ [x00] ->
  x00 ∉ encode str ->
  decode (encode str) = str ->
  allocString encode malloc str mem = Some (ptr, mem') ->
  (length (encode str) < fuel)%nat ->
  getString decode fuel mem' ptr = Some str.
Proof.
  intros Hnul Hclean Hround Halloc Hfuel. unfold allocString in Halloc.
  cbv zeta in Halloc. rewrite Hnul in Halloc.
  destruct (malloc _ mem) as [p mem1].
  destruct (setBytes mem1 p (encode str ++ [x00])) as [mem2|] eqn:Hset; [|done].
  injection Halloc as -> ->.
  pose proof (setBytes_inside _ _ _ _ Hset) as (Hp & Hfit & Hmem).
  rewrite length_app in Hfit. cbn [length] in Hfit.
  set (n := length (encode str)) in *.
  assert (Hat : forall j : nat, (j <= n)%nat ->
            mem' !! Z.to_nat (ptr + Z.of_nat j) = (encode str ++ [x00]) !! j).
  { intros j Hj. replace (Z.to_nat (ptr + Z.of_nat j)) with (Z.to_nat ptr + j)%nat by lia.
    apply (setBytes_lookup _ _ _ _ _ Hset). rewrite length_app. simpl. fold n. lia. }
  unfold getString. rewrite (scan_first mem' n); [| | |done].
  - rewrite subarray_inside; [|lia|].
    + replace (ptr + Z.of_nat n - ptr) with (Z.of_nat n) by lia.
      rewrite Nat2Z.id, Hmem, drop_app_length'; [|rewrite length_take; lia].
      rewrite <- app_assoc, take_app_length'; [|done]. by rewrite Hround.
    + rewrite Hmem, !length_app, length_take, length_drop. cbn [length]. fold n. lia.
  - apply isZero_at. split; [lia|]. rewrite (Hat n) by lia.
    by rewrite lookup_app_r, Nat.sub_diag by (fold n; lia).
  - intros j Hj. assert (Hlook : is_Some (encode str !! j)).
    { apply lookup_lt_is_Some. by fold n. }
    destruct Hlook as [b Hb].
    apply (isZero_other mem' _ b).
    + rewrite (Hat j) by lia. by rewrite lookup_app_l by (fold n; lia).
    + intros ->. apply Hclean. by eapply list_elem_of_lookup_2.
Qed.

(** A memory of sixteen zero bytes and an allocator that always answers
    with the address 4. *)
Lemma allocString_getString_witness :
  getString string_of_list_byte 4 (replicate 4 x00 ++ [x53; x75; x6e; x00]%byte
                                   ++ replicate 8 x00) 4
  = Some "Sun".
Proof.
  apply (allocString_getString list_byte_of_string string_of_list_byte
           (fun _ mem => (4, mem)) "Sun" (replicate 16 x00)).
  - reflexivity.
  - change (list_byte_of_string "Sun") with [x53; x75; x6e]%byte. intros H.
    repeat (apply elem_of_cons in H as [H|H]; [discriminate H|]).
    by apply elem_of_nil in H.
  - reflexivity.
  - reflexivity.
  - simpl. lia.
Defined.

(** In a memory without room for the bytes of the string and its
    terminator from the address obtained on, the copy fails:
    [allocString] throws. *)
Example allocString_no_room :
  allocString list_byte_of_string (fun _ mem => (12, mem)) "Sirius"
              (replicate 16 x00)
  = None.
Proof. reflexivity. Qed.

Lemma byteAt_bounds mem i : 0 <= byteAt mem i <= 255.
Proof.
  unfold byteAt. pose proof (Byte.to_N_bounded (nth i mem x00)). lia.
Qed.

(** X18: [getInt32] answers inside the memory only, with a number of the
    signed 32-bit range that is the little-endian value of the four
    bytes modulo [2^32]. *)
Theorem getInt32_range mem ptr (v : Z) :
  getInt32 mem ptr = Some v ->
  0 <= ptr /\ ptr + 4 <= Z.of_nat (length mem)
  /\ -2147483648 <= v < 2147483648
  /\ (v mod 4294967296
      = byteAt mem (Z.to_nat ptr) + 256 * byteAt mem (Z.to_nat ptr + 1)
        + 65536 * byteAt mem (Z.to_nat ptr + 2)
        + 16777216 * byteAt mem (Z.to_nat ptr + 3)).
Proof.
  unfold getInt32. destruct (Z.ltb_spec ptr 0); [done|].
  destruct (Z.ltb_spec (Z.of_nat (length mem)) (ptr + 4)); [done|].
  cbv zeta. intros [= <-]. split; [done|]. split; [done|].
  pose proof (byteAt_bounds mem (Z.to_nat ptr)).
  pose proof (byteAt_bounds mem (Z.to_nat ptr + 1)).
  pose proof (byteAt_bounds mem (Z.to_nat ptr + 2)).
  pose proof (byteAt_bounds mem (Z.to_nat ptr + 3)).
  set (u := byteAt mem (Z.to_nat ptr) + 256 * byteAt mem (Z.to_nat ptr + 1)
            + 65536 * byteAt mem (Z.to_nat ptr + 2)
            + 16777216 * byteAt mem (Z.to_nat ptr + 3)) in *.
  destruct (Z.ltb_spec u 2147483648).
  - split; [lia|]. apply Z.mod_small. lia.
  - split; [lia|].
    replace (u - 4294967296) with (u + (-1) * 4294967296) by lia.
    rewrite Z.mod_add by lia. apply Z.mod_small. lia.
Qed.

Example getInt32_minus_two :
  getInt32 [x00; xfe; xff; xff; xff]%byte 1 = Some (-2).
Proof. reflexivity. Qed.

Lemma getInt32_range_witness :
  0 <= 1 /\ 1 + 4 <= Z.of_nat (length [x00; xfe; xff; xff; xff]%byte)
  /\ -2147483648 <= -2 < 2147483648
  /\ ((-2) mod 4294967296
      = byteAt [x00; xfe; xff; xff; xff]%byte (Z.to_nat 1)
        + 256 * byteAt [x00; xfe; xff; xff; xff]%byte (Z.to_nat 1 + 1)
        + 65536 * byteAt [x00; xfe; xff; xff; xff]%byte (Z.to_nat 1 + 2)
        + 16777216 * byteAt [x00; xfe; xff; xff; xff]%byte (Z.to_nat 1 + 3)).
Proof.
  apply (getInt32_range [x00; xfe; xff; xff; xff]%byte 1 (-2)). reflexivity.
Defined.

Lemma getFloat64ArrayLoop_spec view ptr (todo : nat) : forall i result,
  match getFloat64ArrayLoop view ptr i todo result with
  | Some l =>
      exists more, l = result ++ more /\ length more = todo
                   /\ forall k : nat, (k < todo)%nat ->
                        view (ptr + (i + Z.of_nat k) * 8) = Some (nth k more 0%float)
  | None => exists k : nat, (k < todo)%nat /\ view (ptr + (i + Z.of_nat k) * 8) = None
  end.
Proof.
  induction todo as [|todo IH]; intros i result; cbn [getFloat64ArrayLoop].
  - exists []. rewrite app_nil_r. split; [done|]. split; [done|]. lia.
  - destruct (view (ptr + i * 8)) as [x|] eqn:Hx.
    + specialize (IH (i + 1) (result ++ [x])).
      destruct (getFloat64ArrayLoop view ptr (i + 1) todo (result ++ [x])) as [l|].
      * destruct IH as (more & -> & Hlen & Hall). exists (x :: more).
        split; [by rewrite <- app_assoc|]. split; [simpl; lia|].
        intros [|k] Hk; [by rewrite Z.add_0_r|].
        replace (i + Z.of_nat (S k)) with (i + 1 + Z.of_nat k) by lia.
        apply Hall. lia.
      * destruct IH as (k & Hk & Hnone). exists (S k). split; [lia|].
        by replace (i + Z.of_nat (S k)) with (i + 1 + Z.of_nat k) by lia.
    + exists 0%nat. split; [lia|]. by rewrite Z.add_0_r.
Qed.

(** X19: [getFloat64Array] answers with exactly [count] numbers, the [k]-th
    read at [ptr + 8 k], so that every read lies in the block of
    [count * 8] bytes beginning at [ptr]; it fails exactly when one of
    these reads does. *)
Theorem getFloat64Array_reads (view : Z -> option float) ptr (count : nat) :
  match getFloat64Array view ptr count with
  | Some l =>
      length l = count
      /\ forall k : nat, (k < count)%nat ->
           view (ptr + 8 * Z.of_nat k) = Some (nth k l 0%float)
           /\ ptr <= ptr + 8 * Z.of_nat k
           /\ ptr + 8 * Z.of_nat k + 8 <= ptr + Z.of_nat count * 8
  | None => exists k : nat, (k < count)%nat /\ view (ptr + 8 * Z.of_nat k) = None
  end.
Proof.
  unfold getFloat64Array.
  pose proof (getFloat64ArrayLoop_spec view ptr count 0 []) as H.
  destruct (getFloat64ArrayLoop view ptr 0 count []) as [l|].
  - destruct H as (more & -> & Hlen & Hall). cbn [app]. split; [done|].
    intros k Hk. split; [|lia].
    replace (ptr + 8 * Z.of_nat k) with (ptr + (0 + Z.of_nat k) * 8) by lia.
    by apply Hall.
  - destruct H as (k & Hk & Hnone). exists k. split; [done|].
    by replace (ptr + 8 * Z.of_nat k) with (ptr + (0 + Z.of_nat k) * 8) by lia.
Qed.
End HelperProperties.

Section ErrorBufferProperties.
Import Wrapper Helpers.
Context {W : Type} (rt : Runtime W) {T : Type}.

(** X20: for a callback that neither allocates nor releases, a call of
    [withErrorBuffer] that returns or raises has obtained one buffer
    first and released it last, once; the field [error] of a result is
    the string read from the buffer after the callback, absent when that
    string is empty; an error of the callback is raised again after the
    release. *)
Theorem withErrorBuffer_releases
    (bufferSize : N) (fn : N -> Wrapper.M T) (w w' : W) (tr0 tr : list event)
    (r : result (T * option string)) :
  (forall p, emits quietEvent (fn p)) ->
  withErrorBuffer rt bufferSize fn (w, tr0) = (r, (w', tr)) ->
  r <> Hang ->
  exists p mid,
    tr = tr0 ++ EvMalloc bufferSize p :: mid ++ [EvFree p]
    /\ Forall quietEvent mid
    /\ (forall v err, r = Val (v, err) ->
          exists mid' s, mid = mid' ++ [EvGetString p (Ans s)]
                         /\ err = if String.eqb s "" then None else Some s)
    /\ (forall e st,
          fn p ((rt_malloc rt bufferSize w).2, tr0 ++ [EvMalloc bufferSize p])
          = (Raise e, st) ->
          r = Raise e).
Proof.
  intros Hquiet Hrun Hr.
  unfold withErrorBuffer, malloc, Wrapper.getString, free, Wrapper.bind, world,
    setWorld, emit, lift, ret in Hrun.
  cbn [fst snd] in Hrun.
  destruct (rt_malloc rt bufferSize w) as [p w1] eqn:Hmalloc. cbn [fst snd] in *.
  destruct (fn p (w1, tr0 ++ [EvMalloc bufferSize p])) as [c [w2 tr2]] eqn:Efn.
  destruct (Hquiet p _ _ _ Efn) as (evs & Htr2 & Hevs). cbn [snd] in Htr2. subst tr2.
  exists p. destruct c as [v|e|]; cbn [fst snd] in Hrun.
  - destruct (rt_getString rt p w2) as [s|m|] eqn:Hs; cbn [fst snd] in Hrun.
    + injection Hrun as <- <- <-.
      exists (evs ++ [EvGetString p (Ans s)]).
      split; [by rewrite <- !app_assoc|].
      split; [apply Forall_app; split; [done|by repeat constructor]|].
      split.
      * intros v' err [= <- <-]. exists evs, s. split; [done|]. by destruct s.
      * intros e st. by rewrite Efn.
    + injection Hrun as <- <- <-.
      exists (evs ++ [EvGetString p (Trap m)]).
      split; [by rewrite <- !app_assoc|].
      split; [apply Forall_app; split; [done|by repeat constructor]|].
      split; [done|]. intros e st. by rewrite Efn.
    + by injection Hrun as <- <- <-.
  - injection Hrun as <- <- <-.
    exists evs. split; [by rewrite <- !app_assoc|]. split; [done|].
    split; [done|]. intros e' st. rewrite Efn. by intros [= <- <-].
  - by injection Hrun as <- <- <-.
Qed.
End ErrorBufferProperties.

Section ErrorBufferExample.
Import Wrapper Helpers.

(** A callback that calls a native routine with the buffer. *)
Definition calcCallback (rt : Runtime N) (serrPtr : N) : Wrapper.M float :=
  call rt "swe_calc_ut" [VNum 2451545; VNum 0; VNum 2; VPtr 0; VPtr serrPtr].

Lemma calcCallback_quiet rt p : emits quietEvent (calcCallback rt p).
Proof.
  unfold calcCallback, call.
  apply emits_bind; [apply emits_world|]. intros w.
  destruct (rt_call rt _ _ w) as [r w1].
  apply emits_bind; [apply emits_setWorld|]. intros _.
  apply emits_bind; [by apply emits_emit|]. intros _. apply emits_lift.
Qed.

Example withErrorBuffer_run :
  withErrorBuffer (scripted (Ans (-1)%float) (Ans "jd out of range") []) 256
                  (calcCallback (scripted (Ans (-1)%float) (Ans "jd out of range") []))
                  (1024%N, [])
  = (Val ((-1)%float, Some "jd out of range"),
     (1280%N,
      [EvMalloc 256 1024;
       EvCall "swe_calc_ut" [VNum 2451545; VNum 0; VNum 2; VPtr 0; VPtr 1024]
              (Ans (-1)%float);
       EvGetString 1024 (Ans "jd out of range");
       EvFree 1024])).
Proof. by vm_compute. Qed.

Lemma withErrorBuffer_releases_witness :
  exists p mid,
    [EvMalloc 256 1024;
     EvCall "swe_calc_ut" [VNum 2451545; VNum 0; VNum 2; VPtr 0; VPtr 1024]
            (Ans (-1)%float);
     EvGetString 1024 (Ans "jd out of range");
     EvFree 1024]
    = [] ++ EvMalloc 256 p :: mid ++ [EvFree p]
    /\ Forall quietEvent mid
    /\ (forall v err, Val ((-1)%float, Some "jd out of range") = Val (v, err) ->
          exists mid' s, mid = mid' ++ [EvGetString p (Ans s)]
                         /\ err = if String.eqb s "" then None else Some s)
    /\ (forall e st,
          calcCallback (scripted (Ans (-1)%float) (Ans "jd out of range") []) p
            ((rt_malloc (scripted (Ans (-1)%float) (Ans "jd out of range") [])
                        256 1024%N).2,
             [] ++ [EvMalloc 256 p])
          = (Raise e, st) ->
          Val ((-1)%float, Some "jd out of range") = Raise e).
Proof.
  apply (withErrorBuffer_releases
           (scripted (Ans (-1)%float) (Ans "jd out of range") []) 256
           (calcCallback (scripted (Ans (-1)%float) (Ans "jd out of range") []))
           1024%N 1280%N).
  - intros p. apply calcCallback_quiet.
  - apply withErrorBuffer_run.
  - discriminate.
Defined.
End ErrorBufferExample.

